(** * Dimensional analysis of unit expressions (package [units])

    A shallow embedding of the Go package: the unit algebra on [pUnit]
    (units.go), the built-in prefix and symbol tables (init.go), the
    recursive-descent parser of unit expressions (parse.go) and the
    measurement operations [Parse], [Reciprocal] and [New] (units.go).
    The tables are those of init.go, which the two variants of the package
    ([unit] and [units]) build in the same way.

    Conventions of the embedding
    - Go's [int] is the 64-bit two's complement integer and [int8]
      ([uComponent]) the 8-bit one; both are carried by [Z] with the
      wrap-around written out ([wrap]).
    - [float64] is IEEE-754 binary64, carried by [spec_float] with the
      operations of the standard library's specification ([SFmul], [SFdiv],
      ...), instantiated at precision 53 and maximal exponent 1024.
    - a [string] is its sequence of bytes; [[]byte] is [list ascii].
    - [*measure] values are shared and updated in place by the code, so they
      live in an explicit heap; [*pUnit] values are never updated after they
      are built and are carried by value.
    - [unicode.Digit] and [unicode.White_Space] are range tables of the Go
      release; outside Latin-1 they are parameters ([UnicodeTables]). *)

From Stdlib Require Import ZArith Ascii String DecimalString SpecFloat Sorted Lia.
From stdpp Require Import base option list strings gmap.

Local Open Scope Z_scope.

(** ** Machine integers *)

(** Two's complement reduction to [w] bits. *)
Definition wrap (w : Z) (z : Z) : Z :=
  (z + 2 ^ (w - 1)) mod 2 ^ w - 2 ^ (w - 1).

Definition in_range (w : Z) (z : Z) : Prop :=
  - 2 ^ (w - 1) <= z < 2 ^ (w - 1).

(** [int] arithmetic. *)
Definition int_add (a b : Z) : Z := wrap 64 (a + b).
Definition int_sub (a b : Z) : Z := wrap 64 (a - b).
Definition int_neg (a : Z) : Z := wrap 64 (- a).
Definition int_mul (a b : Z) : Z := wrap 64 (a * b).

(** [uComponent] ([int8]) arithmetic. *)
Definition uComponent := Z.
Definition uc_add (a b : uComponent) : uComponent := wrap 8 (a + b).
Definition uc_neg (a : uComponent) : uComponent := wrap 8 (- a).
Definition uc_mul (a b : uComponent) : uComponent := wrap 8 (a * b).

(** ** float64 *)

Definition float64 := spec_float.

Definition prec : Z := 53.
Definition emax : Z := 1024.

Definition f64_mul : float64 -> float64 -> float64 := SFmul prec emax.
Definition f64_div : float64 -> float64 -> float64 := SFdiv prec emax.
(** [x == y] on float64 (false on NaN, true on zeros of either sign). *)
Definition f64_eqb : float64 -> float64 -> bool := SFeqb.

(** The float64 nearest to [m * 2^e] (ties to even). *)
Definition f64_of (m e : Z) : float64 := binary_normalize prec emax m e false.

Definition f64_zero : float64 := S754_zero false.
Definition f64_one : float64 := f64_of 1 0.
Definition f64_inf : float64 := S754_infinity false.

(** [math.IsInf(f, 0)]. *)
Definition IsInf (f : float64) : bool :=
  match f with S754_infinity _ => true | _ => false end.

(** [math.MaxFloat64] and [math.SmallestNonzeroFloat64]. *)
Definition MaxFloat64 : float64 := S754_finite false (2 ^ 53 - 1) 971.
Definition SmallestNonzeroFloat64 : float64 := S754_finite false 1 (-1074).

(** The float64 denoted by the decimal literal [1e<k>]: the nearest to
    [10^k].  For negative [k] the quotient [2^s / 10^-k] is never exact, so
    a sticky low bit keeps the rounding direction of the exact value. *)
Definition f64_pow10_lit (k : Z) : float64 :=
  if 0 <=? k then f64_of (10 ^ k) 0
  else
    let s := 1200 + 4 * (- k) in
    f64_of (2 * (2 ^ s / 10 ^ (- k)) + 1) (- (s + 1)).

(** [math.Pow10]: products and quotients of the tabulated literals
    [pow10tab], [pow10postab32] and [pow10negtab32]. *)
Definition pow10tab (i : Z) : float64 := f64_pow10_lit i.
Definition pow10postab32 (i : Z) : float64 := f64_pow10_lit (32 * i).
Definition pow10negtab32 (i : Z) : float64 := f64_pow10_lit (- (32 * i)).

Definition Pow10 (n : Z) : float64 :=
  if (0 <=? n) && (n <=? 308) then
    f64_mul (pow10postab32 (n / 32)) (pow10tab (n mod 32))
  else if (-323 <=? n) && (n <=? 0) then
    f64_div (pow10negtab32 ((- n) / 32)) (pow10tab ((- n) mod 32))
  else if 0 <? n then f64_inf
  else f64_zero.

(** ** Errors

    The package builds its errors with [errors.New] and strconv's
    [NumError]; one constructor stands for each error value or constructor
    function of the code. *)

Inductive numErr := ErrSyntax | ErrRange.

Inductive error :=
  | symbolNotFound
  | prefixNotFound
  | unparsedText
  | divideByZero
  | wrongDimension
  | underflow
  | overflow
  (** [makeRuneNotFoundError r] *)
  | runeNotFound (r : Z)
  (** [*strconv.NumError] of [strconv.ParseInt] on the text [num] *)
  | numError (num : list ascii) (k : numErr)
  (** [makeParseError data pos err]: consumed text, remaining text, cause *)
  | parseFailed (consumed rest : list ascii) (err : error).

Definition makeRuneNotFoundError (r : Z) : error := runeNotFound r.

Definition makeParseError (data : list ascii) (pos : nat) (err : error) : error :=
  parseFailed (take pos data) (drop pos data) err.

(** A parsing function of the package returns [(value, pos, err)]; the value
    is only read when [err == nil], the position in both cases. *)
Inductive res (A : Type) : Type :=
  | Ok (a : A) (pos : nat)
  | Err (pos : nat) (e : error).
Arguments Ok {A} a pos.
Arguments Err {A} pos e.

(** ** Runes and bytes: [unicode/utf8], [unicode], [strconv] *)

Definition byteZ (c : ascii) : Z := Z.of_N (N_of_ascii c).

Definition RuneError : Z := 0xFFFD.
Definition MaxLatin1 : Z := 0xFF.

(** Second-byte range accepted after the leading byte [p0]
    ([acceptRanges] of unicode/utf8). *)
Definition acceptRange (p0 : Z) : Z * Z :=
  if p0 =? 0xE0 then (0xA0, 0xBF)
  else if p0 =? 0xED then (0x80, 0x9F)
  else if p0 =? 0xF0 then (0x90, 0xBF)
  else if p0 =? 0xF4 then (0x80, 0x8F)
  else (0x80, 0xBF).

Definition is_cont (b : Z) : bool := (0x80 <=? b) && (b <=? 0xBF).

(** [utf8.DecodeRune]: the first rune of [p] and its width in bytes;
    [(RuneError, 1)] on an invalid encoding, [(RuneError, 0)] on no input. *)
Definition DecodeRune (p : list ascii) : Z * nat :=
  match p with
  | [] => (RuneError, 0%nat)
  | c0 :: p1 =>
    let p0 := byteZ c0 in
    if p0 <? 0x80 then (p0, 1%nat)
    else if (p0 <? 0xC2) || (0xF4 <? p0) then (RuneError, 1%nat)
    else
      let sz := if p0 <? 0xE0 then 2%nat else if p0 <? 0xF0 then 3%nat else 4%nat in
      let '(lo, hi) := acceptRange p0 in
      if (length p <? sz)%nat then (RuneError, 1%nat)
      else
        match p1 with
        | [] => (RuneError, 1%nat)
        | c1 :: p2 =>
          let b1 := byteZ c1 in
          if (b1 <? lo) || (hi <? b1) then (RuneError, 1%nat)
          else if (sz <=? 2)%nat then
            (Z.lor (Z.shiftl (Z.land p0 0x1F) 6) (Z.land b1 0x3F), 2%nat)
          else
            match p2 with
            | [] => (RuneError, 1%nat)
            | c2 :: p3 =>
              let b2 := byteZ c2 in
              if negb (is_cont b2) then (RuneError, 1%nat)
              else if (sz <=? 3)%nat then
                (Z.lor (Z.shiftl (Z.land p0 0x0F) 12)
                   (Z.lor (Z.shiftl (Z.land b1 0x3F) 6) (Z.land b2 0x3F)), 3%nat)
              else
                match p3 with
                | [] => (RuneError, 1%nat)
                | c3 :: _ =>
                  let b3 := byteZ c3 in
                  if negb (is_cont b3) then (RuneError, 1%nat)
                  else
                    (Z.lor (Z.shiftl (Z.land p0 0x07) 18)
                       (Z.lor (Z.shiftl (Z.land b1 0x3F) 12)
                          (Z.lor (Z.shiftl (Z.land b2 0x3F) 6) (Z.land b3 0x3F))),
                     4%nat)
                end
            end
        end
  end.

(** The range tables [unicode.Digit] and [unicode.White_Space], read only
    for runes above Latin-1. *)
Class UnicodeTables := {
  Digit : Z -> bool;
  White_Space : Z -> bool
}.

Section Runes.
Context `{UnicodeTables}.

(** [unicode.IsSpace] *)
Definition IsSpace (r : Z) : bool :=
  if (0 <=? r) && (r <=? MaxLatin1) then
    (r =? 0x09) || (r =? 0x0A) || (r =? 0x0B) || (r =? 0x0C) || (r =? 0x0D)
    || (r =? 0x20) || (r =? 0x85) || (r =? 0xA0)
  else White_Space r.

(** [unicode.IsDigit] *)
Definition IsDigit (r : Z) : bool :=
  if r <=? MaxLatin1 then (0x30 <=? r) && (r <=? 0x39)
  else Digit r.

(** [bytes.IndexFunc(s, f)]: byte index of the first rune of [s] satisfying
    [f], none when there is no such rune.  [start] is the loop variable of
    the library function; every iteration advances it by at least one
    byte, so [fuel] = [length s] iterations always suffice. *)
Fixpoint indexFunc (fuel : nat) (f : Z -> bool) (s : list ascii) (start : nat)
  : option nat :=
  match fuel with
  | O => None
  | S fuel =>
    if (start <? length s)%nat then
      let '(r, wid) :=
        match drop start s with
        | c :: _ =>
          if 0x80 <=? byteZ c then DecodeRune (drop start s) else (byteZ c, 1%nat)
        | [] => (RuneError, 1%nat)
        end in
      if f r then Some start else indexFunc fuel f s (start + wid)%nat
    else None
  end.

Definition IndexFunc (s : list ascii) (f : Z -> bool) : option nat :=
  indexFunc (length s) f s 0.

End Runes.

(** [strconv.ParseUint(s, 10, 8)]: the loop over the digits, [n] the value
    read so far. *)
Definition maxUint64 : Z := 2 ^ 64 - 1.

Fixpoint parseUintLoop (s : list ascii) (n : Z) : numErr + Z :=
  match s with
  | [] => inr n
  | c :: s' =>
    let b := byteZ c in
    if (0x30 <=? b) && (b <=? 0x39) then
      let d := b - 0x30 in
      if maxUint64 / 10 + 1 <=? n then inl ErrRange
      else
        let n1 := n * 10 + d in
        if 255 <? n1 then inl ErrRange else parseUintLoop s' n1
    else inl ErrSyntax
  end.

Definition ParseUint8 (s : list ascii) : numErr + Z :=
  match s with
  | [] => inl ErrSyntax
  | _ => parseUintLoop s 0
  end.

(** [strconv.ParseInt(s, 10, 8)] *)
Definition ParseInt8 (s0 : list ascii) : error + Z :=
  match s0 with
  | [] => inl (numError s0 ErrSyntax)
  | c :: s' =>
    let '(neg, s) :=
      if byteZ c =? 0x2B then (false, s')
      else if byteZ c =? 0x2D then (true, s')
      else (false, s0) in
    match ParseUint8 s with
    | inl ErrSyntax => inl (numError s0 ErrSyntax)
    | r =>
      let un := match r with inr un => un | inl _ => 255 end in
      let cutoff := 128 in
      if negb neg && (cutoff <=? un) then inl (numError s0 ErrRange)
      else if neg && (cutoff <? un) then inl (numError s0 ErrRange)
      else inr (if neg then - un else un)
    end
  end.

(** ** Points of the dimensional unit space and parsed units (units.go) *)

Definition currentDim : nat := 0.
Definition intensityDim : nat := 1.
Definition lengthDim : nat := 2.
Definition massDim : nat := 3.
Definition amountDim : nat := 4.
Definition timeDim : nat := 5.
Definition temperatureDim : nat := 6.
Definition temperatureCDim : nat := 7.
Definition numDim : nat := 8.

(** [uPoint] is the array type [[numDim]uComponent]. *)
Definition uPoint := list uComponent.

(** The zero value of [uPoint]. *)
Definition zeroPoint : uPoint := replicate numDim 0.

Record pUnit := mkPUnit {
  Dim : uPoint;
  DimLess : list uPoint;
  Scale : Z
}.

(** The loop [for idx, v := range l { s = body idx v s }]. *)
Definition rangeLoop {A S : Type} (body : nat -> A -> S -> S) (l : list A) (s : S) : S :=
  foldl (fun s iv => body (fst iv) (snd iv) s) s (imap pair l).

(** Methods of [*pUnit]. *)
Module PUnit.

(** [newDim[idx] += v] for every [idx, v] of [dim]. *)
Definition addPoint (newDim dim : uPoint) : uPoint :=
  rangeLoop (fun idx v r => <[idx := uc_add (nth idx r 0) v]> r) dim newDim.

(** Return product of all dimension factors. *)
Definition product (a : pUnit) : uPoint :=
  foldl addPoint zeroPoint (DimLess a ++ [Dim a]).

Definition Multiply (a b : pUnit) : pUnit :=
  let r := product a in
  let r := addPoint r (product b) in
  {| Dim := r; DimLess := []; Scale := int_add (Scale a) (Scale b) |}.

Definition Reciprocal (a : pUnit) : pUnit :=
  let r := product a in
  let r := rangeLoop (fun idx v r => <[idx := uc_neg v]> r) r r in
  {| Dim := r; DimLess := []; Scale := int_neg (Scale a) |}.

Definition Exp (a : pUnit) (e : uComponent) : pUnit :=
  let r := product a in
  let r := rangeLoop (fun idx v r => <[idx := uc_mul e v]> r) r r in
  {| Dim := r; DimLess := []; Scale := int_mul e (Scale a) |}.

End PUnit.

(** [strconv.FormatInt(i, 10)] and [strings.Join]. *)
Definition FormatInt (i : Z) : string := NilZero.string_of_int (Z.to_int i).

Fixpoint Join (elems : list string) (sep : string) : string :=
  match elems with
  | [] => ""
  | [e] => e
  | e :: rest => e ++ sep ++ Join rest sep
  end.

(** Methods of [uPoint]. *)
Module UPoint.

Definition labels : list string := ["I"; "J"; "L"; "M"; "N"; "T"; "Θ"; "ΘC"].

Definition String (a : uPoint) : string :=
  let terms :=
    rangeLoop (fun idx v terms =>
      if v =? 0 then terms
      else
        let label := if (idx <? length labels)%nat then nth idx labels "X" else "X" in
        terms ++ [(label ++ "^" ++ FormatInt v)%string]) a [] in
  Join terms " ".

End UPoint.

(** Componentwise operations on dimension vectors, as the specification
    words them; the components are [uComponent]s. *)
Definition vadd (x y : uPoint) : uPoint := zip_with uc_add x y.
Definition vneg (x : uPoint) : uPoint := map uc_neg x.
Definition vscale (e : uComponent) (x : uPoint) : uPoint := map (uc_mul e) x.

(** [a == b] on [uPoint] arrays. *)
Definition uPoint_eqb (a b : uPoint) : bool := bool_decide (a = b).

(** ** The built-in tables (init.go) *)

Module keyedUnit.
Record t := mk { Key : string; Unit : pUnit }.
End keyedUnit.

Module keyedScale.
Record t := mk { Key : string; Scale : Z }.
End keyedScale.

(** Sort longer strings before shorter strings. *)
Definition longLess (a b : string) : bool :=
  let la := String.length a in
  let lb := String.length b in
  if (la =? lb)%nat then String.ltb a b else (lb <? la)%nat.

(** [sort.Sort] with the given [Less].  The keys of a table are pairwise
    distinct when it is sorted and [longLess] orders distinct strings
    totally, so the sorted slice does not depend on the algorithm the
    library runs; insertion sort stands for it. *)
Fixpoint insertBy {A : Type} (less : A -> A -> bool) (x : A) (l : list A) : list A :=
  match l with
  | [] => [x]
  | y :: l' => if less y x then y :: insertBy less x l' else x :: l
  end.

Definition Sort {A : Type} (less : A -> A -> bool) (l : list A) : list A :=
  foldr (insertBy less) [] l.

(** The loop over [seen] of [makeScales] and [makeUnits]: the first key
    that was seen before. *)
Fixpoint duplicateKey (seen : gset string) (keys : list string) : option string :=
  match keys with
  | [] => None
  | k :: keys' =>
    if bool_decide (k ∈ seen) then Some k
    else duplicateKey ({[ k ]} ∪ seen) keys'
  end.

Definition scalesLiteral : list keyedScale.t :=
  [ keyedScale.mk "da" 1; keyedScale.mk "h" 2; keyedScale.mk "k" 3;
    keyedScale.mk "M" 6; keyedScale.mk "G" 9; keyedScale.mk "T" 12;
    keyedScale.mk "P" 15; keyedScale.mk "E" 18; keyedScale.mk "Z" 21;
    keyedScale.mk "Y" 24;
    keyedScale.mk "d" (-1); keyedScale.mk "c" (-2); keyedScale.mk "m" (-3);
    keyedScale.mk "μ" (-6); keyedScale.mk "u" (-6); keyedScale.mk "n" (-9);
    keyedScale.mk "p" (-12); keyedScale.mk "f" (-15); keyedScale.mk "a" (-18);
    keyedScale.mk "z" (-21); keyedScale.mk "y" (-24) ].

(** [makeScales]: the duplicate key on failure, the sorted table on
    success. *)
Definition makeScales : string + list keyedScale.t :=
  let r := scalesLiteral in
  match duplicateKey ∅ (map keyedScale.Key r) with
  | Some k => inl k
  | None => inr (Sort (fun a b => longLess (keyedScale.Key a) (keyedScale.Key b)) r)
  end.

(** [mkpoint]: the point with the given exponents, zero elsewhere. *)
Definition mkpoint (m : list (nat * uComponent)) : uPoint :=
  foldl (fun a de => <[fst de := snd de]> a) zeroPoint m.

Definition unitsLiteral : list keyedUnit.t :=
  let u key dim dimless scale :=
    keyedUnit.mk key (mkPUnit (mkpoint dim) (map mkpoint dimless) scale) in
  [ u "m" [(lengthDim, 1)] [] 0;
    u "g" [(massDim, 1)] [] 0;
    u "s" [(timeDim, 1)] [] 0;
    u "A" [(currentDim, 1)] [] 0;
    u "K" [(temperatureDim, 1)] [] 0;
    u "mol" [(amountDim, 1)] [] 0;
    u "cd" [(intensityDim, 1)] [] 0;
    u "rad" [] [[(lengthDim, 1)]; [(lengthDim, -1)]] 0;
    u "sr" [] [[(lengthDim, 2)]; [(lengthDim, -2)]] 0;
    u "Hz" [(timeDim, -1)] [] 0;
    u "N" [(massDim, 1); (timeDim, -2); (lengthDim, 1)] [] 3;
    u "Pa" [(massDim, 1); (lengthDim, -1); (timeDim, -2)] [] 3;
    u "J" [(massDim, 1); (lengthDim, 2); (timeDim, -2)] [] 3;
    u "W" [(massDim, 1); (lengthDim, 2); (timeDim, -3)] [] 3;
    u "C" [(timeDim, 1); (currentDim, 1)] [] 0;
    u "V" [(massDim, 1); (lengthDim, 2); (timeDim, -3); (currentDim, -1)] [] 3;
    u "F" [(massDim, -1); (lengthDim, -2); (timeDim, 4); (currentDim, 2)] [] (-3);
    u "Ω" [(massDim, 1); (lengthDim, 2); (timeDim, -3); (currentDim, -2)] [] 3;
    u "S" [(massDim, -1); (lengthDim, -2); (timeDim, 3); (currentDim, 2)] [] (-3);
    u "Wb" [(massDim, 1); (lengthDim, 2); (timeDim, -2); (currentDim, -1)] [] 3;
    u "T" [(massDim, 1); (timeDim, -2); (currentDim, -1)] [] 3;
    u "H" [(massDim, 1); (lengthDim, 2); (timeDim, -2); (currentDim, -2)] [] 3;
    u "°C" [(temperatureCDim, 1)] [] 0;
    u "℃" [(temperatureCDim, 1)] [] 0;
    u "lm" [(intensityDim, 1)] [[(lengthDim, 2)]; [(lengthDim, -2)]] 0;
    u "lx" [(lengthDim, -2); (intensityDim, 1)] [] 0;
    u "Bq" [(timeDim, -1)] [] 0;
    u "Gy" [(lengthDim, 2); (timeDim, -2)] [] 0;
    u "Sv" [(lengthDim, 2); (timeDim, -2)] [] 0;
    u "kat" [(amountDim, 1); (timeDim, -1)] [] 0;
    u "l" [(lengthDim, 3)] [] (-3);
    u "L" [(lengthDim, 3)] [] (-3);
    u "Da" [(massDim, 1); (amountDim, -1)] [] 0 ].

Definition makeUnits : string + list keyedUnit.t :=
  let r := unitsLiteral in
  match duplicateKey ∅ (map keyedUnit.Key r) with
  | Some k => inl k
  | None => inr (Sort (fun a b => longLess (keyedUnit.Key a) (keyedUnit.Key b)) r)
  end.

(** [init]: the package-level tables; a duplicate key panics at start-up
    and leaves no table. *)
Definition defaultScales : list keyedScale.t :=
  match makeScales with inr r => r | inl _ => [] end.

Definition defaultUnits : list keyedUnit.t :=
  match makeUnits with inr r => r | inl _ => [] end.

(** ** The parser (parse.go) *)

Section Parser.
Context `{UnicodeTables}.

(** Return position of first non-space or len(data) if none and if
    whitespace was found. *)
Definition scanToNonSpace (data : list ascii) (pos : nat) (hadSpace : bool)
  : nat * bool :=
  if (length data <=? pos)%nat then (pos, hadSpace)
  else
    match IndexFunc (drop pos data) (fun r => negb (IsSpace r)) with
    | None => (length data, hadSpace || true)
    | Some idx => ((pos + idx)%nat, hadSpace || negb (idx =? 0)%nat)
    end.

(** The loop of [scanToNonDigit]; [idx] advances by the width of a rune,
    at least one byte, at every iteration, so [length data] iterations
    reach the end of [data]. *)
Fixpoint scanDigits (fuel : nat) (data : list ascii) (pos idx : nat) : nat :=
  match fuel with
  | O => idx
  | S fuel =>
    if (idx <? length data)%nat then
      let '(v, w) := DecodeRune (drop idx data) in
      if (idx =? pos)%nat && (v =? 0x2D) then scanDigits fuel data pos (idx + w)%nat
      else if negb (IsDigit v) then idx
      else scanDigits fuel data pos (idx + w)%nat
    else idx
  end.

(** Return position of first non-digit or len(data) if none. *)
Definition scanToNonDigit (data : list ascii) (pos : nat) : nat :=
  scanDigits (length data) data pos pos.

Definition parseRune (data : list ascii) (pos : nat) (r : Z) : res () :=
  if (length data <=? pos)%nat then Err pos (makeRuneNotFoundError r)
  else
    let '(dr, width) := DecodeRune (drop pos data) in
    if negb (dr =? r) then Err pos (makeRuneNotFoundError r)
    else Ok () (pos + width)%nat.

(** [strings.HasPrefix(str, key)] *)
Definition HasPrefix (str key : string) : bool := String.prefix key str.

Definition parsePrefix (data : list ascii) (pos : nat) : res Z :=
  if (length data <=? pos)%nat then Err pos prefixNotFound
  else
    let str := string_of_list_ascii (drop pos data) in
    match find (fun ks => HasPrefix str (keyedScale.Key ks)) defaultScales with
    | Some ks => Ok (keyedScale.Scale ks) (pos + String.length (keyedScale.Key ks))%nat
    | None => Err pos prefixNotFound
    end.

Definition parseSymbol (data : list ascii) (pos : nat) : res pUnit :=
  if (length data <=? pos)%nat then Err pos prefixNotFound
  else
    let str := string_of_list_ascii (drop pos data) in
    match find (fun ku => HasPrefix str (keyedUnit.Key ku)) defaultUnits with
    | Some ku => Ok (keyedUnit.Unit ku) (pos + String.length (keyedUnit.Key ku))%nat
    | None => Err pos symbolNotFound
    end.

(** [parsePrefix] returns scale 0 and the unchanged position with its
    error, and [parseTerm] reads both without looking at the error. *)
Definition parseTerm (data : list ascii) (startPos : nat) : res pUnit :=
  (* Term := Prefix? *)
  let '(scale, pos) :=
    match parsePrefix data startPos with
    | Ok scale pos => (scale, pos)
    | Err pos _ => (0, pos)
    end in
  (* ... Symbol *)
  match parseSymbol data pos with
  | Ok unit pos => Ok {| Dim := Dim unit; DimLess := []; Scale := scale |} pos
  | Err _ _ =>
    (* Some symbols are substrings of prefixes, so try Term := Symbol *)
    match parseSymbol data startPos with
    | Err pos err => Err pos err
    | Ok unit pos => Ok {| Dim := Dim unit; DimLess := []; Scale := 0 |} pos
    end
  end.

Definition parseExponent (data : list ascii) (pos : nat) : res uComponent :=
  match parseRune data pos 0x5E with
  | Err pos err => Err pos err
  | Ok _ pos =>
    (* Scan to end of integer string *)
    let end_ := scanToNonDigit data pos in
    match ParseInt8 (take (end_ - pos) (drop pos data)) with
    | inl err => Err pos err
    | inr i => Ok (wrap 8 i) end_
    end
  end.

(** The first half of [parseUnit]: leading white space, a parenthesised
    unit or a term, and an optional exponent; [self] is the recursive call.
    It yields the unit, the position and [hadSpace]. *)
Definition parseOperand (self : list ascii -> nat -> option (res pUnit))
    (data : list ascii) (pos : nat) : option (res (pUnit * bool)) :=
  let '(pos, _) := scanToNonSpace data pos false in
  (* Unit := ( Unit ) | Term *)
  let first :=
    match parseRune data pos 0x28 with
    | Ok _ pos =>
      match self data pos with
      | None => None
      | Some (Err pos err) => Some (Err pos err)
      | Some (Ok unit pos) =>
        match parseRune data pos 0x29 with
        | Err pos err => Some (Err pos err)
        | Ok _ pos => Some (Ok unit pos)
        end
      end
    | Err pos _ => Some (parseTerm data pos)
    end in
  match first with
  | None => None
  | Some (Err pos err) => Some (Err pos err)
  | Some (Ok unit pos) =>
    let '(pos, hadSpace) := scanToNonSpace data pos false in
    (* Unit := Unit ^ Integer *)
    match parseExponent data pos with
    | Ok exp pos =>
      let '(pos, hadSpace) := scanToNonSpace data pos false in
      Some (Ok (PUnit.Exp unit exp, hadSpace) pos)
    | Err pos _ => Some (Ok (unit, hadSpace) pos)
    end
  end.

(** The second half of [parseUnit]: at most one of [/ Unit], [· Unit] and
    [" " Unit] after the operand [unit]. *)
Definition parseCombinator (self : list ascii -> nat -> option (res pUnit))
    (data : list ascii) (unit : pUnit) (hadSpace : bool) (pos : nat)
  : option (res pUnit) :=
  match parseRune data pos 0x2F with
  | Ok _ pos =>
    (* ... | Unit / Unit *)
    match self data pos with
    | None => None
    | Some (Err pos err) => Some (Err pos err)
    | Some (Ok nextUnit pos) =>
      Some (Ok (PUnit.Multiply unit (PUnit.Reciprocal nextUnit)) pos)
    end
  | Err pos _ =>
    match parseRune data pos 0xB7 with
    | Ok _ pos =>
      (* ... | Unit · Unit *)
      match self data pos with
      | None => None
      | Some (Err pos err) => Some (Err pos err)
      | Some (Ok nextUnit pos) => Some (Ok (PUnit.Multiply unit nextUnit) pos)
      end
    | Err pos _ =>
      if hadSpace then
        (* ... | Unit " " Unit *)
        match self data pos with
        | None => None
        | Some (Ok nextUnit pos) => Some (Ok (PUnit.Multiply unit nextUnit) pos)
        | Some (Err pos _) =>
          (* Unit parse is done; let caller decide if this is an error *)
          Some (Ok unit pos)
        end
      else Some (Ok unit pos)
    end
  end.

Definition parseUnitBody (self : list ascii -> nat -> option (res pUnit))
    (data : list ascii) (pos : nat) : option (res pUnit) :=
  match parseOperand self data pos with
  | None => None
  | Some (Err pos err) => Some (Err pos err)
  | Some (Ok (unit, hadSpace) pos) => parseCombinator self data unit hadSpace pos
  end.

(** [parseUnit] with a bound on the depth of its recursion; [None] when the
    bound is hit. *)
Fixpoint parseUnitFuel (fuel : nat) (data : list ascii) (pos : nat)
  : option (res pUnit) :=
  match fuel with
  | O => None
  | S fuel => parseUnitBody (parseUnitFuel fuel) data pos
  end.

(** Every recursive call of [parseUnit] is at a later position, so a depth
    of [len(data) - pos + 1] is never exceeded ([parseUnitFuel_enough]);
    the default of the [match] is not reached. *)
Definition parseUnit (data : list ascii) (pos : nat) : res pUnit :=
  match parseUnitFuel (S (length data - pos)) data pos with
  | Some r => r
  | None => Err pos unparsedText
  end.

End Parser.

(** ** Measurements (units.go) *)

(** Parsed measurement. *)
Record measure := mkMeasure {
  Value : float64;  (* Quantity value *)
  Unit : string;    (* Given unit *)
  unit_ : pUnit     (* Parsed unit (field [unit]) *)
}.

(** The code shares [*measure] values and writes through them, so they are
    cells of a heap; a pointer is the index of its cell and an allocation
    appends a cell. *)
Abbreviation loc := nat.
Abbreviation heap := (list measure).

(** A value of the interface [Measurement]: nil, a [*measure], or a value
    of another implementation (such as [js.Measurement]), given by what its
    two accessors return. *)
Inductive Measurement :=
  | nilMeasurement
  | ptrMeasure (l : loc)
  | otherMeasurement (quantity : float64) (unitText : string).

(** Computations on the heap; [None] is a panic (a nil or failed
    dereference or type assertion). *)
Definition M (A : Type) : Type := heap -> option (A * heap).

Definition ret {A : Type} (a : A) : M A := fun h => Some (a, h).
Definition bind {A B : Type} (c : M A) (k : A -> M B) : M B :=
  fun h => match c h with Some (a, h') => k a h' | None => None end.
Definition panic {A : Type} : M A := fun _ => None.

Notation "'do' x <- c ; k" := (bind c (fun x => k))
  (at level 10, x pattern, c at level 100, k at level 200).

(** [&measure{...}] *)
Definition alloc (m : measure) : M loc := fun h => Some (length h, h ++ [m]).
(** [*p] *)
Definition load (l : loc) : M measure :=
  fun h => match h !! l with Some m => Some (m, h) | None => None end.
(** [*p = m] *)
Definition store (l : loc) (m : measure) : M () :=
  fun h => match h !! l with Some _ => Some ((), <[l := m]> h) | None => None end.

(** [m.Quantity()] and [m.MeasurementUnit()] *)
Definition Quantity (m : Measurement) : M float64 :=
  match m with
  | nilMeasurement => panic
  | ptrMeasure l => do a <- load l; ret (Value a)
  | otherMeasurement q _ => ret q
  end.

Definition MeasurementUnit (m : Measurement) : M string :=
  match m with
  | nilMeasurement => panic
  | ptrMeasure l => do a <- load l; ret (Unit a)
  | otherMeasurement _ u => ret u
  end.

(** The package variables [theZero] and [zeroValue]; [init] allocates the
    cell of [zeroValue] first. *)
Definition theZero : pUnit := {| Dim := zeroPoint; DimLess := []; Scale := 0 |}.

Definition zeroMeasure : measure :=
  {| Value := f64_zero; Unit := ""; unit_ := {| Dim := zeroPoint; DimLess := []; Scale := 0 |} |}.

Definition zeroValue : loc := 0%nat.

Definition initHeap : heap := [zeroMeasure].

Section Measurements.
Context `{UnicodeTables}.

(** Parse a quantity and unit into a measurement. *)
Definition Parse (quantity : float64) (unitString : string)
  : M (Measurement * option error) :=
  let data := list_ascii_of_string unitString in
  if (length data =? 0)%nat then
    do l <- alloc {| Value := f64_zero; Unit := ""; unit_ := theZero |};
    ret (ptrMeasure l, None)
  else
    match parseUnit data 0 with
    | Err pos err => ret (nilMeasurement, Some (makeParseError data pos err))
    | Ok unit pos =>
      let '(pos, _) := scanToNonSpace data pos false in
      if negb (pos =? length data)%nat then
        ret (nilMeasurement, Some (makeParseError data pos unparsedText))
      else
        do l <- alloc {| Value := quantity; Unit := unitString; unit_ := unit |};
        ret (ptrMeasure l, None)
    end.

(** [m.( *measure)] without the [ok] result. *)
Definition assertMeasure (m : Measurement) : M loc :=
  match m with ptrMeasure l => ret l | _ => panic end.

(** [parse]: the measurement itself when it is a [*measure], a parse of
    its quantity and unit text otherwise. *)
Definition parse (m : Measurement) : M (option loc * option error) :=
  match m with
  | ptrMeasure l => ret (Some l, None)
  | _ =>
    do q <- Quantity m;
    do u <- MeasurementUnit m;
    do r <- Parse q u;
    match r with
    | (_, Some err) => ret (None, Some err)
    | (m, None) => do l <- assertMeasure m; ret (Some l, None)
    end
  end.

(** Returns the reciprocal of a measurement. *)
Definition Reciprocal (mm : Measurement) : M (Measurement * option error) :=
  do r <- parse mm;
  match r with
  | (_, Some err) => ret (ptrMeasure zeroValue, Some err)
  | (None, None) => panic
  | (Some l, None) =>
    do m <- load l;
    if f64_eqb (Value m) f64_zero then ret (ptrMeasure zeroValue, Some divideByZero)
    else
      do _ <- store l {| Value := f64_div f64_one (Value m); Unit := Unit m;
                         unit_ := unit_ m |};
      do m <- load l;
      do _ <- store l {| Value := Value m; Unit := Unit m;
                         unit_ := PUnit.Reciprocal (unit_ m) |};
      do m <- load l;
      do _ <- (if negb (String.length (Unit m) =? 0)%nat then
                 store l {| Value := Value m; Unit := "(" ++ Unit m ++ ")^-1";
                            unit_ := unit_ m |}
               else ret ());
      ret (ptrMeasure l, None)
  end.

(** The loop of [New] over [ms], with its variables [value] and [unit];
    an error leaves the loop. *)
Fixpoint newLoop (ms : list Measurement) (value : float64) (unit : pUnit)
  : M (error + float64 * pUnit) :=
  match ms with
  | [] => ret (inr (value, unit))
  | mm :: ms' =>
    do r <- parse mm;
    match r with
    | (_, Some err) => ret (inl err)
    | (None, None) => panic
    | (Some l, None) =>
      do m <- load l;
      newLoop ms' (f64_mul value (Value m)) (PUnit.Multiply unit (unit_ m))
    end
  end.

(** Convert one measurement to another dimension or scale by applying
    conversion factors. *)
Definition New (unitString : string) (m0 : Measurement) (ms : list Measurement)
  : M (Measurement * option error) :=
  do r <- parse m0;
  match r with
  | (_, Some err) => ret (ptrMeasure zeroValue, Some err)
  | (None, None) => panic
  | (Some l, None) =>
    do m <- load l;
    do r <- newLoop ms (Value m) (unit_ m);
    match r with
    | inl err => ret (ptrMeasure zeroValue, Some err)
    | inr (value, unit) =>
      do t <- Parse f64_zero unitString;
      match t with
      | (_, Some err) => ret (ptrMeasure zeroValue, Some err)
      | (targetM, None) =>
        do tl <- assertMeasure targetM;
        do target <- load tl;
        if negb (uPoint_eqb (PUnit.product (unit_ target)) (PUnit.product unit)) then
          ret (ptrMeasure zeroValue, Some wrongDimension)
        else
          let scaleDiff := int_sub (Scale unit) (Scale (unit_ target)) in
          let value := f64_mul value (Pow10 scaleDiff) in
          if f64_eqb value f64_zero then ret (ptrMeasure zeroValue, Some underflow)
          else if IsInf value then ret (ptrMeasure zeroValue, Some overflow)
          else
            do l <- alloc {| Value := value; Unit := unitString; unit_ := unit |};
            ret (ptrMeasure l, None)
      end
    end
  end.

(** Convenience function that panics if measurement operation fails; it
    takes the two results of the operation. *)
Definition Must (c : M (Measurement * option error)) : M Measurement :=
  do r <- c;
  match r with
  | (m, None) => ret m
  | (_, Some _) => panic
  end.

End Measurements.

(** ** The JavaScript bindings (js/js.go)

    The methods of [ulib] hand values of [js.Measurement] to the package and
    return a [Measurement] value and the wrapped error; [js.MakeWrapper] is
    the identity on the data. *)
Module ulib.

(** The interface [Measurement] of the package, before the struct of the
    same name of js.go. *)
Abbreviation unitsMeasurement := Measurement.

(** Measurement *)
Record Measurement := mk {
  Value : float64;
  Unit : string
}.

(** The value [a] as a [Measurement] of the package: its methods
    [Quantity] and [MeasurementUnit] return the two fields. *)
Definition cast (a : Measurement) : unitsMeasurement :=
  otherMeasurement (Value a) (Unit a).

(** An error of js.go: the one [New] makes, or one of the package. *)
Inductive jsError :=
  | notEnoughArguments
  | unitsError (err : error).

Definition wrapError (err : option error) : option jsError :=
  match err with
  | None => None
  | Some err => Some (unitsError err)
  end.

Section Bindings.
Context `{UnicodeTables}.

Definition New (unitString : string) (ms : list Measurement)
  : M (Measurement * option jsError) :=
  if (length ms =? 0)%nat then
    ret ({| Value := f64_zero; Unit := "" |}, Some notEnoughArguments)
  else
    let casts := foldl (fun casts v => casts ++ [cast v]) [] ms in
    match casts with
    | [] => panic
    | c0 :: rest =>
      do r <- New unitString c0 rest;
      let '(m, err) := r in
      do q <- Quantity m;
      do u <- MeasurementUnit m;
      ret ({| Value := q; Unit := u |}, wrapError err)
    end.

Definition Parse (quantity : float64) (unitString : string)
  : M (Measurement * option jsError) :=
  do r <- Parse quantity unitString;
  let '(m, err) := r in
  do q <- Quantity m;
  do u <- MeasurementUnit m;
  ret ({| Value := q; Unit := u |}, wrapError err).

End Bindings.

End ulib.

(** An instance of the range tables above Latin-1: the decimal digits
    (category Nd) and the white space characters of Unicode 9, in all
    planes.  The examples below are evaluated with it. *)
Definition inRanges (ranges : list (Z * Z)) (r : Z) : bool :=
  existsb (fun lh => (fst lh <=? r) && (r <=? snd lh)) ranges.

#[global] Instance unicode9 : UnicodeTables := {|
  Digit := inRanges
    [ (0x0660, 0x0669); (0x06F0, 0x06F9); (0x07C0, 0x07C9); (0x0966, 0x096F);
      (0x09E6, 0x09EF); (0x0A66, 0x0A6F); (0x0AE6, 0x0AEF); (0x0B66, 0x0B6F);
      (0x0BE6, 0x0BEF); (0x0C66, 0x0C6F); (0x0CE6, 0x0CEF); (0x0D66, 0x0D6F);
      (0x0DE6, 0x0DEF); (0x0E50, 0x0E59); (0x0ED0, 0x0ED9); (0x0F20, 0x0F29);
      (0x1040, 0x1049); (0x1090, 0x1099); (0x17E0, 0x17E9); (0x1810, 0x1819);
      (0x1946, 0x194F); (0x19D0, 0x19D9); (0x1A80, 0x1A89); (0x1A90, 0x1A99);
      (0x1B50, 0x1B59); (0x1BB0, 0x1BB9); (0x1C40, 0x1C49); (0x1C50, 0x1C59);
      (0xA620, 0xA629); (0xA8D0, 0xA8D9); (0xA900, 0xA909); (0xA9D0, 0xA9D9);
      (0xA9F0, 0xA9F9); (0xAA50, 0xAA59); (0xABF0, 0xABF9); (0xFF10, 0xFF19);
      (0x104A0, 0x104A9); (0x11066, 0x1106F); (0x110F0, 0x110F9);
      (0x11136, 0x1113F); (0x111D0, 0x111D9); (0x112F0, 0x112F9);
      (0x11450, 0x11459); (0x114D0, 0x114D9); (0x11650, 0x11659);
      (0x116C0, 0x116C9); (0x11730, 0x11739); (0x118E0, 0x118E9);
      (0x11C50, 0x11C59); (0x16A60, 0x16A69); (0x16B50, 0x16B59);
      (0x1D7CE, 0x1D7FF); (0x1E950, 0x1E959) ];
  White_Space := inRanges
    [ (0x1680, 0x1680); (0x2000, 0x200A); (0x2028, 0x2029); (0x202F, 0x202F);
      (0x205F, 0x205F); (0x3000, 0x3000) ]
|}.

(** ** Definitions used to state the properties *)

(** The loop [rangeLoop] from index [k] on, by recursion on the elements
    that remain. *)
Fixpoint loopFrom {A S : Type} (body : nat -> A -> S -> S) (k : nat) (l : list A) (s : S) : S :=
  match l with
  | [] => s
  | v :: l' => loopFrom body (Datatypes.S k) l' (body k v s)
  end.

(** [Product(a)] as the specification words it, from the fields of the
    unit: component [i] is the sum of component [i] of the dimension vector
    and of every dimensionless factor, as an [int8]. *)
Definition componentSum (factors : list uPoint) (i : nat) : Z :=
  foldr (fun d s => nth i d 0 + s) 0 factors.

Definition specProduct (a : pUnit) : uPoint :=
  map (fun i => wrap 8 (componentSum (DimLess a ++ [Dim a]) i)) (seq 0 numDim).

(** Every element comes before all later ones in the order [less]. *)
Fixpoint sortedb {A : Type} (less : A -> A -> bool) (l : list A) : bool :=
  match l with
  | [] => true
  | x :: l' => forallb (less x) l' && sortedb less l'
  end.

(** The order of the two tables. *)
Definition scaleLess (a b : keyedScale.t) : Prop :=
  longLess (keyedScale.Key a) (keyedScale.Key b) = true.
Definition unitLess (a b : keyedUnit.t) : Prop :=
  longLess (keyedUnit.Key a) (keyedUnit.Key b) = true.

(** The position a parsing function returns. *)
Definition res_pos {A : Type} (r : res A) : nat :=
  match r with Ok _ p => p | Err p _ => p end.

(** The recursive call of [parseUnit] never returns an earlier position. *)
Definition monotone (self : list ascii -> nat -> option (res pUnit)) (data : list ascii) : Prop :=
  forall p r, self data p = Some r -> (p <= res_pos r)%nat.

(** The recursive call of [parseUnit] stays within the input. *)
Definition withinInput (self : list ascii -> nat -> option (res pUnit)) (data : list ascii)
  : Prop :=
  forall p r, (p <= length data)%nat -> self data p = Some r -> (res_pos r <= length data)%nat.

(** A unit in the form the operations of [pUnit] produce: no dimensionless
    factors, and the components and the scale within their types. *)
Definition normalUnit (u : pUnit) : Prop :=
  DimLess u = [] /\ length (Dim u) = numDim
  /\ Forall (in_range 8) (Dim u) /\ in_range 64 (Scale u).

Section Outcomes.
Context `{UnicodeTables}.

(** The measure that [Parse quantity unitString] allocates, or its error. *)
Definition parseMeasure (quantity : float64) (unitString : string) : error + measure :=
  let data := list_ascii_of_string unitString in
  if (length data =? 0)%nat then
    inr {| Value := f64_zero; Unit := ""; unit_ := theZero |}
  else
    match parseUnit data 0 with
    | Err pos err => inl (makeParseError data pos err)
    | Ok unit pos =>
      let '(pos, _) := scanToNonSpace data pos false in
      if negb (pos =? length data)%nat then inl (makeParseError data pos unparsedText)
      else inr {| Value := quantity; Unit := unitString; unit_ := unit |}
    end.

(** The measure that [parse m] resolves [m] to in the heap [h], or its
    error; nothing for nil and for a pointer that is not in the heap. *)
Definition resolve (h : heap) (m : Measurement) : option (error + measure) :=
  match m with
  | nilMeasurement => None
  | ptrMeasure l => inr <$> h !! l
  | otherMeasurement q u => Some (parseMeasure q u)
  end.

(** A well-formed argument: not nil and, if a pointer, one into the heap. *)
Definition validM (h : heap) (m : Measurement) : Prop := is_Some (resolve h m).

(** The measure that [Reciprocal] leaves for the measure [x]. *)
Definition recipMeasure (x : measure) : measure :=
  {| Value := f64_div f64_one (Value x);
     Unit := if negb (String.length (Unit x) =? 0)%nat then "(" ++ Unit x ++ ")^-1" else Unit x;
     unit_ := PUnit.Reciprocal (unit_ x) |}.

(** The running product and unit of [New] after the measurements [ms], or
    the first error of resolving them. *)
Fixpoint accumulate (h : heap) (ms : list Measurement) (value : float64) (unit : pUnit)
  : option (error + float64 * pUnit) :=
  match ms with
  | [] => Some (inr (value, unit))
  | mm :: ms' =>
    match resolve h mm with
    | None => None
    | Some (inl err) => Some (inl err)
    | Some (inr m) =>
      accumulate h ms' (f64_mul value (Value m)) (PUnit.Multiply unit (unit_ m))
    end
  end.

(** The checks of [New] on the accumulated [value] and [unit] against the
    measure [target] of the target unit text. *)
Definition convert (unitString : string) (value : float64) (unit : pUnit) (target : measure)
  : error + measure :=
  if negb (uPoint_eqb (PUnit.product (unit_ target)) (PUnit.product unit)) then
    inl wrongDimension
  else
    let scaleDiff := int_sub (Scale unit) (Scale (unit_ target)) in
    let value := f64_mul value (Pow10 scaleDiff) in
    if f64_eqb value f64_zero then inl underflow
    else if IsInf value then inl overflow
    else inr {| Value := value; Unit := unitString; unit_ := unit |}.

(** The measure that [New] allocates, or its error. *)
Definition newOutcome (h : heap) (unitString : string) (m0 : Measurement)
    (ms : list Measurement) : option (error + measure) :=
  match resolve h m0 with
  | None => None
  | Some (inl err) => Some (inl err)
  | Some (inr m) =>
    match accumulate h ms (Value m) (unit_ m) with
    | None => None
    | Some (inl err) => Some (inl err)
    | Some (inr (value, unit)) =>
      match parseMeasure f64_zero unitString with
      | inl err => Some (inl err)
      | inr target => Some (convert unitString value unit target)
      end
    end
  end.

End Outcomes.

Section Statements.
Context `{UnicodeTables}.

(** An argument whose resolution keeps its own quantity and unit text: a
    [*measure], or a value of another implementation with a unit text (for
    the empty unit text [Parse] does not store the quantity). *)
Definition unitTextGiven (m : Measurement) : Prop :=
  match m with
  | otherMeasurement _ u => u <> ""%string
  | _ => True
  end.

(** [Reciprocal m] as the specification describes it, for [m] with the
    quantity [q] and the unit text [u]: divide-by-zero exactly when [q] is
    zero, and otherwise a measurement with the quantity [1/q], the
    reciprocal of the parsed unit of [m] and the wrapped unit text. *)
Definition reciprocalAsSpecified (h : heap) (m : Measurement) : Prop :=
  forall q u,
    Quantity m h = Some (q, h) ->
    MeasurementUnit m h = Some (u, h) ->
    if f64_eqb q f64_zero then
      exists r h', Reciprocal m h = Some ((r, Some divideByZero), h')
    else
      exists l h' x,
        Reciprocal m h = Some ((ptrMeasure l, None), h')
        /\ resolve h m = Some (inr x)
        /\ h' !! l =
           Some {| Value := f64_div f64_one q;
                   Unit := if (String.length u =? 0)%nat then "" else "(" ++ u ++ ")^-1";
                   unit_ := PUnit.Reciprocal (unit_ x) |}.

(** [Reciprocal (Reciprocal m)] as the specification describes it: for a
    nonzero quantity it succeeds with the quantity of [m]. *)
Definition doubleReciprocalRestores (h : heap) (m : Measurement) : Prop :=
  forall q,
    Quantity m h = Some (q, h) ->
    f64_eqb q f64_zero = false ->
    exists r1 h1 r2 h2 q2,
      Reciprocal m h = Some ((r1, None), h1)
      /\ Reciprocal r1 h1 = Some ((r2, None), h2)
      /\ Quantity r2 h2 = Some (q2, h2)
      /\ f64_eqb q2 q = true.

(** [New] reaches its scaling step with the accumulated [value] and [unit]
    and the measure [target] of the target text: the arguments resolve, the
    target text parses and the dimensions agree. *)
Definition reachesScaling (h : heap) (unitString : string) (m0 : Measurement)
    (ms : list Measurement) (value : float64) (unit : pUnit) (target : measure) : Prop :=
  exists x0,
    resolve h m0 = Some (inr x0)
    /\ accumulate h ms (Value x0) (unit_ x0) = Some (inr (value, unit))
    /\ parseMeasure f64_zero unitString = inr target
    /\ PUnit.product (unit_ target) = PUnit.product unit.

(** The product of [New] after the scaling step. *)
Definition scaled (value : float64) (unit : pUnit) (target : measure) : float64 :=
  f64_mul value (Pow10 (int_sub (Scale unit) (Scale (unit_ target)))).

(** The underflow error of [New] as the specification describes it:
    reported exactly when a nonzero product becomes zero by the scaling. *)
Definition underflowAsSpecified (h : heap) (unitString : string) (m0 : Measurement)
    (ms : list Measurement) : Prop :=
  (exists r h', New unitString m0 ms h = Some ((r, Some underflow), h'))
  <-> (exists value unit target,
         reachesScaling h unitString m0 ms value unit target
         /\ f64_eqb value f64_zero = false
         /\ f64_eqb (scaled value unit target) f64_zero = true).

End Statements.

(** What a test reads from the two results of an operation: the error, and
    the unit text and the quantity of the measurement. *)
Definition observe `{UnicodeTables} (c : M (Measurement * option error))
  : option (option error * string * float64) :=
  fst <$> (do r <- c;
           do u <- MeasurementUnit (fst r);
           do q <- Quantity (fst r);
           ret (snd r, u, q)) initHeap.

(** The dimension and the scale that [Parse] resolves a unit text to. *)
Definition parsedUnit `{UnicodeTables} (unitString : string) : option (uPoint * Z) :=
  match parseMeasure f64_one unitString with
  | inr m => Some (PUnit.product (unit_ m), Scale (unit_ m))
  | inl _ => None
  end.

(** * Properties *)

(** ** Loops over arrays *)

Lemma foldl_imap_loopFrom {A S : Type} (body : nat -> A -> S -> S)
    (l : list A) (k : nat) (s : S) :
  foldl (fun s iv => body (fst iv) (snd iv) s) s (imap (fun i => pair (k + i)%nat) l)
  = loopFrom body k l s.
Proof.
  revert k s. induction l as [|v l IH]; intros k s; [reflexivity|].
  cbn. rewrite Nat.add_0_r. rewrite <- IH. f_equal.
  apply imap_ext. intros i x _. cbn. f_equal. lia.
Qed.

Lemma rangeLoop_loopFrom {A S : Type} (body : nat -> A -> S -> S) (l : list A) (s : S) :
  rangeLoop body l s = loopFrom body 0 l s.
Proof. unfold rangeLoop. rewrite <- foldl_imap_loopFrom. reflexivity. Qed.

(** A loop that stores [g s[idx] v] at [idx] is a [zip_with]. *)
Lemma loopFrom_update (g : Z -> Z -> Z) (l : list Z) :
  forall (k : nat) (s : list Z),
    length s = (k + length l)%nat ->
    loopFrom (fun idx v r => <[idx := g (nth idx r 0) v]> r) k l s
    = take k s ++ zip_with g (drop k s) l.
Proof.
  induction l as [|v l IH]; intros k s Hlen; cbn [loopFrom].
  - cbn in Hlen. rewrite Nat.add_0_r in Hlen.
    rewrite drop_ge by lia. rewrite take_ge by lia. cbn. now rewrite app_nil_r.
  - cbn in Hlen.
    destruct (lookup_lt_is_Some_2 s k ltac:(lia)) as [x Hx].
    rewrite IH by (rewrite length_insert; lia).
    rewrite (nth_lookup_Some _ _ _ _ Hx).
    rewrite (drop_S _ _ _ Hx). cbn [zip_with].
    rewrite drop_insert_lt by lia.
    rewrite (take_S_r (<[k:=g x v]> s) k (g x v)).
    2:{ apply list_lookup_insert_eq. lia. }
    rewrite take_insert_ge by lia.
    rewrite <- app_assoc. reflexivity.
Qed.

Lemma rangeLoop_zip (g : Z -> Z -> Z) (r l : list Z) :
  length r = length l ->
  rangeLoop (fun idx v r => <[idx := g (nth idx r 0) v]> r) l r = zip_with g r l.
Proof.
  intros Hlen. rewrite rangeLoop_loopFrom, loopFrom_update by (cbn; lia).
  reflexivity.
Qed.

Lemma loopFrom_length (body : nat -> Z -> list Z -> list Z) :
  (forall idx v r, length (body idx v r) = length r) ->
  forall l k s, length (loopFrom body k l s) = length s.
Proof.
  intros Hbody l. induction l as [|v l IH]; intros k s; cbn; [reflexivity|].
  now rewrite IH, Hbody.
Qed.

(** A loop that stores [g v] at [idx] for every element of the array it
    ranges over is a [map]. *)
Lemma loopFrom_set (g : Z -> Z) (l : list Z) :
  forall (k : nat) (s : list Z),
    length s = (k + length l)%nat ->
    loopFrom (fun idx v r => <[idx := g v]> r) k l s = take k s ++ map g l.
Proof.
  induction l as [|v l IH]; intros k s Hlen; cbn [loopFrom].
  - cbn in Hlen. rewrite take_ge by lia. cbn. now rewrite app_nil_r.
  - cbn in Hlen. rewrite IH by (rewrite length_insert; lia).
    rewrite (take_S_r (<[k:=g v]> s) k (g v)).
    2:{ apply list_lookup_insert_eq. lia. }
    rewrite take_insert_ge by lia.
    rewrite <- app_assoc. reflexivity.
Qed.

Lemma rangeLoop_map (g : Z -> Z) (r : list Z) :
  rangeLoop (fun idx v r => <[idx := g v]> r) r r = map g r.
Proof.
  rewrite rangeLoop_loopFrom, loopFrom_set by (cbn; lia). reflexivity.
Qed.

Lemma addPoint_length (r d : uPoint) : length (PUnit.addPoint r d) = length r.
Proof.
  unfold PUnit.addPoint. rewrite rangeLoop_loopFrom.
  apply loopFrom_length. intros. apply length_insert.
Qed.

Lemma product_length (a : pUnit) : length (PUnit.product a) = numDim.
Proof.
  unfold PUnit.product.
  assert (Hgen : forall l r, length (foldl PUnit.addPoint r l) = length r).
  { intros l. induction l as [|d l IH]; intros r; cbn; [reflexivity|].
    now rewrite IH, addPoint_length. }
  rewrite Hgen. reflexivity.
Qed.

Lemma addPoint_vadd (r d : uPoint) :
  length r = length d -> PUnit.addPoint r d = vadd r d.
Proof. intros Hlen. unfold PUnit.addPoint, vadd. now apply rangeLoop_zip. Qed.

(** Within the range of the type the machine operations are the integer
    ones. *)
Lemma wrap_id (w z : Z) : 0 < w -> in_range w z -> wrap w z = z.
Proof.
  intros Hw [Hlo Hhi]. unfold wrap.
  assert (Hp : 2 ^ w = 2 * 2 ^ (w - 1)).
  { replace w with (Z.succ (w - 1)) at 1 by lia. apply Z.pow_succ_r. lia. }
  rewrite Z.mod_small by lia. lia.
Qed.

Lemma wrap_in_range (w z : Z) : 0 < w -> in_range w (wrap w z).
Proof.
  intros Hw. unfold wrap, in_range.
  assert (Hp : 2 ^ w = 2 * 2 ^ (w - 1)).
  { replace w with (Z.succ (w - 1)) at 1 by lia. apply Z.pow_succ_r. lia. }
  assert (0 < 2 ^ (w - 1)) by (apply Z.pow_pos_nonneg; lia).
  pose proof (Z.mod_pos_bound (z + 2 ^ (w - 1)) (2 ^ w) ltac:(lia)). lia.
Qed.

Lemma uc_add_exact (x y : uComponent) : in_range 8 (x + y) -> uc_add x y = x + y.
Proof. apply wrap_id. lia. Qed.

Lemma uc_neg_exact (x : uComponent) : in_range 8 (- x) -> uc_neg x = - x.
Proof. apply wrap_id. lia. Qed.

Lemma uc_mul_exact (e x : uComponent) : in_range 8 (e * x) -> uc_mul e x = e * x.
Proof. apply wrap_id. lia. Qed.

Lemma int_add_exact (x y : Z) : in_range 64 (x + y) -> int_add x y = x + y.
Proof. apply wrap_id. lia. Qed.

Lemma int_neg_exact (x : Z) : in_range 64 (- x) -> int_neg x = - x.
Proof. apply wrap_id. lia. Qed.

Lemma int_mul_exact (e x : Z) : in_range 64 (e * x) -> int_mul e x = e * x.
Proof. apply wrap_id. lia. Qed.

(** [wrap] only removes a multiple of [2^w], and multiples of [2^w] do not
    change it. *)
Lemma wrap_decomp (w z : Z) : exists k, wrap w z = z + 2 ^ w * k.
Proof.
  unfold wrap. destruct (Z.eq_dec (2 ^ w) 0) as [Hz|Hnz].
  - exists 0. rewrite Hz, Z.mod_0_r. lia.
  - exists (- ((z + 2 ^ (w - 1)) / 2 ^ w)). rewrite Z.mod_eq by assumption. lia.
Qed.

Lemma wrap_add_mul (w z k : Z) : wrap w (z + 2 ^ w * k) = wrap w z.
Proof.
  unfold wrap. f_equal.
  replace (z + 2 ^ w * k + 2 ^ (w - 1)) with (z + 2 ^ (w - 1) + k * 2 ^ w) by lia.
  apply Z_mod_plus_full.
Qed.

Lemma wrap_wrap_add (w a b : Z) : wrap w (wrap w a + b) = wrap w (a + b).
Proof.
  destruct (wrap_decomp w a) as [k ->].
  replace (a + 2 ^ w * k + b) with (a + b + 2 ^ w * k) by lia. apply wrap_add_mul.
Qed.

Lemma loopFrom_Forall {A : Type} (P : Z -> Prop) (body : nat -> A -> list Z -> list Z) :
  (forall idx v r, Forall P r -> Forall P (body idx v r)) ->
  forall l k s, Forall P s -> Forall P (loopFrom body k l s).
Proof.
  intros Hbody l. induction l as [|v l IH]; intros k s Hs; cbn; [assumption|].
  apply IH. now apply Hbody.
Qed.

(** The loop of [product] over one factor, component by component: the
    components that both arrays have are added, the others are kept. *)
Lemma loopFrom_add_nth (l : list Z) :
  forall (k : nat) (s : list Z) (i : nat),
    nth i (loopFrom (fun idx v r => <[idx := uc_add (nth idx r 0) v]> r) k l s) 0
    = if (k <=? i)%nat && (i <? k + length l)%nat && (i <? length s)%nat
      then uc_add (nth i s 0) (nth (i - k) l 0) else nth i s 0.
Proof.
  induction l as [|v l IH]; intros k s i; cbn [loopFrom length].
  - destruct (Nat.leb_spec k i), (Nat.ltb_spec i (k + 0)); cbn; try reflexivity; lia.
  - rewrite IH, length_insert.
    destruct (Nat.eq_dec i k) as [->|Hne].
    + destruct (Nat.leb_spec (S k) k) as [?|_]; [lia|]. cbn [andb].
      rewrite Nat.leb_refl, Nat.sub_diag. cbn [nth].
      destruct (Nat.ltb_spec k (k + S (length l))) as [_|?]; [|lia]. cbn [andb].
      rewrite !nth_lookup.
      destruct (Nat.ltb_spec k (length s)) as [Hlt|Hge].
      * now rewrite list_lookup_insert_eq by assumption.
      * now rewrite list_insert_ge by assumption.
    + assert (Hs : nth i (<[k:=uc_add (nth k s 0) v]> s) 0 = nth i s 0).
      { rewrite !nth_lookup. now rewrite list_lookup_insert_ne by congruence. }
      rewrite Hs.
      destruct (Nat.leb_spec (S k) i) as [Hle|Hgt].
      * destruct (Nat.leb_spec k i) as [_|?]; [|lia].
        replace (i - k)%nat with (S (i - S k)) by lia. cbn [nth andb].
        destruct (Nat.ltb_spec i (S k + length l)), (Nat.ltb_spec i (k + S (length l)));
          try lia; reflexivity.
      * destruct (Nat.leb_spec k i) as [?|_]; [lia|]. reflexivity.
Qed.

Lemma addPoint_nth (r d : uPoint) (i : nat) :
  nth i (PUnit.addPoint r d) 0
  = if (i <? length d)%nat && (i <? length r)%nat
    then uc_add (nth i r 0) (nth i d 0) else nth i r 0.
Proof.
  unfold PUnit.addPoint. rewrite rangeLoop_loopFrom, loopFrom_add_nth.
  cbn [Nat.leb andb Nat.add]. now rewrite Nat.sub_0_r.
Qed.

Lemma addPoint_in_range (r d : uPoint) :
  Forall (in_range 8) r -> Forall (in_range 8) (PUnit.addPoint r d).
Proof.
  intros Hr. unfold PUnit.addPoint. rewrite rangeLoop_loopFrom.
  apply loopFrom_Forall; [|assumption].
  intros idx v r' Hr'. apply Forall_insert; [assumption|].
  apply wrap_in_range. lia.
Qed.

(** Component [i] of the sum of the factors [fs] added to [r]. *)
Lemma foldl_addPoint_nth (fs : list uPoint) :
  forall (r : uPoint) (i : nat),
    Forall (in_range 8) r -> (i < length r)%nat ->
    nth i (foldl PUnit.addPoint r fs) 0 = wrap 8 (nth i r 0 + componentSum fs i).
Proof.
  induction fs as [|d fs IH]; intros r i Hr Hi; cbn [foldl componentSum foldr].
  - rewrite Z.add_0_r. symmetry. apply wrap_id; [lia|].
    destruct (lookup_lt_is_Some_2 r i Hi) as [x Hx].
    rewrite (nth_lookup_Some _ _ _ _ Hx).
    rewrite Forall_forall in Hr. apply Hr. eapply list_elem_of_lookup_2. eassumption.
  - rewrite IH by (try apply addPoint_in_range; try rewrite addPoint_length; assumption).
    fold (componentSum fs i). rewrite addPoint_nth.
    destruct (Nat.ltb_spec i (length r)) as [_|?]; [|lia]. rewrite andb_true_r.
    destruct (Nat.ltb_spec i (length d)) as [Hlt|Hge].
    + unfold uc_add. rewrite wrap_wrap_add. now rewrite Z.add_assoc.
    + rewrite (nth_overflow _ _ Hge). now rewrite Z.add_0_l.
Qed.

(** [product] is the componentwise sum of the dimension vector and the
    dimensionless factors of the unit. *)
Lemma product_specProduct (a : pUnit) : PUnit.product a = specProduct a.
Proof.
  apply (nth_ext _ _ 0 0).
  - rewrite product_length. reflexivity.
  - rewrite product_length. intros i Hi. unfold PUnit.product.
    rewrite foldl_addPoint_nth.
    + unfold specProduct, numDim in *.
      do 8 (destruct i as [|i]; [reflexivity|]). lia.
    + repeat constructor; unfold in_range; lia.
    + exact Hi.
Qed.

(** C8. [product a] is the componentwise sum of the dimension vector and
    of all dimensionless factors of [a] ([specProduct], from the fields of
    the unit).  [Multiply a b] has the dimension vector
    [product a + product b] (componentwise), the scale [a.Scale + b.Scale]
    and no dimensionless factors; [Reciprocal a] has the dimension vector
    [- product a] and the scale [- a.Scale]; [Exp a e] has the dimension
    vector [e * product a] and the scale [e * a.Scale].  The sums,
    negations and products are those of the component type [int8] and of
    [int]: the integer ones as long as these fit the type
    ([uc_add_exact], [int_add_exact], ...). *)
Theorem pUnit_algebra (a b : pUnit) (e : uComponent) :
  PUnit.product a = specProduct a
  /\ Dim (PUnit.Multiply a b) = vadd (specProduct a) (specProduct b)
  /\ Scale (PUnit.Multiply a b) = int_add (Scale a) (Scale b)
  /\ DimLess (PUnit.Multiply a b) = []
  /\ Dim (PUnit.Reciprocal a) = vneg (specProduct a)
  /\ Scale (PUnit.Reciprocal a) = int_neg (Scale a)
  /\ Dim (PUnit.Exp a e) = vscale e (specProduct a)
  /\ Scale (PUnit.Exp a e) = int_mul e (Scale a).
Proof.
  split; [apply product_specProduct|].
  rewrite <- !product_specProduct.
  repeat split; cbn.
  - apply addPoint_vadd. now rewrite !product_length.
  - apply rangeLoop_map.
  - apply (rangeLoop_map (uc_mul e)).
Qed.

(** ** The tables: order and longest match *)

Lemma sortedb_sound {A : Type} (less : A -> A -> bool) (l : list A) :
  sortedb less l = true -> StronglySorted (fun a b => less a b = true) l.
Proof.
  induction l as [|x l IH]; cbn; intros Hs; constructor.
  - apply IH. now apply andb_prop in Hs as [_ ?].
  - apply andb_prop in Hs as [Hall _].
    apply Forall_forall. intros y Hy.
    rewrite forallb_forall in Hall. apply Hall. now apply list_elem_of_In.
Qed.

Lemma makeScales_ok : makeScales = inr defaultScales.
Proof. reflexivity. Qed.

Lemma makeUnits_ok : makeUnits = inr defaultUnits.
Proof. reflexivity. Qed.

Lemma defaultScales_sorted : StronglySorted scaleLess defaultScales.
Proof.
  apply (sortedb_sound (fun a b => longLess (keyedScale.Key a) (keyedScale.Key b))).
  vm_compute. reflexivity.
Qed.

Lemma defaultUnits_sorted : StronglySorted unitLess defaultUnits.
Proof.
  apply (sortedb_sound (fun a b => longLess (keyedUnit.Key a) (keyedUnit.Key b))).
  vm_compute. reflexivity.
Qed.

(** A linear scan of a sorted list stops at an entry that precedes every
    other entry satisfying the test. *)
Lemma find_sorted_first {A : Type} (R : A -> A -> Prop) (p : A -> bool) (l : list A) (x : A) :
  StronglySorted R l -> find p l = Some x ->
  forall y, y ∈ l -> p y = true -> x = y \/ R x y.
Proof.
  induction 1 as [|a l Hs IH Hall]; cbn; intros Hfind y Hy Hp; [discriminate|].
  destruct (p a) eqn:Hpa.
  - injection Hfind as <-. apply elem_of_cons in Hy as [->|Hy]; [now left|].
    right. rewrite Forall_forall in Hall. now apply Hall.
  - apply elem_of_cons in Hy as [->|Hy]; [congruence|]. now apply IH.
Qed.

Lemma find_is_Some {A : Type} (p : A -> bool) (l : list A) (y : A) :
  y ∈ l -> p y = true -> exists x, find p l = Some x /\ x ∈ l /\ p x = true.
Proof.
  induction l as [|a l IH]; intros Hy Hp; [by apply elem_of_nil in Hy|].
  cbn. destruct (p a) eqn:Hpa.
  - exists a. repeat split; [apply elem_of_cons; now left | assumption].
  - apply elem_of_cons in Hy as [->|Hy]; [congruence|].
    destruct (IH Hy Hp) as (x & ? & ? & ?). exists x. repeat split; try assumption.
    apply elem_of_cons. now right.
Qed.

Lemma HasPrefix_nonempty (str key : string) :
  HasPrefix str key = true -> key <> ""%string -> str <> ""%string.
Proof. intros Hp Hk ->. destruct key; [congruence | discriminate]. Qed.

Lemma string_of_drop_nonempty (data : list ascii) (pos : nat) :
  string_of_list_ascii (drop pos data) <> ""%string -> (length data <=? pos)%nat = false.
Proof.
  intros Hne. apply Nat.leb_gt.
  destruct (Nat.le_gt_cases (length data) pos) as [Hle|Hlt]; [|assumption].
  rewrite drop_ge in Hne by assumption. now contradiction Hne.
Qed.

Lemma scale_keys_nonempty : Forall (fun ks => keyedScale.Key ks <> ""%string) defaultScales.
Proof. vm_compute. repeat constructor; discriminate. Qed.

Lemma unit_keys_nonempty : Forall (fun ku => keyedUnit.Key ku <> ""%string) defaultUnits.
Proof. vm_compute. repeat constructor; discriminate. Qed.

Lemma longLess_length (a b : string) :
  longLess a b = true -> (String.length b <= String.length a)%nat.
Proof.
  unfold longLess. destruct (String.length a =? String.length b)%nat eqn:Hlen.
  - apply Nat.eqb_eq in Hlen. lia.
  - intros Hlt. apply Nat.ltb_lt in Hlt. lia.
Qed.

(** C7. Both tables are sorted by descending key length, then ascending
    byte order.  Whenever a key of the table is a prefix of the text that
    remains at [pos], the lookup succeeds with an entry [ks] whose key is a
    prefix too and, for every entry [k'] whose key is a prefix, the key of
    [k'] is not longer than that of [ks], and [ks] is [k'] or precedes it in
    that order. *)
Theorem lookup_longest_match (data : list ascii) (pos : nat) :
  let str := string_of_list_ascii (drop pos data) in
  StronglySorted scaleLess defaultScales
  /\ StronglySorted unitLess defaultUnits
  /\ (forall k, k ∈ defaultScales -> HasPrefix str (keyedScale.Key k) = true ->
      exists ks, ks ∈ defaultScales
        /\ HasPrefix str (keyedScale.Key ks) = true
        /\ parsePrefix data pos
           = Ok (keyedScale.Scale ks) (pos + String.length (keyedScale.Key ks))
        /\ forall k', k' ∈ defaultScales -> HasPrefix str (keyedScale.Key k') = true ->
             (String.length (keyedScale.Key k') <= String.length (keyedScale.Key ks))%nat
             /\ (ks = k' \/ longLess (keyedScale.Key ks) (keyedScale.Key k') = true))
  /\ (forall k, k ∈ defaultUnits -> HasPrefix str (keyedUnit.Key k) = true ->
      exists ku, ku ∈ defaultUnits
        /\ HasPrefix str (keyedUnit.Key ku) = true
        /\ parseSymbol data pos
           = Ok (keyedUnit.Unit ku) (pos + String.length (keyedUnit.Key ku))
        /\ forall k', k' ∈ defaultUnits -> HasPrefix str (keyedUnit.Key k') = true ->
             (String.length (keyedUnit.Key k') <= String.length (keyedUnit.Key ku))%nat
             /\ (ku = k' \/ longLess (keyedUnit.Key ku) (keyedUnit.Key k') = true)).
Proof.
  intros str.
  split; [exact defaultScales_sorted|]. split; [exact defaultUnits_sorted|]. split.
  - intros k Hk Hp.
    destruct (find_is_Some (fun ks => HasPrefix str (keyedScale.Key ks)) _ k Hk Hp)
      as (ks & Hfind & Hin & Hpre).
    exists ks. split; [assumption|]. split; [assumption|]. split.
    + unfold parsePrefix. fold str.
      rewrite string_of_drop_nonempty.
      * now rewrite Hfind.
      * apply (HasPrefix_nonempty _ _ Hp).
        pose proof scale_keys_nonempty as Hne. rewrite Forall_forall in Hne. now apply Hne.
    + intros k' Hk' Hp'.
      pose proof (find_sorted_first scaleLess _ _ _ defaultScales_sorted Hfind k' Hk' Hp')
        as Hfirst.
      split; [|assumption]. destruct Hfirst as [->|Hless]; [lia|].
      now apply longLess_length.
  - intros k Hk Hp.
    destruct (find_is_Some (fun ku => HasPrefix str (keyedUnit.Key ku)) _ k Hk Hp)
      as (ku & Hfind & Hin & Hpre).
    exists ku. split; [assumption|]. split; [assumption|]. split.
    + unfold parseSymbol. fold str.
      rewrite string_of_drop_nonempty.
      * now rewrite Hfind.
      * apply (HasPrefix_nonempty _ _ Hp).
        pose proof unit_keys_nonempty as Hne. rewrite Forall_forall in Hne. now apply Hne.
    + intros k' Hk' Hp'.
      pose proof (find_sorted_first unitLess _ _ _ defaultUnits_sorted Hfind k' Hk' Hp')
        as Hfirst.
      split; [|assumption]. destruct Hfirst as [->|Hless]; [lia|].
      now apply longLess_length.
Qed.

(** ** The parser: progress, termination, the equation of [parseUnit] *)

Lemma DecodeRune_width (p : list ascii) : p <> [] -> (1 <= snd (DecodeRune p))%nat.
Proof.
  destruct p as [|c0 p]; [congruence|]. intros _.
  unfold DecodeRune. repeat case_match; cbn; lia.
Qed.

Section ParserFacts.
Context `{UnicodeTables}.

Lemma scanToNonSpace_ge data pos b pos' b' :
  scanToNonSpace data pos b = (pos', b') -> (pos <= pos')%nat.
Proof.
  unfold scanToNonSpace. destruct (length data <=? pos)%nat eqn:Hlen.
  - intros [= <- _]. lia.
  - apply Nat.leb_gt in Hlen. case_match; intros [= <- _]; lia.
Qed.

Lemma scanDigits_ge fuel data pos idx : (idx <= scanDigits fuel data pos idx)%nat.
Proof.
  revert idx. induction fuel as [|fuel IH]; intros idx; cbn; [lia|].
  repeat case_match; try lia.
  - etransitivity; [|apply IH]. lia.
  - etransitivity; [|apply IH]. lia.
Qed.

Lemma parseRune_Ok data pos r u pos' :
  parseRune data pos r = Ok u pos' -> (pos < length data /\ pos < pos')%nat.
Proof.
  unfold parseRune. destruct (length data <=? pos)%nat eqn:Hlen; [discriminate|].
  apply Nat.leb_gt in Hlen.
  pose proof (DecodeRune_width (drop pos data)) as Hw.
  destruct (DecodeRune (drop pos data)) as [dr width]. cbn in Hw.
  case_match; [discriminate|]. intros [= <-]. split; [assumption|].
  assert (drop pos data <> []).
  { intros Hnil. apply (f_equal length) in Hnil. rewrite length_drop in Hnil. cbn in Hnil. lia. }
  specialize (Hw ltac:(assumption)). lia.
Qed.

Lemma parseRune_Err data pos r pos' e :
  parseRune data pos r = Err pos' e -> pos' = pos.
Proof.
  unfold parseRune. repeat case_match; congruence.
Qed.

Lemma parsePrefix_pos data pos :
  match parsePrefix data pos with
  | Ok _ pos' => (pos < length data /\ pos < pos')%nat
  | Err pos' _ => pos' = pos
  end.
Proof.
  unfold parsePrefix. destruct (length data <=? pos)%nat eqn:Hlen; [reflexivity|].
  apply Nat.leb_gt in Hlen. destruct (find _ _) as [k|] eqn:Hfind; [|reflexivity].
  apply find_some in Hfind as [Hin _].
  pose proof scale_keys_nonempty as Hne. rewrite Forall_forall in Hne.
  apply list_elem_of_In, Hne in Hin. split; [assumption|].
  destruct (keyedScale.Key _); [congruence|cbn; lia].
Qed.

Lemma parseSymbol_pos data pos :
  match parseSymbol data pos with
  | Ok _ pos' => (pos < length data /\ pos < pos')%nat
  | Err pos' _ => pos' = pos
  end.
Proof.
  unfold parseSymbol. destruct (length data <=? pos)%nat eqn:Hlen; [reflexivity|].
  apply Nat.leb_gt in Hlen. destruct (find _ _) as [k|] eqn:Hfind; [|reflexivity].
  apply find_some in Hfind as [Hin _].
  pose proof unit_keys_nonempty as Hne. rewrite Forall_forall in Hne.
  apply list_elem_of_In, Hne in Hin. split; [assumption|].
  destruct (keyedUnit.Key _); [congruence|cbn; lia].
Qed.

Lemma parseTerm_Ok data pos u pos' :
  parseTerm data pos = Ok u pos' -> (pos < length data /\ pos < pos')%nat.
Proof.
  unfold parseTerm.
  pose proof (parsePrefix_pos data pos) as Hp.
  destruct (parsePrefix data pos) as [scale p1|p1 e1].
  - pose proof (parseSymbol_pos data p1) as Hs.
    destruct (parseSymbol data p1) as [u1 p2|p2 e2].
    + intros [= _ <-]. lia.
    + pose proof (parseSymbol_pos data pos) as Hs'.
      destruct (parseSymbol data pos); [|discriminate]. intros [= _ <-]. lia.
  - subst p1. pose proof (parseSymbol_pos data pos) as Hs.
    destruct (parseSymbol data pos) as [u1 p2|p2 e2].
    + intros [= _ <-]. lia.
    + discriminate.
Qed.

Lemma parseExponent_pos data pos :
  match parseExponent data pos with
  | Ok _ pos' => (pos < length data /\ pos < pos')%nat
  | Err pos' _ => (pos <= pos')%nat
  end.
Proof.
  unfold parseExponent.
  destruct (parseRune data pos 94) as [u p1|p1 e1] eqn:Hr.
  - apply parseRune_Ok in Hr as [? ?].
    pose proof (scanDigits_ge (length data) data p1 p1) as Hge.
    fold (scanToNonDigit data p1) in Hge.
    destruct (ParseInt8 _) as [e|i]; lia.
  - apply parseRune_Err in Hr. lia.
Qed.

Lemma parseTerm_Err data pos pos' e :
  parseTerm data pos = Err pos' e -> pos' = pos.
Proof.
  unfold parseTerm.
  destruct (parsePrefix data pos) as [scale p1|p1 e1];
    destruct (parseSymbol data p1) as [u1 p2|p2 e2]; try discriminate;
    pose proof (parseSymbol_pos data pos) as Hs;
    destruct (parseSymbol data pos); try discriminate; intros [= <- _]; assumption.
Qed.

Ltac pos_facts :=
  repeat match goal with
  | E : scanToNonSpace _ _ _ = (_, _) |- _ => apply scanToNonSpace_ge in E
  | E : parseRune _ _ _ = Ok _ _ |- _ => apply parseRune_Ok in E as [? ?]
  | E : parseRune _ _ _ = Err _ _ |- _ => apply parseRune_Err in E; subst
  | E : parseTerm _ _ = Ok _ _ |- _ => apply parseTerm_Ok in E as [? ?]
  | E : parseTerm _ _ = Err _ _ |- _ => apply parseTerm_Err in E; subst
  end.

Lemma parseOperand_pos self data pos r :
  monotone self data ->
  parseOperand self data pos = Some r ->
  (pos <= res_pos r)%nat
  /\ forall ub p, r = Ok ub p -> (pos < length data /\ pos < p)%nat.
Proof.
  intros Hmono. unfold parseOperand.
  destruct (scanToNonSpace data pos false) as [p1 b1] eqn:E1.
  assert (Hrest : forall u p3, (pos < length data /\ pos < p3)%nat ->
    (let '(pos1, hadSpace) := scanToNonSpace data p3 false in
      match parseExponent data pos1 with
      | Ok exp pos2 =>
        let '(pos3, hadSpace0) := scanToNonSpace data pos2 false in
        Some (Ok (PUnit.Exp u exp, hadSpace0) pos3)
      | Err pos2 _ => Some (Ok (u, hadSpace) pos2)
      end) = Some r ->
    (pos <= res_pos r)%nat
    /\ forall ub p, r = Ok ub p -> (pos < length data /\ pos < p)%nat).
  { intros u p3 [? ?].
    destruct (scanToNonSpace data p3 false) as [p4 b4] eqn:E4.
    pose proof (parseExponent_pos data p4) as He.
    destruct (parseExponent data p4) as [e p5|p5 e5].
    - destruct (scanToNonSpace data p5 false) as [p6 b6] eqn:E6.
      pos_facts. intros [= <-]. cbn. split; [lia|]. intros ? ? [= _ <-]. lia.
    - pos_facts. intros [= <-]. cbn. split; [lia|]. intros ? ? [= _ <-]. lia. }
  destruct (parseRune data p1 40) as [u p2|p2 e2] eqn:E2.
  - destruct (self data p2) as [[u3 p3|p3 e3]|] eqn:E3; try discriminate.
    + apply Hmono in E3. cbn in E3.
      destruct (parseRune data p3 41) as [u4 p4|p4 e4] eqn:E4.
      * pos_facts. apply Hrest. lia.
      * pos_facts. intros [= <-]. cbn. split; [lia|]. discriminate.
    + apply Hmono in E3. cbn in E3. pos_facts.
      intros [= <-]. cbn. split; [lia|]. discriminate.
  - destruct (parseTerm data p2) as [u3 p3|p3 e3] eqn:E3.
    + pos_facts. apply Hrest. lia.
    + pos_facts. intros [= <-]. cbn. split; [lia|]. discriminate.
Qed.

Lemma parseCombinator_pos self data unit hadSpace pos r :
  monotone self data ->
  parseCombinator self data unit hadSpace pos = Some r -> (pos <= res_pos r)%nat.
Proof.
  intros Hmono. unfold parseCombinator.
  destruct (parseRune data pos 47) as [u p1|p1 e1] eqn:E1.
  { destruct (self data p1) as [[u2 p2|p2 e2]|] eqn:E2; try discriminate;
      apply Hmono in E2; cbn in E2; pos_facts; intros [= <-]; cbn; lia. }
  destruct (parseRune data p1 183) as [u p2|p2 e2] eqn:E2.
  { destruct (self data p2) as [[u3 p3|p3 e3]|] eqn:E3; try discriminate;
      apply Hmono in E3; cbn in E3; pos_facts; intros [= <-]; cbn; lia. }
  pos_facts. destruct hadSpace.
  - destruct (self data pos) as [[u3 p3|p3 e3]|] eqn:E3; try discriminate;
      apply Hmono in E3; cbn in E3; intros [= <-]; cbn; lia.
  - intros [= <-]. cbn. lia.
Qed.

Lemma parseUnitBody_pos self data pos r :
  monotone self data ->
  parseUnitBody self data pos = Some r ->
  (pos <= res_pos r)%nat
  /\ forall u p, r = Ok u p -> (pos < length data /\ pos < p)%nat.
Proof.
  intros Hmono. unfold parseUnitBody.
  destruct (parseOperand self data pos) as [[[u hs] p1|p1 e1]|] eqn:E1; try discriminate.
  - apply (parseOperand_pos _ _ _ _ Hmono) in E1 as [_ E1].
    destruct (E1 _ _ eq_refl) as [? ?]. intros E2.
    apply (parseCombinator_pos _ _ _ _ _ _ Hmono) in E2.
    split; [lia|]. intros u' p' ->. cbn in E2. lia.
  - apply (parseOperand_pos _ _ _ _ Hmono) in E1 as [E1 _]. cbn in E1.
    intros [= <-]. cbn. split; [lia|]. discriminate.
Qed.

Lemma parseUnitFuel_monotone fuel data : monotone (parseUnitFuel fuel) data.
Proof.
  induction fuel as [|fuel IH]; intros p r; cbn; [discriminate|].
  intros Hr. now apply (parseUnitBody_pos _ _ _ _ IH) in Hr as [? _].
Qed.

(** The body of [parseUnit] calls itself only at later positions, and only
    when there is input at [pos]. *)
Lemma parseUnitBody_ext (self1 self2 : list ascii -> nat -> option (res pUnit)) data pos :
  monotone self1 data ->
  (forall p, (pos < p)%nat -> (pos < length data)%nat -> self1 data p = self2 data p) ->
  parseUnitBody self1 data pos = parseUnitBody self2 data pos.
Proof.
  intros Hmono Hext. unfold parseUnitBody.
  assert (Hop : parseOperand self1 data pos = parseOperand self2 data pos).
  { unfold parseOperand.
    destruct (scanToNonSpace data pos false) as [p1 b1] eqn:E1.
    destruct (parseRune data p1 40) as [u p2|p2 e2] eqn:E2; [|reflexivity].
    pos_facts. rewrite Hext by lia. reflexivity. }
  rewrite <- Hop.
  destruct (parseOperand self1 data pos) as [[[u hs] p1|p1 e1]|] eqn:E1; try reflexivity.
  apply (parseOperand_pos _ _ _ _ Hmono) in E1 as [_ E1].
  destruct (E1 _ _ eq_refl) as [? ?].
  unfold parseCombinator.
  destruct (parseRune data p1 47) as [u1 p2|p2 e2] eqn:E2.
  { pos_facts. rewrite Hext by lia. reflexivity. }
  destruct (parseRune data p2 183) as [u1 p3|p3 e3] eqn:E3.
  { pos_facts. rewrite Hext by lia. reflexivity. }
  destruct hs; [|reflexivity]. pos_facts. rewrite Hext by lia. reflexivity.
Qed.

(** With enough fuel the result does not depend on the fuel... *)
Lemma parseUnitFuel_stable data :
  forall m n pos,
    (length data - pos < m)%nat -> (length data - pos < n)%nat ->
    parseUnitFuel m data pos = parseUnitFuel n data pos.
Proof.
  induction m as [|m IH]; intros n pos Hm Hn; [lia|].
  destruct n as [|n]; [lia|]. cbn.
  apply parseUnitBody_ext; [apply parseUnitFuel_monotone|].
  intros p Hp Hlen. apply IH; lia.
Qed.

(** ... and is never the exhaustion of the fuel. *)
Lemma parseUnitBody_is_Some self data pos :
  monotone self data ->
  (forall p, (pos < p)%nat -> (pos < length data)%nat -> is_Some (self data p)) ->
  is_Some (parseUnitBody self data pos).
Proof.
  intros Hmono Hsome. unfold parseUnitBody.
  destruct (parseOperand self data pos) as [[[u hs] p1|p1 e1]|] eqn:E1; [|eauto|].
  - apply (parseOperand_pos _ _ _ _ Hmono) in E1 as [_ E1].
    destruct (E1 _ _ eq_refl) as [? ?].
    unfold parseCombinator.
    destruct (parseRune data p1 47) as [u1 p2|p2 e2] eqn:E2.
    { pos_facts. destruct (Hsome p2) as [[? ?|? ?] ->]; eauto; lia. }
    destruct (parseRune data p2 183) as [u1 p3|p3 e3] eqn:E3.
    { pos_facts. destruct (Hsome p3) as [[? ?|? ?] ->]; eauto; lia. }
    destruct hs; [|eauto]. pos_facts.
    match goal with |- context [self data ?p] =>
      destruct (Hsome p) as [[? ?|? ?] ->]; eauto; lia end.
  - exfalso. revert E1. unfold parseOperand.
    destruct (scanToNonSpace data pos false) as [p1 b1] eqn:E1.
    destruct (parseRune data p1 40) as [u p2|p2 e2] eqn:E2.
    + pos_facts. destruct (Hsome p2) as [[u3 p3|p3 e3] ->]; try lia;
        repeat case_match; discriminate.
    + repeat case_match; discriminate.
Qed.

Lemma parseUnitFuel_enough data :
  forall fuel pos, (length data - pos < fuel)%nat -> is_Some (parseUnitFuel fuel data pos).
Proof.
  induction fuel as [|fuel IH]; intros pos Hfuel; [lia|]. cbn.
  apply parseUnitBody_is_Some; [apply parseUnitFuel_monotone|].
  intros p Hp Hlen. apply IH. lia.
Qed.

Lemma parseUnit_fuel data pos fuel :
  (length data - pos < fuel)%nat -> parseUnitFuel fuel data pos = Some (parseUnit data pos).
Proof.
  intros Hfuel. unfold parseUnit.
  rewrite (parseUnitFuel_stable data fuel (S (length data - pos))) by lia.
  destruct (parseUnitFuel_enough data (S (length data - pos)) pos ltac:(lia)) as [r ->].
  reflexivity.
Qed.

(** The equation of [parseUnit]: its body, with [parseUnit] itself as the
    recursive call. *)
Lemma parseUnit_unfold data pos :
  Some (parseUnit data pos) = parseUnitBody (fun d p => Some (parseUnit d p)) data pos.
Proof.
  rewrite <- (parseUnit_fuel data pos (S (length data - pos))) by lia. cbn.
  apply parseUnitBody_ext; [apply parseUnitFuel_monotone|].
  intros p Hp Hlen. apply parseUnit_fuel. lia.
Qed.

(** C6. A chain of divisions [a/b/c] is read as [a/(b/c)]: when the operand
    [a] (a term or a parenthesised unit, with its exponent if any) at [p0]
    is followed by [/], the operand [b] after it is followed by [/] too,
    and the text after that parses as the unit [c], then [parseUnit] at
    [p0] yields [Multiply(a, Reciprocal(Multiply(b, Reciprocal(c))))]. *)
Theorem chained_division_associates_right
    (data : list ascii) (p0 p1 p1' p2 p2' p3 : nat) (ua ub uc : pUnit) (ha hb : bool) :
  let self := fun d p => Some (parseUnit d p) in
  parseOperand self data p0 = Some (Ok (ua, ha) p1) ->
  parseRune data p1 0x2F = Ok () p1' ->
  parseOperand self data p1' = Some (Ok (ub, hb) p2) ->
  parseRune data p2 0x2F = Ok () p2' ->
  parseUnit data p2' = Ok uc p3 ->
  parseUnit data p0
  = Ok (PUnit.Multiply ua (PUnit.Reciprocal (PUnit.Multiply ub (PUnit.Reciprocal uc)))) p3.
Proof.
  intros self Ha Hs1 Hb Hs2 Hc.
  assert (Hbc : parseUnit data p1' = Ok (PUnit.Multiply ub (PUnit.Reciprocal uc)) p3).
  { apply (inj Some). rewrite parseUnit_unfold. unfold parseUnitBody.
    fold self. rewrite Hb. unfold parseCombinator. rewrite Hs2. unfold self at 1.
    now rewrite Hc. }
  apply (inj Some). rewrite parseUnit_unfold. unfold parseUnitBody.
  fold self. rewrite Ha. unfold parseCombinator. rewrite Hs1. unfold self at 1.
  now rewrite Hbc.
Qed.

End ParserFacts.

(** ** Measurements: what the operations compute and what they leave in
    the heap *)

Section MeasurementFacts.
Context `{UnicodeTables}.

Lemma Parse_spec (q : float64) (u : string) (h : heap) :
  Parse q u h =
  Some (match parseMeasure q u with
        | inl err => ((nilMeasurement, Some err), h)
        | inr m => ((ptrMeasure (length h), None), h ++ [m])
        end).
Proof.
  unfold Parse, parseMeasure.
  destruct (length (list_ascii_of_string u) =? 0)%nat; [reflexivity|].
  destruct (parseUnit _ 0) as [unit pos|pos err]; [|reflexivity].
  destruct (scanToNonSpace _ pos false) as [pos' b].
  destruct (negb _); reflexivity.
Qed.

Lemma parse_spec (m : Measurement) (h : heap) :
  parse m h =
  match m with
  | nilMeasurement => None
  | ptrMeasure l => Some ((Some l, None), h)
  | otherMeasurement q u =>
    Some (match parseMeasure q u with
          | inl err => ((None, Some err), h)
          | inr x => ((Some (length h), None), h ++ [x])
          end)
  end.
Proof.
  destruct m as [|l|q u]; [reflexivity..|].
  unfold parse, bind. cbn. rewrite Parse_spec.
  destruct (parseMeasure q u); reflexivity.
Qed.

Lemma lookup_alloc (h : heap) (x : measure) : (h ++ [x]) !! length h = Some x.
Proof. rewrite lookup_app_r by lia. now rewrite Nat.sub_diag. Qed.

Lemma load_Some (l : loc) (x : measure) (h : heap) :
  h !! l = Some x -> load l h = Some (x, h).
Proof. intros Hl. unfold load. now rewrite Hl. Qed.

Lemma store_Some (l : loc) (x m : measure) (h : heap) :
  h !! l = Some x -> store l m h = Some ((), <[l := m]> h).
Proof. intros Hl. unfold store. now rewrite Hl. Qed.

Lemma lookup_stored (l : loc) (x m : measure) (h : heap) :
  h !! l = Some x -> <[l := m]> h !! l = Some m.
Proof. intros Hl. apply list_lookup_insert_eq. eapply lookup_lt_Some; eassumption. Qed.

(** [Reciprocal] on a [*measure]: the cell is overwritten in place. *)
Lemma Reciprocal_ptr (l : loc) (x : measure) (h : heap) :
  h !! l = Some x ->
  Reciprocal (ptrMeasure l) h =
  Some (if f64_eqb (Value x) f64_zero
        then ((ptrMeasure zeroValue, Some divideByZero), h)
        else ((ptrMeasure l, None), <[l := recipMeasure x]> h)).
Proof.
  intros Hl. unfold Reciprocal, bind. rewrite parse_spec.
  rewrite (load_Some _ _ _ Hl).
  destruct (f64_eqb (Value x) f64_zero); [reflexivity|].
  rewrite (store_Some _ _ _ _ Hl).
  pose proof (lookup_stored l x
    {| Value := f64_div f64_one (Value x); Unit := Unit x; unit_ := unit_ x |} h Hl) as Hl1.
  rewrite (load_Some _ _ _ Hl1), (store_Some _ _ _ _ Hl1). cbn [Value Unit unit_].
  rewrite list_insert_insert_eq.
  pose proof (lookup_stored l x
    {| Value := f64_div f64_one (Value x); Unit := Unit x;
       unit_ := PUnit.Reciprocal (unit_ x) |} h Hl) as Hl2.
  rewrite (load_Some _ _ _ Hl2). cbn [Value Unit unit_].
  unfold recipMeasure.
  destruct (negb (String.length (Unit x) =? 0)%nat).
  - rewrite (store_Some _ _ _ _ Hl2). rewrite list_insert_insert_eq. reflexivity.
  - reflexivity.
Qed.

(** [Reciprocal] on another implementation of [Measurement]: a fresh cell. *)
Lemma Reciprocal_other (q : float64) (u : string) (h : heap) :
  Reciprocal (otherMeasurement q u) h =
  Some (match parseMeasure q u with
        | inl err => ((ptrMeasure zeroValue, Some err), h)
        | inr x =>
          if f64_eqb (Value x) f64_zero
          then ((ptrMeasure zeroValue, Some divideByZero), h ++ [x])
          else ((ptrMeasure (length h), None), h ++ [recipMeasure x])
        end).
Proof.
  destruct (parseMeasure q u) as [err|x] eqn:Hp.
  - unfold Reciprocal, bind. rewrite parse_spec, Hp. reflexivity.
  - pose proof (Reciprocal_ptr (length h) x (h ++ [x]) (lookup_alloc h x)) as Hr.
    unfold Reciprocal, bind in *. rewrite parse_spec in Hr. rewrite parse_spec, Hp.
    rewrite Hr. destruct (f64_eqb (Value x) f64_zero); [reflexivity|].
    replace (length h) with (length h + 0)%nat at 2 by lia.
    rewrite insert_app_r. reflexivity.
Qed.

Lemma validM_app (h e : heap) (m : Measurement) : validM h m -> validM (h ++ e) m.
Proof.
  unfold validM. destruct m as [|l|q u]; cbn; try done.
  intros [x Hx]. destruct (h !! l) as [y|] eqn:Hl; [|discriminate].
  rewrite (lookup_app_l_Some _ _ _ _ Hl). eauto.
Qed.

Lemma resolve_app (h e : heap) (m : Measurement) :
  validM h m -> resolve (h ++ e) m = resolve h m.
Proof.
  unfold validM. destruct m as [|l|q u]; cbn; try done.
  intros [x Hx]. destruct (h !! l) as [y|] eqn:Hl; [|discriminate].
  now rewrite (lookup_app_l_Some _ _ _ _ Hl).
Qed.

Lemma accumulate_app (h e : heap) (ms : list Measurement) :
  Forall (validM h) ms ->
  forall value unit, accumulate (h ++ e) ms value unit = accumulate h ms value unit.
Proof.
  induction 1 as [|mm ms Hmm Hms IH]; intros value unit; cbn; [reflexivity|].
  rewrite (resolve_app _ _ _ Hmm).
  destruct (resolve h mm) as [[err|m]|]; try reflexivity. apply IH.
Qed.

(** The loop of [New] computes [accumulate] and only appends to the heap. *)
Lemma newLoop_spec (ms : list Measurement) :
  forall (h : heap) (value : float64) (unit : pUnit),
    Forall (validM h) ms ->
    exists r h', accumulate h ms value unit = Some r
      /\ newLoop ms value unit h = Some (r, h')
      /\ h `prefix_of` h'.
Proof.
  induction ms as [|mm ms IH]; intros h value unit Hvalid.
  - exists (inr (value, unit)), h. repeat split; reflexivity.
  - apply Forall_cons in Hvalid as [Hmm Hms].
    cbn [newLoop accumulate]. unfold bind. rewrite parse_spec.
    destruct mm as [|l|q u].
    + destruct Hmm as [? [=]].
    + destruct Hmm as [x Hx]. cbn in Hx |- *.
      destruct (h !! l) as [y|] eqn:Hl; [|discriminate]. cbn.
      rewrite (load_Some _ _ _ Hl). apply IH. assumption.
    + cbn. destruct (parseMeasure q u) as [err|x].
      * exists (inl err), h. repeat split; reflexivity.
      * rewrite (load_Some _ _ _ (lookup_alloc h x)).
        destruct (IH (h ++ [x]) (f64_mul value (Value x))
                    (PUnit.Multiply unit (unit_ x))) as (r & h' & Hacc & Hrun & Hpre).
        { eapply Forall_impl; [eassumption|]. intros m. apply validM_app. }
        exists r, h'. rewrite accumulate_app in Hacc by assumption.
        repeat split; try assumption.
        etransitivity; [|eassumption]. now apply prefix_app_r.
Qed.

(** The rest of [newOutcome] once the first measurement is resolved to
    [x0]. *)
Lemma newOutcome_ptr (unitString : string) (l : loc) (ms : list Measurement)
    (h : heap) (x0 : measure) :
  h !! l = Some x0 ->
  newOutcome h unitString (ptrMeasure l) ms =
  match accumulate h ms (Value x0) (unit_ x0) with
  | None => None
  | Some (inl err) => Some (inl err)
  | Some (inr (value, unit)) =>
    match parseMeasure f64_zero unitString with
    | inl err => Some (inl err)
    | inr target => Some (convert unitString value unit target)
    end
  end.
Proof. intros Hl. unfold newOutcome. cbn. now rewrite Hl. Qed.

Lemma New_ptr_spec (unitString : string) (l : loc) (ms : list Measurement)
    (h : heap) (x0 : measure) :
  h !! l = Some x0 ->
  Forall (validM h) ms ->
  exists o h1, newOutcome h unitString (ptrMeasure l) ms = Some o
    /\ h `prefix_of` h1
    /\ New unitString (ptrMeasure l) ms h =
       Some (match o with
             | inl err => ((ptrMeasure zeroValue, Some err), h1)
             | inr x => ((ptrMeasure (length h1), None), h1 ++ [x])
             end).
Proof.
  intros Hl Hms. rewrite (newOutcome_ptr _ _ _ _ _ Hl).
  unfold New, bind. rewrite parse_spec, (load_Some _ _ _ Hl).
  destruct (newLoop_spec ms h (Value x0) (unit_ x0) Hms) as (r & h' & Hacc & Hrun & Hpre).
  rewrite Hacc, Hrun.
  destruct r as [err|[value unit]].
  { exists (inl err), h'. repeat split; try assumption; try reflexivity. }
  rewrite Parse_spec. destruct (parseMeasure f64_zero unitString) as [err|target].
  { exists (inl err), h'. repeat split; try assumption; try reflexivity. }
  cbn [assertMeasure]. unfold ret at 1. rewrite (load_Some _ _ _ (lookup_alloc h' target)).
  assert (Hpre' : h `prefix_of` h' ++ [target])
    by (etransitivity; [eassumption|]; now apply prefix_app_r).
  unfold convert.
  destruct (negb _).
  { exists (inl wrongDimension), (h' ++ [target]). repeat split; try assumption; try reflexivity. }
  destruct (f64_eqb _ _).
  { exists (inl underflow), (h' ++ [target]). repeat split; try assumption; try reflexivity. }
  destruct (IsInf _).
  { exists (inl overflow), (h' ++ [target]). repeat split; try assumption; try reflexivity. }
  eexists (inr _), (h' ++ [target]). repeat split; try assumption; try reflexivity.
Qed.

Lemma New_other (unitString : string) (q : float64) (u : string)
    (ms : list Measurement) (h : heap) (x : measure) :
  parseMeasure q u = inr x ->
  New unitString (otherMeasurement q u) ms h
  = New unitString (ptrMeasure (length h)) ms (h ++ [x]).
Proof. intros Hp. unfold New, bind. rewrite !parse_spec, Hp. reflexivity. Qed.

(** [New] computes [newOutcome]; it only appends to the heap, and its result
    is the cell it appended last or, on an error, [zeroValue]. *)
Lemma New_spec (unitString : string) (m0 : Measurement) (ms : list Measurement) (h : heap) :
  Forall (validM h) (m0 :: ms) ->
  exists o h1, newOutcome h unitString m0 ms = Some o
    /\ h `prefix_of` h1
    /\ New unitString m0 ms h =
       Some (match o with
             | inl err => ((ptrMeasure zeroValue, Some err), h1)
             | inr x => ((ptrMeasure (length h1), None), h1 ++ [x])
             end).
Proof.
  intros Hvalid. apply Forall_cons in Hvalid as [Hm0 Hms].
  destruct m0 as [|l|q u].
  - destruct Hm0 as [? [=]].
  - destruct Hm0 as [x Hx]. cbn in Hx.
    destruct (h !! l) as [x0|] eqn:Hl; [|discriminate].
    now apply (New_ptr_spec _ _ _ _ x0).
  - destruct (parseMeasure q u) as [err|x0] eqn:Hp.
    + exists (inl err), h. unfold newOutcome, New, bind. rewrite parse_spec. cbn.
      rewrite Hp. repeat split; reflexivity.
    + rewrite (New_other _ _ _ _ _ _ Hp).
      destruct (New_ptr_spec unitString (length h) ms (h ++ [x0]) x0 (lookup_alloc h x0))
        as (o & h1 & Hout & Hpre & Hrun).
      { eapply Forall_impl; [eassumption|]. intros m. apply validM_app. }
      exists o, h1. split; [|split].
      * rewrite <- Hout. rewrite (newOutcome_ptr _ _ _ _ _ (lookup_alloc h x0)).
        unfold newOutcome. cbn. rewrite Hp.
        now rewrite accumulate_app by assumption.
      * etransitivity; [|eassumption]. now apply prefix_app_r.
      * assumption.
Qed.

End MeasurementFacts.

(** ** The claims on [Parse], [Reciprocal] and [New] *)

(** Evaluation of a conjunction of runs, one after the other: each run
    fixes the heap and the pointers of the next one. *)
Ltac run_steps :=
  repeat match goal with
  | |- _ /\ _ => split; [vm_compute; reflexivity|]
  end;
  vm_compute; try reflexivity.

(** C2. [Parse v ""] succeeds for every quantity [v] and returns a
    dimensionless measurement with the unit text [""], but its quantity is
    0 whatever [v] is: the branch for the empty text builds the measure
    without [Value: quantity], which the branch for a parsed text sets. *)
Theorem Parse_empty_text_drops_quantity `{UnicodeTables} (v : float64) (h : heap) :
  exists l h',
    Parse v "" h = Some ((ptrMeasure l, None), h')
    /\ h' !! l = Some {| Value := f64_zero; Unit := ""; unit_ := theZero |}
    /\ Quantity (ptrMeasure l) h' = Some (f64_zero, h')
    /\ MeasurementUnit (ptrMeasure l) h' = Some (""%string, h')
    /\ f64_eqb f64_zero f64_one = false.
Proof.
  exists (length h), (h ++ [{| Value := f64_zero; Unit := ""; unit_ := theZero |}]).
  split; [reflexivity|].
  assert (Hl := lookup_alloc h {| Value := f64_zero; Unit := ""; unit_ := theZero |}).
  split; [assumption|].
  unfold Quantity, MeasurementUnit, bind. rewrite (load_Some _ _ _ Hl).
  repeat split.
Qed.

(** C1. [New "mm" (Parse 3.0 "m")] succeeds with the quantity 3000 and the
    unit text "mm", but the parsed unit of the measure it returns is the
    accumulated unit of the inputs (scale 0, that of "m"), not the parsed
    unit of the target text "mm" (scale -3): converting the result once
    more to "m" yields 3000, not 3. *)
Theorem New_result_keeps_accumulated_unit :
  exists l h1 l' h2 x target l'' h3 y,
    Parse (f64_of 3 0) "m" initHeap = Some ((ptrMeasure l, None), h1)
    /\ New "mm" (ptrMeasure l) [] h1 = Some ((ptrMeasure l', None), h2)
    /\ h2 !! l' = Some x
    /\ Value x = f64_of 3000 0
    /\ Unit x = "mm"%string
    /\ parseMeasure f64_zero "mm" = inr target
    /\ Dim (unit_ x) = Dim (unit_ target)
    /\ Scale (unit_ x) = 0
    /\ Scale (unit_ target) = -3
    /\ New "m" (ptrMeasure l') [] h2 = Some ((ptrMeasure l'', None), h3)
    /\ h3 !! l'' = Some y
    /\ Value y = f64_of 3000 0.
Proof.
  do 9 eexists. run_steps.
Qed.

(** C4. [Reciprocal] writes through the pointer it is given: after
    [m := Parse 2.0 "g"] and [Reciprocal m], the accessors of [m] itself
    return 0.5 and "(g)^-1" and its parsed unit is the reciprocal one; the
    result of [Reciprocal] is the pointer [m]. *)
Theorem Reciprocal_overwrites_its_argument :
  exists l h1 h2 x x',
    Parse (f64_of 2 0) "g" initHeap = Some ((ptrMeasure l, None), h1)
    /\ h1 !! l = Some x
    /\ Quantity (ptrMeasure l) h1 = Some (f64_of 2 0, h1)
    /\ MeasurementUnit (ptrMeasure l) h1 = Some ("g"%string, h1)
    /\ Reciprocal (ptrMeasure l) h1 = Some ((ptrMeasure l, None), h2)
    /\ h2 !! l = Some x'
    /\ Quantity (ptrMeasure l) h2 = Some (f64_of 1 (-1), h2)
    /\ MeasurementUnit (ptrMeasure l) h2 = Some ("(g)^-1"%string, h2)
    /\ unit_ x' = PUnit.Reciprocal (unit_ x)
    /\ unit_ x' <> unit_ x.
Proof.
  do 5 eexists. run_steps. discriminate.
Qed.

Section Frames.
Context `{UnicodeTables}.

(** Without any assumption on the arguments: a run of [New] that returns
    only appends to the heap, and its result on an error is [zeroValue]. *)
Lemma newLoop_prefix (ms : list Measurement) :
  forall (h h' : heap) (value : float64) (unit : pUnit) (r : error + float64 * pUnit),
    newLoop ms value unit h = Some (r, h') -> h `prefix_of` h'.
Proof.
  induction ms as [|mm ms IH]; intros h h' value unit r; cbn [newLoop].
  - intros [= _ <-]. reflexivity.
  - unfold bind. rewrite parse_spec. destruct mm as [|l|q u]; [discriminate| |].
    + unfold load. destruct (h !! l) as [x|]; [|discriminate]. apply IH.
    + destruct (parseMeasure q u) as [err|x].
      * intros [= _ <-]. reflexivity.
      * rewrite (load_Some _ _ _ (lookup_alloc h x)). intros Hrun.
        apply IH in Hrun. etransitivity; [|eassumption]. now apply prefix_app_r.
Qed.

Lemma New_ptr_run (unitString : string) (l : loc) (ms : list Measurement)
    (h h' : heap) (r : Measurement) (e : option error) :
  New unitString (ptrMeasure l) ms h = Some ((r, e), h') ->
  h `prefix_of` h' /\ (is_Some e -> r = ptrMeasure zeroValue).
Proof.
  unfold New, bind. rewrite parse_spec.
  unfold load at 1. destruct (h !! l) as [x0|]; [|discriminate].
  destruct (newLoop ms (Value x0) (unit_ x0) h) as [[[err|[value unit]] h1]|] eqn:Hloop;
    [| |discriminate]; apply newLoop_prefix in Hloop.
  { intros [= <- <- <-]. auto. }
  rewrite Parse_spec. destruct (parseMeasure f64_zero unitString) as [err|target].
  { intros [= <- <- <-]. auto. }
  cbn [assertMeasure]. unfold ret at 1.
  rewrite (load_Some _ _ _ (lookup_alloc h1 target)).
  assert (Hpre : h `prefix_of` h1 ++ [target])
    by (etransitivity; [eassumption|]; now apply prefix_app_r).
  destruct (negb _); [intros [= <- <- <-]; auto|].
  destruct (f64_eqb _ _); [intros [= <- <- <-]; auto|].
  destruct (IsInf _); [intros [= <- <- <-]; auto|].
  intros [= <- <- <-]. split; [|intros [? [=]]].
  etransitivity; [eassumption|]. now apply prefix_app_r.
Qed.

Lemma New_run (unitString : string) (m0 : Measurement) (ms : list Measurement)
    (h h' : heap) (r : Measurement) (e : option error) :
  New unitString m0 ms h = Some ((r, e), h') ->
  h `prefix_of` h' /\ (is_Some e -> r = ptrMeasure zeroValue).
Proof.
  destruct m0 as [|l|q u]; [discriminate|apply New_ptr_run|].
  destruct (parseMeasure q u) as [err|x] eqn:Hp.
  - unfold New, bind. rewrite parse_spec, Hp. intros [= <- <- <-]. auto.
  - rewrite (New_other _ _ _ _ _ _ Hp). intros Hrun.
    apply New_ptr_run in Hrun as [Hpre Hres]. split; [|assumption].
    etransitivity; [|eassumption]. now apply prefix_app_r.
Qed.

(** [New] leaves every cell of the heap as it was. *)
Lemma New_frame (unitString : string) (m0 : Measurement) (ms : list Measurement)
    (h h' : heap) (r : Measurement * option error) :
  New unitString m0 ms h = Some (r, h') ->
  forall l x, h !! l = Some x -> h' !! l = Some x.
Proof.
  destruct r as [r e]. intros Hrun l x Hl.
  apply New_run in Hrun as [Hpre _]. eapply prefix_lookup_Some; eassumption.
Qed.

(** [Parse] leaves every cell of the heap as it was. *)
Lemma Parse_frame (q : float64) (u : string) (h h' : heap) (r : Measurement * option error) :
  Parse q u h = Some (r, h') ->
  forall l x, h !! l = Some x -> h' !! l = Some x.
Proof.
  rewrite Parse_spec. intros Hrun l x Hl.
  destruct (parseMeasure q u); injection Hrun as _ <-; [assumption|].
  now apply lookup_app_l_Some.
Qed.

(** [Reciprocal] on a value of another implementation of [Measurement]
    leaves every cell of the heap as it was. *)
Lemma Reciprocal_other_frame (q : float64) (u : string) (h h' : heap)
    (r : Measurement * option error) :
  Reciprocal (otherMeasurement q u) h = Some (r, h') ->
  forall l x, h !! l = Some x -> h' !! l = Some x.
Proof.
  rewrite Reciprocal_other. intros Hrun l x Hl.
  destruct (parseMeasure q u) as [err|y]; [injection Hrun as _ <-; assumption|].
  destruct (f64_eqb (Value y) f64_zero); injection Hrun as _ <-;
    now apply lookup_app_l_Some.
Qed.

(** The cell of [zeroValue] is never written: it holds the zero measure in
    every heap the operations produce. *)
Lemma Reciprocal_keeps_zeroValue (mm : Measurement) (h h' : heap)
    (r : Measurement * option error) :
  h !! zeroValue = Some zeroMeasure ->
  Reciprocal mm h = Some (r, h') ->
  h' !! zeroValue = Some zeroMeasure.
Proof.
  intros Hz Hrun. destruct mm as [|l|q u].
  - discriminate.
  - destruct (h !! l) as [x|] eqn:Hl.
    + rewrite (Reciprocal_ptr _ _ _ Hl) in Hrun.
      destruct (f64_eqb (Value x) f64_zero) eqn:Hx; injection Hrun as _ <-; [assumption|].
      destruct (decide (l = zeroValue)) as [->|Hne].
      * rewrite Hz in Hl. injection Hl as <-. discriminate.
      * now rewrite list_lookup_insert_ne.
    + unfold Reciprocal, bind in Hrun. rewrite parse_spec in Hrun.
      unfold load in Hrun. rewrite Hl in Hrun. discriminate.
  - eapply Reciprocal_other_frame; eassumption.
Qed.

End Frames.

Section Claims.
Context `{UnicodeTables}.

Lemma parseMeasure_error (q : float64) (u : string) (e : error) :
  parseMeasure q u = inl e -> exists c r e', e = parseFailed c r e'.
Proof.
  unfold parseMeasure, makeParseError. repeat case_match; intros [= <-]; eauto.
Qed.

Lemma parseMeasure_fields (q : float64) (u : string) (x : measure) :
  parseMeasure q u = inr x -> u <> ""%string -> Value x = q /\ Unit x = u.
Proof.
  unfold parseMeasure. destruct u as [|c u]; [congruence|]. cbn [length list_ascii_of_string Nat.eqb].
  intros Hp _. repeat case_match; try discriminate; injection Hp as <-; split; reflexivity.
Qed.

Lemma resolve_error (h : heap) (m : Measurement) (e : error) :
  resolve h m = Some (inl e) -> exists c r e', e = parseFailed c r e'.
Proof.
  destruct m as [|l|q u]; cbn; [discriminate| |].
  - destruct (h !! l); discriminate.
  - intros [= Hp]. eapply parseMeasure_error; eassumption.
Qed.

Lemma accumulate_error (h : heap) (ms : list Measurement) (e : error) :
  forall value unit,
    accumulate h ms value unit = Some (inl e) -> exists c r e', e = parseFailed c r e'.
Proof.
  induction ms as [|mm ms IH]; intros value unit; cbn; [discriminate|].
  destruct (resolve h mm) as [[err|m]|] eqn:Hr; [|apply IH|discriminate].
  intros [= <-]. eapply resolve_error; eassumption.
Qed.

Lemma convert_underflow (unitString : string) (value : float64) (unit : pUnit)
    (target : measure) :
  convert unitString value unit target = inl underflow
  <-> PUnit.product (unit_ target) = PUnit.product unit
      /\ f64_eqb (scaled value unit target) f64_zero = true.
Proof.
  unfold convert, scaled, uPoint_eqb. split.
  - case_bool_decide; cbn; [|discriminate].
    destruct (f64_eqb _ _); [now split|]. destruct (IsInf _); discriminate.
  - intros [Hd Hz]. rewrite bool_decide_eq_true_2 by assumption. cbn. now rewrite Hz.
Qed.

Lemma newOutcome_underflow (h : heap) (unitString : string) (m0 : Measurement)
    (ms : list Measurement) :
  newOutcome h unitString m0 ms = Some (inl underflow)
  <-> exists value unit target,
        reachesScaling h unitString m0 ms value unit target
        /\ f64_eqb (scaled value unit target) f64_zero = true.
Proof.
  unfold newOutcome, reachesScaling. split.
  - destruct (resolve h m0) as [[err|x0]|] eqn:Hr; [|..|discriminate].
    { intros [= ->]. apply resolve_error in Hr as (? & ? & ? & [=]). }
    destruct (accumulate h ms _ _) as [[err|[value unit]]|] eqn:Ha; [|..|discriminate].
    { intros [= ->]. apply accumulate_error in Ha as (? & ? & ? & [=]). }
    destruct (parseMeasure f64_zero unitString) as [err|target] eqn:Hp.
    { intros [= ->]. apply parseMeasure_error in Hp as (? & ? & ? & [=]). }
    intros [= Hc]. apply convert_underflow in Hc as [Hd Hz].
    exists value, unit, target. split; [|assumption]. exists x0. auto.
  - intros (value & unit & target & (x0 & Hr & Ha & Hp & Hd) & Hz).
    rewrite Hr, Ha, Hp. f_equal. apply convert_underflow. now split.
Qed.

(** C3, amended. For well-formed arguments, [New] reports the underflow
    error exactly when it reaches its scaling step and the product after
    the multiplication by [10^scaleDiff] is zero, whether or not the
    product before the scaling was zero. *)
Theorem New_underflow_iff (h : heap) (unitString : string) (m0 : Measurement)
    (ms : list Measurement) :
  Forall (validM h) (m0 :: ms) ->
  (exists r h', New unitString m0 ms h = Some ((r, Some underflow), h'))
  <-> (exists value unit target,
         reachesScaling h unitString m0 ms value unit target
         /\ f64_eqb (scaled value unit target) f64_zero = true).
Proof.
  intros Hvalid.
  destruct (New_spec unitString m0 ms h Hvalid) as (o & h1 & Hout & _ & Hnew).
  rewrite <- newOutcome_underflow, Hout, Hnew. split.
  - intros (r & h' & Hrun). destruct o as [err|x]; congruence.
  - intros [= ->]. eauto.
Qed.

(** A successful [New] allocates the measure with the scaled product, the
    target unit text and the unit accumulated from the arguments, whose
    dimension is that of the target. *)
Lemma New_success (h h' : heap) (unitString : string) (m0 : Measurement)
    (ms : list Measurement) (r : Measurement) :
  Forall (validM h) (m0 :: ms) ->
  New unitString m0 ms h = Some ((r, None), h') ->
  exists l value unit target,
    r = ptrMeasure l
    /\ reachesScaling h unitString m0 ms value unit target
    /\ h' !! l = Some {| Value := scaled value unit target; Unit := unitString;
                         unit_ := unit |}.
Proof.
  intros Hvalid Hrun.
  destruct (New_spec unitString m0 ms h Hvalid) as (o & h1 & Hout & _ & Hnew).
  rewrite Hnew in Hrun. destruct o as [err|x]; [discriminate|].
  injection Hrun as <- <-.
  unfold newOutcome in Hout.
  destruct (resolve h m0) as [[err|x0]|] eqn:Hr; try discriminate.
  destruct (accumulate h ms _ _) as [[err|[value unit]]|] eqn:Ha; try discriminate.
  destruct (parseMeasure f64_zero unitString) as [err|target] eqn:Hp; try discriminate.
  injection Hout as Hc. unfold convert, uPoint_eqb in Hc.
  case_bool_decide as Hd; cbn in Hc; [|discriminate].
  destruct (f64_eqb _ _); [discriminate|]. destruct (IsInf _); [discriminate|].
  injection Hc as <-.
  exists (length h1), value, unit, target. split; [reflexivity|]. split.
  - exists x0. auto.
  - apply lookup_alloc.
Qed.

(** C10. In a heap where the cell of [zeroValue] holds the zero measure,
    whenever [Reciprocal] or [New] returns an error, its first result is the pointer [zeroValue], not nil; the cell
    of [zeroValue] still holds the dimensionless zero measure, and the
    accessors of the result return the quantity 0 and the unit text "". *)
Theorem error_result_is_zeroValue (h : heap) :
  h !! zeroValue = Some zeroMeasure ->
  (forall mm r e h',
      Reciprocal mm h = Some ((r, Some e), h') ->
      r = ptrMeasure zeroValue
      /\ h' !! zeroValue = Some zeroMeasure
      /\ Quantity r h' = Some (f64_zero, h')
      /\ MeasurementUnit r h' = Some (""%string, h'))
  /\ (forall unitString m0 ms r e h',
      New unitString m0 ms h = Some ((r, Some e), h') ->
      r = ptrMeasure zeroValue
      /\ h' !! zeroValue = Some zeroMeasure
      /\ Quantity r h' = Some (f64_zero, h')
      /\ MeasurementUnit r h' = Some (""%string, h')).
Proof.
  intros Hz.
  assert (Hacc : forall h' : heap, h' !! zeroValue = Some zeroMeasure ->
    h' !! zeroValue = Some zeroMeasure
    /\ Quantity (ptrMeasure zeroValue) h' = Some (f64_zero, h')
    /\ MeasurementUnit (ptrMeasure zeroValue) h' = Some (""%string, h')).
  { intros h' Hz'. unfold Quantity, MeasurementUnit, bind.
    rewrite (load_Some _ _ _ Hz'). repeat split; assumption. }
  split.
  - intros mm r e h' Hrun.
    pose proof (Reciprocal_keeps_zeroValue _ _ _ _ Hz Hrun) as Hz'.
    assert (r = ptrMeasure zeroValue) as ->; [|split; [reflexivity|now apply Hacc]].
    destruct mm as [|l|q u]; [discriminate| |].
    + destruct (h !! l) as [x|] eqn:Hl.
      * rewrite (Reciprocal_ptr _ _ _ Hl) in Hrun.
        destruct (f64_eqb (Value x) f64_zero); congruence.
      * unfold Reciprocal, bind in Hrun. rewrite parse_spec in Hrun.
        unfold load in Hrun. rewrite Hl in Hrun. discriminate.
    + rewrite Reciprocal_other in Hrun.
      destruct (parseMeasure q u) as [err|x]; [congruence|].
      destruct (f64_eqb (Value x) f64_zero); congruence.
  - intros unitString m0 ms r e h' Hrun.
    pose proof (New_frame _ _ _ _ _ _ Hrun _ _ Hz) as Hz'.
    apply New_run in Hrun as [_ ->]; [|eauto].
    split; [reflexivity|now apply Hacc].
Qed.

Lemma Quantity_ptr (l : loc) (h : heap) (q : float64) :
  Quantity (ptrMeasure l) h = Some (q, h) -> exists x, h !! l = Some x /\ Value x = q.
Proof.
  unfold Quantity, bind, load. destruct (h !! l) as [x|]; [|discriminate].
  intros [= <-]. eauto.
Qed.

Lemma MeasurementUnit_ptr (l : loc) (h : heap) (u : string) :
  MeasurementUnit (ptrMeasure l) h = Some (u, h) -> exists x, h !! l = Some x /\ Unit x = u.
Proof.
  unfold MeasurementUnit, bind, load. destruct (h !! l) as [x|]; [|discriminate].
  intros [= <-]. eauto.
Qed.

(** A resolved argument with its unit text given resolves to a measure with
    its own quantity and unit text. *)
Lemma resolve_fields (h : heap) (m : Measurement) (x : measure) (q : float64) (u : string) :
  resolve h m = Some (inr x) -> unitTextGiven m ->
  Quantity m h = Some (q, h) -> MeasurementUnit m h = Some (u, h) ->
  Value x = q /\ Unit x = u.
Proof.
  destruct m as [|l|q0 u0]; cbn [resolve unitTextGiven]; [discriminate| |].
  - intros Hr _ Hq Hu. apply Quantity_ptr in Hq as (y & Hy & <-).
    apply MeasurementUnit_ptr in Hu as (z & Hz & <-).
    rewrite Hy in Hr, Hz. injection Hr as <-. injection Hz as <-. split; reflexivity.
  - intros [= Hp] Hne [= <-] [= <-]. now apply parseMeasure_fields.
Qed.

(** What [Reciprocal] does on an argument that resolves to [x]. *)
Lemma Reciprocal_resolved (h : heap) (m : Measurement) (x : measure) :
  resolve h m = Some (inr x) ->
  if f64_eqb (Value x) f64_zero then
    exists h', Reciprocal m h = Some ((ptrMeasure zeroValue, Some divideByZero), h')
  else
    exists l h', Reciprocal m h = Some ((ptrMeasure l, None), h')
      /\ h' !! l = Some (recipMeasure x)
      /\ resolve h' (ptrMeasure l) = Some (inr (recipMeasure x)).
Proof.
  destruct m as [|l|q u]; cbn [resolve]; [discriminate| |].
  - destruct (h !! l) as [y|] eqn:Hl; [|discriminate]. intros [= ->].
    rewrite (Reciprocal_ptr _ _ _ Hl).
    destruct (f64_eqb (Value x) f64_zero); [eauto|].
    exists l, (<[l := recipMeasure x]> h).
    pose proof (lookup_stored l x (recipMeasure x) h Hl) as Hl'.
    cbn. rewrite Hl'. auto.
  - intros [= Hp]. rewrite Reciprocal_other, Hp.
    destruct (f64_eqb (Value x) f64_zero); [eauto|].
    exists (length h), (h ++ [recipMeasure x]).
    pose proof (lookup_alloc h (recipMeasure x)) as Hl'.
    cbn. rewrite Hl'. auto.
Qed.

(** C5, amended. For an argument that resolves -- a [*measure], or a value
    of another implementation whose unit text is not empty and parses --
    [Reciprocal] is as the specification describes it; for an argument
    whose unit text does not parse it fails with the error of the parse. *)
Theorem Reciprocal_of_resolved (h : heap) (m : Measurement) :
  (forall x, resolve h m = Some (inr x) -> unitTextGiven m -> reciprocalAsSpecified h m)
  /\ (forall e, resolve h m = Some (inl e) ->
        Reciprocal m h = Some ((ptrMeasure zeroValue, Some e), h)).
Proof.
  split.
  - intros x Hr Hgiven q u Hq Hu.
    destruct (resolve_fields _ _ _ _ _ Hr Hgiven Hq Hu) as [<- <-].
    pose proof (Reciprocal_resolved h m x Hr) as Hrun.
    destruct (f64_eqb (Value x) f64_zero).
    + destruct Hrun as [h' Hrun]. eauto.
    + destruct Hrun as (l & h' & Hrun & Hl & _). exists l, h', x.
      split; [assumption|]. split; [assumption|].
      rewrite Hl. unfold recipMeasure. f_equal. f_equal.
      destruct (String.length (Unit x) =? 0)%nat eqn:Hlen; cbn; [|reflexivity].
      destruct (Unit x); [reflexivity|discriminate].
  - intros e Hr. destruct m as [|l|q u]; cbn in Hr; [discriminate| |].
    + destruct (h !! l); discriminate.
    + injection Hr as Hp. now rewrite Reciprocal_other, Hp.
Qed.

(** C9, amended. For an argument that resolves, with its unit text given,
    whose quantity [q] and the float64 quotient [1/q] are both nonzero,
    [Reciprocal (Reciprocal m)] succeeds and its quantity is the float64
    quotient [1/(1/q)]. *)
Theorem Reciprocal_twice (h : heap) (m : Measurement) (x : measure) (q : float64) :
  resolve h m = Some (inr x) ->
  unitTextGiven m ->
  Quantity m h = Some (q, h) ->
  f64_eqb q f64_zero = false ->
  f64_eqb (f64_div f64_one q) f64_zero = false ->
  exists l h1 h2,
    Reciprocal m h = Some ((ptrMeasure l, None), h1)
    /\ Reciprocal (ptrMeasure l) h1 = Some ((ptrMeasure l, None), h2)
    /\ Quantity (ptrMeasure l) h2 = Some (f64_div f64_one (f64_div f64_one q), h2).
Proof.
  intros Hr Hgiven Hq Hnz Hnz'.
  assert (Value x = q) as Hx.
  { destruct m as [|l|q0 u0]; cbn in Hr, Hgiven; [discriminate| |].
    - apply Quantity_ptr in Hq as (y & Hy & <-). rewrite Hy in Hr. now injection Hr as <-.
    - injection Hr as Hp. injection Hq as <-. now apply parseMeasure_fields in Hp as [? _]. }
  subst q.
  pose proof (Reciprocal_resolved h m x Hr) as Hrun. rewrite Hnz in Hrun.
  destruct Hrun as (l & h1 & Hrun & Hl & Hr1).
  pose proof (Reciprocal_ptr l (recipMeasure x) h1 Hl) as Hrun'.
  cbn [recipMeasure Value] in Hrun'. rewrite Hnz' in Hrun'.
  exists l, h1, (<[l := recipMeasure (recipMeasure x)]> h1).
  split; [assumption|]. split; [assumption|].
  unfold Quantity, bind.
  rewrite (load_Some _ _ _ (lookup_stored l _ (recipMeasure (recipMeasure x)) h1 Hl)).
  reflexivity.
Qed.

End Claims.

(** ** The claims at concrete inputs *)

(** The measures of the examples. *)
Lemma parse_examples :
  parseMeasure (f64_of 2 0) "g"
    = inr {| Value := f64_of 2 0; Unit := "g";
             unit_ := {| Dim := mkpoint [(massDim, 1)]; DimLess := []; Scale := 0 |} |}
  /\ parseMeasure f64_zero "m"
    = inr {| Value := f64_zero; Unit := "m";
             unit_ := {| Dim := mkpoint [(lengthDim, 1)]; DimLess := []; Scale := 0 |} |}
  /\ parseMeasure f64_one "badunit"
    = inl (parseFailed [] (list_ascii_of_string "badunit") symbolNotFound).
Proof. repeat split; vm_compute; reflexivity. Qed.

(** Chained division on the text [m/s/s]: the unit is [m/(s/s)], of
    dimension L, not [(m/s)/s], of dimension L T^-2. *)
Lemma chained_division_example :
  parseUnit (list_ascii_of_string "m/s/s") 0
  = Ok {| Dim := mkpoint [(lengthDim, 1)]; DimLess := []; Scale := 0 |} 5.
Proof. vm_compute. reflexivity. Qed.

Lemma chained_division_associates_right_witness :
  let data := list_ascii_of_string "m/s/s" in
  let m := {| Dim := mkpoint [(lengthDim, 1)]; DimLess := []; Scale := 0 |} in
  let s := {| Dim := mkpoint [(timeDim, 1)]; DimLess := []; Scale := 0 |} in
  parseUnit data 0
  = Ok (PUnit.Multiply m (PUnit.Reciprocal (PUnit.Multiply s (PUnit.Reciprocal s)))) 5.
Proof.
  intros data m s.
  apply (chained_division_associates_right data 0 1 2 3 4 5 m s s false false);
    vm_compute; reflexivity.
Defined.

(** On the text [dag] the prefixes [d] and [da] both match; the lookup
    yields [da]. *)
Lemma longest_match_example :
  parsePrefix (list_ascii_of_string "dag") 0 = Ok 1 2.
Proof. vm_compute. reflexivity. Qed.

Lemma lookup_longest_match_witness :
  let data := list_ascii_of_string "dag" in
  let str := string_of_list_ascii (drop 0 data) in
  let d := keyedScale.mk "d" (-1) in
  d ∈ defaultScales
  /\ HasPrefix str (keyedScale.Key d) = true
  /\ exists ks, ks ∈ defaultScales
      /\ HasPrefix str (keyedScale.Key ks) = true
      /\ parsePrefix data 0
         = Ok (keyedScale.Scale ks) (0 + String.length (keyedScale.Key ks))
      /\ forall k', k' ∈ defaultScales -> HasPrefix str (keyedScale.Key k') = true ->
           (String.length (keyedScale.Key k') <= String.length (keyedScale.Key ks))%nat
           /\ (ks = k' \/ longLess (keyedScale.Key ks) (keyedScale.Key k') = true).
Proof.
  intros data str d.
  assert (Hd : d ∈ defaultScales) by (vm_compute; repeat constructor).
  assert (Hp : HasPrefix str (keyedScale.Key d) = true) by reflexivity.
  split; [assumption|]. split; [assumption|].
  exact (proj1 (proj2 (proj2 (lookup_longest_match data 0))) d Hd Hp).
Defined.

(** C3, the claim as stated fails: [New "m" (Parse 0 "m")] reports the
    underflow error although the product before the scaling is zero. *)
Lemma New_underflow_on_zero_product :
  exists l h,
    Parse f64_zero "m" initHeap = Some ((ptrMeasure l, None), h)
    /\ ~ underflowAsSpecified h "m" (ptrMeasure l) [].
Proof.
  do 2 eexists. split; [vm_compute; reflexivity|].
  intros [Hreported _].
  destruct Hreported as (value & unit & target & (x0 & Hr & Ha & _) & Hnz & _).
  { do 2 eexists. vm_compute. reflexivity. }
  vm_compute in Hr. injection Hr as <-.
  cbn in Ha. injection Ha as <- <-.
  vm_compute in Hnz. discriminate.
Qed.

Lemma New_underflow_iff_witness :
  let h := [zeroMeasure;
            {| Value := f64_zero; Unit := "m";
               unit_ := {| Dim := mkpoint [(lengthDim, 1)]; DimLess := []; Scale := 0 |} |}] in
  Forall (validM h) [ptrMeasure 1]
  /\ exists r h', New "m" (ptrMeasure 1) [] h = Some ((r, Some underflow), h').
Proof.
  intros h.
  assert (Hvalid : Forall (validM h) [ptrMeasure 1]).
  { repeat constructor. vm_compute. eauto. }
  split; [assumption|].
  apply (New_underflow_iff h "m" (ptrMeasure 1) [] Hvalid).
  eexists _, _, _. split.
  - eexists. split; [reflexivity|]. split; [reflexivity|].
    split; [vm_compute; reflexivity|]. vm_compute. reflexivity.
  - vm_compute. reflexivity.
Defined.

(** C5, the claim as stated fails: the quantity of the argument is 1, not
    zero, and [Reciprocal] does not succeed; it returns the error of
    parsing the unit text. *)
Lemma Reciprocal_of_unparsed_text :
  ~ reciprocalAsSpecified initHeap (otherMeasurement f64_one "badunit").
Proof.
  intros Hclaim.
  specialize (Hclaim f64_one "badunit"%string eq_refl eq_refl).
  change (f64_eqb f64_one f64_zero) with false in Hclaim.
  destruct Hclaim as (l & h' & x & Hrun & _).
  vm_compute in Hrun. discriminate.
Qed.

Lemma Reciprocal_of_resolved_witness :
  let x := {| Value := f64_of 2 0; Unit := "g";
              unit_ := {| Dim := mkpoint [(massDim, 1)]; DimLess := []; Scale := 0 |} |} in
  let h := [zeroMeasure; x] in
  resolve h (ptrMeasure 1) = Some (inr x)
  /\ unitTextGiven (ptrMeasure 1)
  /\ reciprocalAsSpecified h (ptrMeasure 1).
Proof.
  intros x h. split; [reflexivity|]. split; [exact I|].
  apply (proj1 (Reciprocal_of_resolved h (ptrMeasure 1)) x); [reflexivity|exact I].
Defined.

(** C9, the claim as stated fails twice.  With the quantity 49 both calls
    succeed and the result is 49.000000000000007: the two roundings of the
    float64 division do not cancel.  With the quantity +Inf the first call
    yields 0 and the second one fails with divide-by-zero. *)
Lemma Reciprocal_twice_differs :
  (exists l h,
      Parse (f64_of 49 0) "m" initHeap = Some ((ptrMeasure l, None), h)
      /\ ~ doubleReciprocalRestores h (ptrMeasure l))
  /\ (exists l h,
      Parse f64_inf "m" initHeap = Some ((ptrMeasure l, None), h)
      /\ ~ doubleReciprocalRestores h (ptrMeasure l)).
Proof.
  split.
  - do 2 eexists. split; [vm_compute; reflexivity|].
    intros Hclaim.
    destruct (Hclaim (f64_of 49 0) eq_refl eq_refl)
      as (r1 & h1 & r2 & h2 & q2 & Hrun1 & Hrun2 & Hq & Heq).
    vm_compute in Hrun1. injection Hrun1 as <- <-.
    vm_compute in Hrun2. injection Hrun2 as <- <-.
    vm_compute in Hq. injection Hq as <-.
    vm_compute in Heq. discriminate.
  - do 2 eexists. split; [vm_compute; reflexivity|].
    intros Hclaim.
    destruct (Hclaim f64_inf eq_refl eq_refl)
      as (r1 & h1 & r2 & h2 & q2 & Hrun1 & Hrun2 & _).
    vm_compute in Hrun1. injection Hrun1 as <- <-.
    vm_compute in Hrun2. discriminate.
Qed.

(** With the quantity 2 the two quotients are exact. *)
Lemma Reciprocal_twice_exact_example :
  f64_div f64_one (f64_div f64_one (f64_of 2 0)) = f64_of 2 0
  /\ f64_eqb (f64_div f64_one (f64_div f64_one (f64_of 49 0))) (f64_of 49 0) = false
  /\ f64_div f64_one f64_inf = f64_zero.
Proof. repeat split; vm_compute; reflexivity. Qed.

Lemma Reciprocal_twice_witness :
  let x := {| Value := f64_of 2 0; Unit := "g";
              unit_ := {| Dim := mkpoint [(massDim, 1)]; DimLess := []; Scale := 0 |} |} in
  let h := [zeroMeasure; x] in
  f64_eqb (f64_of 2 0) f64_zero = false
  /\ f64_eqb (f64_div f64_one (f64_of 2 0)) f64_zero = false
  /\ exists l h1 h2,
      Reciprocal (ptrMeasure 1) h = Some ((ptrMeasure l, None), h1)
      /\ Reciprocal (ptrMeasure l) h1 = Some ((ptrMeasure l, None), h2)
      /\ Quantity (ptrMeasure l) h2
         = Some (f64_div f64_one (f64_div f64_one (f64_of 2 0)), h2).
Proof.
  intros x h. split; [reflexivity|]. split; [reflexivity|].
  apply (Reciprocal_twice h (ptrMeasure 1) x (f64_of 2 0));
    first [reflexivity | exact I].
Defined.

Lemma error_result_is_zeroValue_witness :
  initHeap !! zeroValue = Some zeroMeasure
  /\ Reciprocal (ptrMeasure zeroValue) initHeap
     = Some ((ptrMeasure zeroValue, Some divideByZero), initHeap)
  /\ ptrMeasure zeroValue = ptrMeasure zeroValue
  /\ initHeap !! zeroValue = Some zeroMeasure
  /\ Quantity (ptrMeasure zeroValue) initHeap = Some (f64_zero, initHeap)
  /\ MeasurementUnit (ptrMeasure zeroValue) initHeap = Some (""%string, initHeap).
Proof.
  assert (Hz : initHeap !! zeroValue = Some zeroMeasure) by reflexivity.
  assert (Hrun : Reciprocal (ptrMeasure zeroValue) initHeap
                 = Some ((ptrMeasure zeroValue, Some divideByZero), initHeap))
    by (vm_compute; reflexivity).
  split; [assumption|]. split; [assumption|].
  apply (proj1 (error_result_is_zeroValue initHeap Hz) _ _ _ _ Hrun).
Defined.

(** ** The tests of the package on the embedding *)

Local Open Scope string_scope.

(** TestNew *)
Example TestNew :
  observe (do m <- Must (Parse (f64_of 3 0) "m"); New "mm" m [])
    = Some (None, "mm", f64_of 3000 0)
  /\ observe (do a <- Must (Parse (f64_of 3 0) "g");
              do b <- Must (Parse (f64_of 3 0) "ml");
              do b <- Must (Reciprocal b);
              New "mg/L" a [b])
    = Some (None, "mg/L", f64_of 1000000 0)
  /\ observe (do a <- Must (Parse f64_one "g");
              do b <- Must (Parse (f64_of 2 0) "ml");
              do b <- Must (Reciprocal b);
              New "mg/(cm)^3" a [b])
    = Some (None, "mg/(cm)^3", f64_of 1 (-1))
  /\ observe (do a <- Must (Parse f64_one "g");
              do b <- Must (Parse f64_one "l");
              do b <- Must (Reciprocal b);
              New "g" a [b])
    = Some (Some wrongDimension, "", f64_zero).
Proof. repeat split; vm_compute; reflexivity. Qed.

(** TestDimensionLess *)
Example TestDimensionLess :
  observe (do a <- Must (Parse f64_one "g");
           do b <- Must (Parse (f64_of 2 0) "g");
           do b <- Must (Reciprocal b);
           New "" a [b])
    = Some (None, "", f64_of 1 (-1))
  /\ observe (do a <- Must (Parse f64_one "g");
              do b <- Must (Parse (f64_of 2 0) "g");
              do b <- Must (Reciprocal b);
              New "g / g" a [b])
    = Some (None, "g / g", f64_of 1 (-1)).
Proof. repeat split; vm_compute; reflexivity. Qed.

(** TestScaleOverflow *)
Example TestScaleOverflow :
  observe (do big <- Must (Parse f64_one "Yg"); New "yg^7" big (replicate 6 big))
    = Some (Some overflow, "", f64_zero)
  /\ observe (do big <- Must (Parse f64_one "Yg"); New "yg^6" big (replicate 5 big))
    = Some (None, "yg^6", Pow10 288).
Proof. repeat split; vm_compute; reflexivity. Qed.

(** TestValueOverflow *)
Example TestValueOverflow :
  observe (do a <- Must (Parse MaxFloat64 "g");
           do b <- Must (Parse (f64_of 2 0) "g");
           New "g^2" a [b])
    = Some (Some overflow, "", f64_zero)
  /\ observe (do a <- Must (Parse MaxFloat64 "g^2");
              do b <- Must (Parse (f64_of 2 0) "g");
              do b <- Must (Reciprocal b);
              New "g" a [b])
    = Some (None, "g", S754_finite false (2 ^ 53 - 1) 970).
Proof. repeat split; vm_compute; reflexivity. Qed.

(** TestValueUnderflow *)
Example TestValueUnderflow :
  observe (do a <- Must (Parse SmallestNonzeroFloat64 "g^2");
           do b <- Must (Parse (f64_of 2 0) "g");
           do b <- Must (Reciprocal b);
           New "g" a [b])
    = Some (Some underflow, "", f64_zero)
  /\ observe (do a <- Must (Parse SmallestNonzeroFloat64 "g"); New "dag" a [])
    = Some (Some underflow, "", f64_zero)
  /\ observe (do a <- Must (Parse SmallestNonzeroFloat64 "g"); New "dg" a [])
    = Some (None, "dg", S754_finite false 10 (-1074)).
Proof. repeat split; vm_compute; reflexivity. Qed.

(** The calls of the README through the binding, on values of another
    implementation of [Measurement]. *)
Example README_New :
  observe (New "ml" (otherMeasurement f64_one "L") [])
    = Some (None, "ml", f64_of 1000 0)
  /\ observe (New "g" (otherMeasurement f64_one "L")
                [otherMeasurement (f64_of 2 0) "g/L"])
    = Some (None, "g", f64_of 2 0).
Proof. repeat split; vm_compute; reflexivity. Qed.

(** TestParseDimensions: the texts that parse, with the dimension they
    resolve to, and the texts that do not. *)
Example TestParseDimensions :
  let dim (key : string) : option pUnit :=
    keyedUnit.Unit <$> find (fun ku => String.eqb (keyedUnit.Key ku) key) defaultUnits in
  let mul (a b : option pUnit) : option pUnit :=
    match a, b with Some x, Some y => Some (PUnit.Multiply x y) | _, _ => None end in
  let inv (a : option pUnit) : option pUnit := PUnit.Reciprocal <$> a in
  let expect (text : string) (u : option pUnit) : Prop :=
    fst <$> parsedUnit text = PUnit.product <$> u in
  expect "m" (dim "m")
  /\ expect "   m   " (dim "m")
  /\ expect "k°C" (dim "°C")
  /\ expect "k℃" (dim "°C")
  /\ parsedUnit "°C°C" = None
  /\ parsedUnit "(°C)°C" = None
  /\ parsedUnit "°C^2°C" = None
  /\ expect "°C^2 °C" ((fun u => PUnit.Exp u 3) <$> dim "°C")
  /\ expect "(m)" (dim "m")
  /\ expect "kg" (dim "g")
  /\ expect "kmol" (dim "mol")
  /\ expect "mm" (dim "m")
  /\ expect "kmol / s" (mul (dim "mol") (inv (dim "s")))
  /\ expect "g/L" (mul (dim "g") (inv (dim "L")))
  /\ expect "ug/uL" (mul (dim "g") (inv (dim "L")))
  /\ expect "s^-1" (inv (dim "s"))
  /\ expect "kg·m/s^2" (dim "N")
  /\ expect "kg·m/(s^2 s)" (mul (dim "N") (dim "Hz"))
  /\ expect "(kg·m/(s^2 s))^-1" (inv (mul (dim "N") (dim "Hz")))
  /\ expect "N/m^2" (dim "Pa")
  /\ parsedUnit "(m" = None
  /\ parsedUnit "molk" = None.
Proof. repeat split; vm_compute; reflexivity. Qed.

(** * Further properties of the package *)

(** ** The algebra of parsed units (units.go) *)

Local Close Scope string_scope.

Lemma wrap_add_wrap (w a b : Z) : wrap w (a + wrap w b) = wrap w (a + b).
Proof. rewrite (Z.add_comm a), wrap_wrap_add. f_equal. lia. Qed.

Lemma wrap_opp_wrap (w a : Z) : wrap w (- wrap w a) = wrap w (- a).
Proof.
  destruct (wrap_decomp w a) as [k ->].
  replace (- (a + 2 ^ w * k)) with (- a + 2 ^ w * (- k)) by lia. apply wrap_add_mul.
Qed.

Lemma wrap_mul_wrap (w e a : Z) : wrap w (e * wrap w a) = wrap w (e * a).
Proof.
  destruct (wrap_decomp w a) as [k ->].
  replace (e * (a + 2 ^ w * k)) with (e * a + 2 ^ w * (e * k)) by lia. apply wrap_add_mul.
Qed.

Lemma wrap_wrap (w a : Z) : wrap w (wrap w a) = wrap w a.
Proof.
  pose proof (wrap_wrap_add w a 0) as Hw. now rewrite !Z.add_0_r in Hw.
Qed.

Lemma wrap_0 (w : Z) : 0 < w -> wrap w 0 = 0.
Proof. intros Hw. apply wrap_id; [assumption|]. unfold in_range.
  assert (0 < 2 ^ (w - 1)) by (apply Z.pow_pos_nonneg; lia). lia.
Qed.

(** Componentwise laws. *)
Lemma vadd_comm (x y : uPoint) : vadd x y = vadd y x.
Proof.
  unfold vadd. revert y. induction x as [|a x IH]; intros [|b y]; cbn; try reflexivity.
  rewrite IH. unfold uc_add. now rewrite Z.add_comm.
Qed.

Lemma vadd_assoc (x y z : uPoint) : vadd (vadd x y) z = vadd x (vadd y z).
Proof.
  unfold vadd. revert y z.
  induction x as [|a x IH]; intros [|b y] [|c z]; cbn; try reflexivity.
  rewrite IH. unfold uc_add. rewrite wrap_wrap_add, wrap_add_wrap.
  now rewrite Z.add_assoc.
Qed.

Lemma vadd_length (x y : uPoint) : length x = length y -> length (vadd x y) = length x.
Proof. intros Hlen. unfold vadd. rewrite length_zip_with. lia. Qed.

Lemma vadd_zero_l (x : uPoint) :
  length x = numDim -> vadd zeroPoint x = map (wrap 8) x.
Proof.
  intros Hlen. do 9 (destruct x as [|? x]; try discriminate). reflexivity.
Qed.

Lemma vadd_vneg (x : uPoint) : length x = numDim -> vadd x (vneg x) = zeroPoint.
Proof.
  intros Hlen. do 9 (destruct x as [|? x]; try discriminate).
  unfold vadd, vneg, zeroPoint, uc_add, uc_neg. cbn.
  rewrite !wrap_add_wrap, !Z.add_opp_diag_r. reflexivity.
Qed.

(** The product of a unit without dimensionless factors is its dimension
    vector, reduced to [int8]. *)
Lemma product_normalized (d : uPoint) (s : Z) :
  length d = numDim ->
  PUnit.product {| Dim := d; DimLess := []; Scale := s |} = map (wrap 8) d.
Proof.
  intros Hlen. unfold PUnit.product. cbn [DimLess Dim app foldl].
  rewrite addPoint_vadd by (rewrite Hlen; reflexivity). now apply vadd_zero_l.
Qed.

Lemma map_wrap_vadd (x y : uPoint) : map (wrap 8) (vadd x y) = vadd x y.
Proof.
  unfold vadd. revert y. induction x as [|a x IH]; intros [|b y]; cbn; try reflexivity.
  rewrite IH. unfold uc_add. now rewrite wrap_wrap.
Qed.

Lemma map_wrap_vneg (x : uPoint) : map (wrap 8) (vneg x) = vneg x.
Proof.
  unfold vneg. induction x as [|a x IH]; cbn; [reflexivity|].
  rewrite IH. unfold uc_neg. now rewrite wrap_wrap.
Qed.

Lemma map_wrap_vscale (e : uComponent) (x : uPoint) : map (wrap 8) (vscale e x) = vscale e x.
Proof.
  unfold vscale. induction x as [|a x IH]; cbn; [reflexivity|].
  rewrite IH. unfold uc_mul. now rewrite wrap_wrap.
Qed.

(** The components of a product are [int8] values. *)
Lemma product_in_range (a : pUnit) : Forall (in_range 8) (PUnit.product a).
Proof.
  unfold PUnit.product.
  assert (Hgen : forall l r, Forall (in_range 8) r ->
             Forall (in_range 8) (foldl PUnit.addPoint r l)).
  { intros l. induction l as [|d l IH]; intros r Hr; cbn; [assumption|].
    apply IH. unfold PUnit.addPoint. rewrite rangeLoop_loopFrom.
    apply loopFrom_Forall; [|assumption].
    intros idx v r' Hr'. apply Forall_insert; [assumption|].
    apply wrap_in_range. lia. }
  apply Hgen. repeat constructor; unfold in_range; lia.
Qed.

Lemma map_wrap_in_range (x : uPoint) : Forall (in_range 8) x -> map (wrap 8) x = x.
Proof.
  induction 1 as [|a x Ha Hx IH]; cbn; [reflexivity|].
  rewrite IH, wrap_id by (assumption || lia). reflexivity.
Qed.

Lemma map_wrap_product (a : pUnit) : map (wrap 8) (PUnit.product a) = PUnit.product a.
Proof. apply map_wrap_in_range, product_in_range. Qed.

Lemma Multiply_Dim (a b : pUnit) :
  Dim (PUnit.Multiply a b) = vadd (PUnit.product a) (PUnit.product b).
Proof. cbn. apply addPoint_vadd. now rewrite !product_length. Qed.

Lemma Reciprocal_Dim (a : pUnit) :
  Dim (PUnit.Reciprocal a) = vneg (PUnit.product a).
Proof. exact (rangeLoop_map uc_neg (PUnit.product a)). Qed.

Lemma Exp_Dim (a : pUnit) (e : uComponent) :
  Dim (PUnit.Exp a e) = vscale e (PUnit.product a).
Proof. exact (rangeLoop_map (uc_mul e) (PUnit.product a)). Qed.

Lemma product_Multiply (a b : pUnit) :
  PUnit.product (PUnit.Multiply a b) = vadd (PUnit.product a) (PUnit.product b).
Proof.
  unfold PUnit.Multiply. rewrite product_normalized.
  - rewrite addPoint_vadd by now rewrite !product_length. apply map_wrap_vadd.
  - now rewrite addPoint_length, product_length.
Qed.

Lemma product_Reciprocal (a : pUnit) :
  PUnit.product (PUnit.Reciprocal a) = vneg (PUnit.product a).
Proof.
  unfold PUnit.Reciprocal. rewrite product_normalized.
  - rewrite rangeLoop_map. apply map_wrap_vneg.
  - rewrite rangeLoop_map. unfold vneg. now rewrite length_map, product_length.
Qed.

Lemma product_Exp (a : pUnit) (e : uComponent) :
  PUnit.product (PUnit.Exp a e) = vscale e (PUnit.product a).
Proof.
  unfold PUnit.Exp. rewrite product_normalized.
  - rewrite (rangeLoop_map (uc_mul e)). apply map_wrap_vscale.
  - rewrite (rangeLoop_map (uc_mul e)). now rewrite length_map, product_length.
Qed.

Lemma pUnit_eq (a b : pUnit) :
  Dim a = Dim b -> DimLess a = DimLess b -> Scale a = Scale b -> a = b.
Proof. destruct a, b; cbn; intros -> -> ->; reflexivity. Qed.

Lemma Multiply_comm (a b : pUnit) : PUnit.Multiply a b = PUnit.Multiply b a.
Proof.
  apply pUnit_eq; try reflexivity.
  - rewrite !Multiply_Dim. apply vadd_comm.
  - cbn. unfold int_add. now rewrite Z.add_comm.
Qed.

Lemma Multiply_assoc (a b c : pUnit) :
  PUnit.Multiply (PUnit.Multiply a b) c = PUnit.Multiply a (PUnit.Multiply b c).
Proof.
  apply pUnit_eq; try reflexivity.
  - rewrite !Multiply_Dim, !product_Multiply. apply vadd_assoc.
  - cbn. unfold int_add. rewrite wrap_wrap_add, wrap_add_wrap. now rewrite Z.add_assoc.
Qed.

(** X1. Multiplication of parsed units is commutative and associative,
    overflow included: the order in which [New] or the parser combines
    units does not change the unit. *)
Theorem Multiply_comm_assoc (a b c : pUnit) :
  PUnit.Multiply a b = PUnit.Multiply b a
  /\ PUnit.Multiply (PUnit.Multiply a b) c = PUnit.Multiply a (PUnit.Multiply b c).
Proof. split; [apply Multiply_comm|apply Multiply_assoc]. Qed.

(** X2. A unit multiplied by its reciprocal is the dimensionless unit
    [theZero], with scale 0, for every unit; multiplying by [theZero] only
    folds the dimensionless factors of a unit into its dimension vector. *)
Theorem Multiply_Reciprocal_cancels (a : pUnit) :
  PUnit.Multiply a (PUnit.Reciprocal a) = theZero
  /\ PUnit.Multiply a theZero
     = {| Dim := PUnit.product a; DimLess := []; Scale := wrap 64 (Scale a) |}.
Proof.
  split; apply pUnit_eq; try reflexivity.
  - rewrite Multiply_Dim, product_Reciprocal. apply vadd_vneg, product_length.
  - cbn. unfold int_add, int_neg. rewrite wrap_add_wrap, Z.add_opp_diag_r. reflexivity.
  - rewrite Multiply_Dim. change (PUnit.product theZero) with zeroPoint.
    rewrite vadd_comm, vadd_zero_l by apply product_length. apply map_wrap_product.
  - cbn. unfold int_add. now rewrite Z.add_0_r.
Qed.

(** X3. Taking the reciprocal twice gives the unit back, in normal form:
    the product as dimension vector and the same scale; a unit without
    dimensionless factors whose scale is an [int] is returned as it is. *)
Theorem Reciprocal_involutive (a : pUnit) :
  PUnit.Reciprocal (PUnit.Reciprocal a)
  = {| Dim := PUnit.product a; DimLess := []; Scale := wrap 64 (Scale a) |}
  /\ (DimLess a = [] -> length (Dim a) = numDim -> Forall (in_range 8) (Dim a) ->
      in_range 64 (Scale a) ->
      PUnit.Reciprocal (PUnit.Reciprocal a) = a).
Proof.
  assert (Hrr : PUnit.Reciprocal (PUnit.Reciprocal a)
    = {| Dim := PUnit.product a; DimLess := []; Scale := wrap 64 (Scale a) |}).
  { apply pUnit_eq; try reflexivity.
    - rewrite Reciprocal_Dim, product_Reciprocal. cbn [Dim].
      unfold vneg. rewrite map_map.
      rewrite <- (map_wrap_product a) at 2. apply map_ext. intros x.
      unfold uc_neg. rewrite wrap_opp_wrap. now rewrite Z.opp_involutive.
    - cbn. unfold int_neg. rewrite wrap_opp_wrap. now rewrite Z.opp_involutive. }
  split; [assumption|].
  intros Hless Hlen Hrange Hscale. rewrite Hrr. destruct a as [d dl s].
  cbn [Dim DimLess Scale] in *. subst dl.
  rewrite product_normalized by assumption.
  rewrite map_wrap_in_range by assumption. rewrite wrap_id by (assumption || lia).
  reflexivity.
Qed.

(** X4. The exponents 1, -1 and 0: [Exp a 1] is [a] in normal form,
    [Exp a (-1)] is the reciprocal of [a], and [Exp a 0] is the
    dimensionless unit. *)
Theorem Exp_special_exponents (a : pUnit) :
  PUnit.Exp a 1 = {| Dim := PUnit.product a; DimLess := []; Scale := wrap 64 (Scale a) |}
  /\ PUnit.Exp a (-1) = PUnit.Reciprocal a
  /\ PUnit.Exp a 0 = theZero.
Proof.
  split; [|split]; apply pUnit_eq; try reflexivity.
  - rewrite Exp_Dim. cbn [Dim]. rewrite <- (map_wrap_product a) at 2.
    unfold vscale. apply map_ext. intros x. unfold uc_mul. now rewrite Z.mul_1_l.
  - cbn. unfold int_mul. now rewrite Z.mul_1_l.
  - rewrite Exp_Dim. pose proof (product_length a) as Hlen.
    destruct (PUnit.product a) as [|? x]; [discriminate|].
    do 8 (destruct x as [|? x]; try discriminate). reflexivity.
Qed.

(** X5. Exponentiation distributes over multiplication, and two
    exponentiations in a row are one with the product of the exponents
    when that product is an [int8]. *)
Theorem Exp_composes (a b : pUnit) (e e1 e2 : uComponent) :
  PUnit.Exp (PUnit.Multiply a b) e = PUnit.Multiply (PUnit.Exp a e) (PUnit.Exp b e)
  /\ (in_range 8 (e1 * e2) ->
      PUnit.Exp (PUnit.Exp a e1) e2 = PUnit.Exp a (e1 * e2)).
Proof.
  split; [|intros _]; apply pUnit_eq; try reflexivity.
  - rewrite Exp_Dim, Multiply_Dim, product_Multiply, !product_Exp.
    unfold vscale, vadd. generalize (PUnit.product b).
    induction (PUnit.product a) as [|x xs IH]; intros [|y ys]; cbn; try reflexivity.
    rewrite IH. f_equal. unfold uc_mul, uc_add.
    rewrite wrap_mul_wrap, wrap_wrap_add, wrap_add_wrap. f_equal. lia.
  - cbn. unfold int_mul, int_add.
    rewrite wrap_mul_wrap, wrap_wrap_add, wrap_add_wrap. f_equal. lia.
  - rewrite !Exp_Dim, product_Exp. unfold vscale. rewrite map_map.
    apply map_ext. intros x. unfold uc_mul. rewrite wrap_mul_wrap. f_equal. lia.
  - cbn. unfold int_mul. rewrite wrap_mul_wrap. f_equal. lia.
Qed.

(** ** Building the tables (init.go) *)

Lemma string_compare_refl (s : string) : String.compare s s = Eq.
Proof.
  induction s as [|c s IH]; cbn; [reflexivity|].
  unfold Ascii.compare. now rewrite N.compare_refl.
Qed.

Lemma string_ltb_irrefl (s : string) : String.ltb s s = false.
Proof. unfold String.ltb. now rewrite string_compare_refl. Qed.

Lemma string_compare_lt_trans (x y z : string) :
  String.compare x y = Lt -> String.compare y z = Lt -> String.compare x z = Lt.
Proof.
  revert y z. induction x as [|a x IH]; intros [|b y] [|c z]; cbn; try congruence.
  unfold Ascii.compare.
  destruct (N.compare_spec (N_of_ascii a) (N_of_ascii b)) as [Hab|Hab|Hab];
    destruct (N.compare_spec (N_of_ascii b) (N_of_ascii c)) as [Hbc|Hbc|Hbc];
    try discriminate; intros Hxy Hyz.
  - rewrite Hab, Hbc, N.compare_refl. eapply IH; eassumption.
  - rewrite Hab. now apply N.compare_lt_iff in Hbc as ->.
  - rewrite <- Hbc. now apply N.compare_lt_iff in Hab as ->.
  - assert (Hac : (N_of_ascii a < N_of_ascii c)%N) by (etransitivity; eassumption).
    now apply N.compare_lt_iff in Hac as ->.
Qed.

Lemma string_ltb_total (x y : string) :
  x <> y -> String.ltb x y = true \/ String.ltb y x = true.
Proof.
  intros Hne. unfold String.ltb. rewrite (String.compare_antisym y x).
  destruct (String.compare x y) eqn:Hc; cbn; auto.
  apply String.compare_eq_iff in Hc. contradiction.
Qed.

(** [longLess] is a strict order that compares any two distinct strings. *)
Lemma longLess_irrefl (a : string) : longLess a a = false.
Proof. unfold longLess. rewrite Nat.eqb_refl. apply string_ltb_irrefl. Qed.

Lemma longLess_trans (a b c : string) :
  longLess a b = true -> longLess b c = true -> longLess a c = true.
Proof.
  unfold longLess.
  destruct (Nat.eqb_spec (String.length a) (String.length b)) as [Hab|Hab];
    destruct (Nat.eqb_spec (String.length b) (String.length c)) as [Hbc|Hbc];
    destruct (Nat.eqb_spec (String.length a) (String.length c)) as [Hac|Hac];
    rewrite ?Nat.ltb_lt; try lia.
  unfold String.ltb.
  destruct (String.compare a b) eqn:H1; try discriminate.
  destruct (String.compare b c) eqn:H2; try discriminate.
  now rewrite (string_compare_lt_trans _ _ _ H1 H2).
Qed.

Lemma longLess_total (a b : string) :
  a <> b -> longLess a b = true \/ longLess b a = true.
Proof.
  intros Hne. unfold longLess. rewrite (Nat.eqb_sym (String.length b)).
  destruct (Nat.eqb_spec (String.length a) (String.length b)) as [Hab|Hab].
  - now apply string_ltb_total.
  - rewrite !Nat.ltb_lt. lia.
Qed.

(** Insertion sort. *)
Lemma insertBy_Permutation {A : Type} (less : A -> A -> bool) (x : A) (l : list A) :
  insertBy less x l ≡ₚ x :: l.
Proof.
  induction l as [|y l IH]; cbn; [reflexivity|].
  destruct (less y x); [|reflexivity].
  rewrite IH. apply Permutation_swap.
Qed.

Lemma Sort_Permutation {A : Type} (less : A -> A -> bool) (l : list A) :
  Sort less l ≡ₚ l.
Proof.
  unfold Sort. induction l as [|x l IH]; cbn; [reflexivity|].
  rewrite insertBy_Permutation. now rewrite IH.
Qed.

Lemma insertBy_sorted {A : Type} (less : A -> A -> bool) (x : A) (l : list A) :
  (forall a b c, less a b = true -> less b c = true -> less a c = true) ->
  (forall y, y ∈ l -> less y x = true \/ less x y = true) ->
  StronglySorted (fun a b => less a b = true) l ->
  StronglySorted (fun a b => less a b = true) (insertBy less x l).
Proof.
  intros Htrans. induction l as [|y l IH]; intros Htotal Hsorted; cbn.
  - repeat constructor.
  - apply StronglySorted_inv in Hsorted as [Hl Hy].
    destruct (less y x) eqn:Hyx.
    + constructor.
      * apply IH; [|assumption]. intros z Hz. apply Htotal. now right.
      * apply Forall_forall. intros z Hz.
        rewrite insertBy_Permutation in Hz. apply elem_of_cons in Hz as [->|Hz]; [assumption|].
        rewrite Forall_forall in Hy. now apply Hy.
    + assert (Hxy : less x y = true).
      { destruct (Htotal y) as [?|?]; [now left|congruence|assumption]. }
      constructor; [now constructor|].
      constructor; [assumption|].
      apply Forall_forall. intros z Hz. rewrite Forall_forall in Hy.
      eapply Htrans; [eassumption|]. now apply Hy.
Qed.

Lemma Sort_longLess_sorted_aux {A : Type} (key : A -> string) (l : list A) :
  let less := fun a b => longLess (key a) (key b) in
  Sort less l ≡ₚ l
  /\ (NoDup (map key l) -> StronglySorted (fun a b => less a b = true) (Sort less l)).
Proof.
  intros less. split; [apply Sort_Permutation|].
  unfold Sort. induction l as [|x l IH]; cbn [map foldr]; intros Hnodup.
  - constructor.
  - apply NoDup_cons in Hnodup as [Hx Hl].
    apply insertBy_sorted.
    + intros a b c. apply longLess_trans.
    + intros y Hy. fold (Sort less l) in Hy. rewrite Sort_Permutation in Hy.
      apply longLess_total. intros Heq. apply Hx. rewrite <- Heq.
      apply list_elem_of_fmap. eauto.
    + now apply IH.
Qed.

(** X6. Sorting a table with [longLess] on its keys rearranges its entries
    and, when no two entries have the same key, leaves every entry before
    all entries with a shorter key or with an equally long, greater key. *)
Theorem Sort_longLess_sorted {A : Type} (key : A -> string) (l : list A) :
  let less := fun a b => longLess (key a) (key b) in
  Sort less l ≡ₚ l
  /\ (NoDup (map key l) -> StronglySorted (fun a b => less a b = true) (Sort less l)).
Proof. exact (Sort_longLess_sorted_aux key l). Qed.

Lemma duplicateKey_None (keys : list string) :
  forall seen : gset string,
    duplicateKey seen keys = None <-> NoDup keys /\ forall k, k ∈ keys -> k ∉ seen.
Proof.
  induction keys as [|k keys IH]; intros seen; cbn.
  - split; [intros _|reflexivity]. split; [constructor|].
    intros k Hk. now apply elem_of_nil in Hk.
  - case_bool_decide as Hin.
    + split; [discriminate|]. intros [_ Hseen]. exfalso.
      apply (Hseen k); [now left|assumption].
    + rewrite IH. rewrite NoDup_cons. split.
      * intros [Hnd Hseen]. split; [split; [|assumption]|].
        -- intros Hk. apply (Hseen k Hk). set_solver.
        -- intros k' Hk'. apply elem_of_cons in Hk' as [->|Hk']; [assumption|].
           specialize (Hseen k' Hk'). set_solver.
      * intros [[Hk Hnd] Hseen]. split; [assumption|].
        intros k' Hk'. assert (k' <> k) by congruence.
        specialize (Hseen k' ltac:(now right)). set_solver.
Qed.

Lemma duplicateKey_Some (keys : list string) :
  forall (seen : gset string) (k : string),
    duplicateKey seen keys = Some k ->
    exists l1 l2, keys = l1 ++ k :: l2 /\ (k ∈ seen \/ k ∈ l1).
Proof.
  induction keys as [|k0 keys IH]; intros seen k; cbn; [discriminate|].
  case_bool_decide as Hin.
  - intros [= <-]. exists [], keys. auto.
  - intros Hdup. apply IH in Hdup as (l1 & l2 & -> & Hk).
    exists (k0 :: l1), l2. split; [reflexivity|].
    destruct Hk as [Hk|Hk]; [|right; now right].
    apply elem_of_union in Hk as [Hk|Hk]; [|now left].
    apply elem_of_singleton in Hk as ->. right. now left.
Qed.

(** X7. The duplicate check of [makeScales] and [makeUnits] accepts a list
    of keys exactly when no key occurs twice, and the key it reports
    otherwise does occur twice. *)
Theorem duplicateKey_spec (keys : list string) :
  (duplicateKey ∅ keys = None <-> NoDup keys)
  /\ (forall k, duplicateKey ∅ keys = Some k ->
        exists l1 l2 l3, keys = l1 ++ k :: l2 ++ k :: l3).
Proof.
  split.
  - rewrite duplicateKey_None. split; [now intros [? _]|].
    intros Hnd. split; [assumption|]. intros k _. set_solver.
  - intros k Hdup. apply duplicateKey_Some in Hdup as (l1 & l3 & -> & [Hk|Hk]).
    + set_solver.
    + apply list_elem_of_split in Hk as (l1' & l2 & ->).
      exists l1', l2, l3. now rewrite <- app_assoc.
Qed.

(** X8. For every table without duplicate keys, the linear scan of the
    sorted table finds a longest key among those that are a prefix of the
    text: the design of the lookup does not depend on the entries. *)
Theorem sorted_scan_finds_longest {A : Type} (key : A -> string) (entries : list A)
    (str : string) (e : A) :
  let less := fun a b => longLess (key a) (key b) in
  NoDup (map key entries) ->
  find (fun a => HasPrefix str (key a)) (Sort less entries) = Some e ->
  e ∈ entries
  /\ HasPrefix str (key e) = true
  /\ forall e', e' ∈ entries -> HasPrefix str (key e') = true ->
       (String.length (key e') <= String.length (key e))%nat.
Proof.
  intros less Hnodup Hfind.
  pose proof (proj2 (Sort_longLess_sorted_aux key entries) Hnodup) as Hsorted.
  pose proof (find_some _ _ Hfind) as [Hin Hpre].
  apply list_elem_of_In in Hin. rewrite Sort_Permutation in Hin.
  split; [assumption|]. split; [assumption|].
  intros e' He' Hpre'.
  assert (He'' : e' ∈ Sort less entries) by now rewrite Sort_Permutation.
  destruct (find_sorted_first _ _ _ _ Hsorted Hfind e' He'' Hpre') as [->|Hless]; [lia|].
  now apply longLess_length.
Qed.

(** ** The parser (parse.go): bounds, termination and the units it builds *)

Lemma DecodeRune_width_le (p : list ascii) : (snd (DecodeRune p) <= length p)%nat.
Proof.
  destruct p as [|c0 [|c1 [|c2 [|c3 p]]]]; unfold DecodeRune;
    repeat case_match; cbn in *; try lia.
Qed.

Lemma string_length_of_list (l : list ascii) :
  String.length (string_of_list_ascii l) = length l.
Proof. induction l as [|c l IH]; cbn; [reflexivity|]. now rewrite IH. Qed.

Lemma String_prefix_length (k s : string) :
  String.prefix k s = true -> (String.length k <= String.length s)%nat.
Proof.
  revert s. induction k as [|c k IH]; intros [|d s]; cbn; try lia; try discriminate.
  destruct (ascii_dec c d); [|discriminate]. intros Hp. apply IH in Hp. lia.
Qed.

Lemma HasPrefix_drop_length (data : list ascii) (pos : nat) (key : string) :
  HasPrefix (string_of_list_ascii (drop pos data)) key = true ->
  (pos + String.length key <= Nat.max pos (length data))%nat.
Proof.
  intros Hp. apply String_prefix_length in Hp.
  rewrite string_length_of_list, length_drop in Hp. lia.
Qed.

Section ParserBounds.
Context `{UnicodeTables}.

Lemma indexFunc_bounds (f : Z -> bool) (s : list ascii) :
  forall fuel start i, indexFunc fuel f s start = Some i -> (start <= i < length s)%nat.
Proof.
  induction fuel as [|fuel IH]; intros start i; cbn [indexFunc]; [discriminate|].
  destruct (Nat.ltb_spec start (length s)) as [Hlt|Hge]; [|discriminate].
  repeat case_match; try (intros [= <-]; lia); intros Hi; apply IH in Hi; lia.
Qed.

Lemma scanToNonSpace_le data pos b pos' b' :
  scanToNonSpace data pos b = (pos', b') ->
  (pos <= length data -> pos' <= length data)%nat.
Proof.
  unfold scanToNonSpace. destruct (length data <=? pos)%nat eqn:Hlen.
  - intros [= <- _]. lia.
  - unfold IndexFunc. destruct (indexFunc _ _ _ 0) as [i|] eqn:Hi; intros [= <- _]; [|lia].
    apply indexFunc_bounds in Hi. rewrite length_drop in Hi. lia.
Qed.

Lemma scanDigits_le fuel data pos :
  forall idx, (idx <= length data -> scanDigits fuel data pos idx <= length data)%nat.
Proof.
  induction fuel as [|fuel IH]; intros idx Hidx; cbn [scanDigits]; [assumption|].
  destruct (Nat.ltb_spec idx (length data)) as [Hlt|Hge]; [|assumption].
  pose proof (DecodeRune_width_le (drop idx data)) as Hw. rewrite length_drop in Hw.
  destruct (DecodeRune (drop idx data)) as [v w]. cbn in Hw.
  repeat case_match; try assumption; apply IH; lia.
Qed.

Lemma parseRune_le data pos r u pos' :
  parseRune data pos r = Ok u pos' -> (pos' <= length data)%nat.
Proof.
  unfold parseRune. destruct (length data <=? pos)%nat eqn:Hlen; [discriminate|].
  apply Nat.leb_gt in Hlen.
  pose proof (DecodeRune_width_le (drop pos data)) as Hw. rewrite length_drop in Hw.
  destruct (DecodeRune (drop pos data)) as [dr width]. cbn in Hw.
  case_match; [discriminate|]. intros [= <-]. lia.
Qed.

Lemma parsePrefix_le data pos scale pos' :
  parsePrefix data pos = Ok scale pos' -> (pos' <= length data)%nat.
Proof.
  unfold parsePrefix. destruct (length data <=? pos)%nat eqn:Hlen; [discriminate|].
  apply Nat.leb_gt in Hlen. destruct (find _ _) as [k|] eqn:Hfind; [|discriminate].
  apply find_some in Hfind as [_ Hp]. apply HasPrefix_drop_length in Hp.
  intros [= _ <-]. lia.
Qed.

Lemma parseSymbol_le data pos u pos' :
  parseSymbol data pos = Ok u pos' -> (pos' <= length data)%nat.
Proof.
  unfold parseSymbol. destruct (length data <=? pos)%nat eqn:Hlen; [discriminate|].
  apply Nat.leb_gt in Hlen. destruct (find _ _) as [k|] eqn:Hfind; [|discriminate].
  apply find_some in Hfind as [_ Hp]. apply HasPrefix_drop_length in Hp.
  intros [= _ <-]. lia.
Qed.

Lemma parseTerm_le data pos u pos' :
  parseTerm data pos = Ok u pos' -> (pos' <= length data)%nat.
Proof.
  unfold parseTerm.
  destruct (parsePrefix data pos) as [scale p1|p1 e1] eqn:Hp;
    destruct (parseSymbol data p1) as [u1 p2|p2 e2] eqn:Hs;
    try (intros [= _ <-]; eapply parseSymbol_le; eassumption);
    destruct (parseSymbol data pos) as [u3 p3|p3 e3] eqn:Hs'; try discriminate;
    intros [= _ <-]; eapply parseSymbol_le; eassumption.
Qed.

Lemma parseExponent_le data pos :
  (pos <= length data)%nat ->
  (res_pos (parseExponent data pos) <= length data)%nat.
Proof.
  intros Hpos. unfold parseExponent.
  destruct (parseRune data pos 94) as [u p1|p1 e1] eqn:Hr.
  - apply parseRune_le in Hr.
    pose proof (scanDigits_le (length data) data p1 p1 Hr) as Hd.
    fold (scanToNonDigit data p1) in Hd.
    destruct (ParseInt8 _); cbn; lia.
  - apply parseRune_Err in Hr. subst. cbn. lia.
Qed.

Lemma parseExponent_Ok_le data pos e pos' :
  parseExponent data pos = Ok e pos' -> (pos <= length data -> pos' <= length data)%nat.
Proof. intros He Hpos. pose proof (parseExponent_le data pos Hpos) as Hle. now rewrite He in Hle. Qed.

Lemma parseExponent_Err_le data pos e pos' :
  parseExponent data pos = Err pos' e -> (pos <= length data -> pos' <= length data)%nat.
Proof. intros He Hpos. pose proof (parseExponent_le data pos Hpos) as Hle. now rewrite He in Hle. Qed.

Lemma parseOperand_le self data pos r :
  withinInput self data ->
  (pos <= length data)%nat ->
  parseOperand self data pos = Some r -> (res_pos r <= length data)%nat.
Proof.
  intros Hwithin Hpos. unfold parseOperand.
  destruct (scanToNonSpace data pos false) as [p1 b1] eqn:E1.
  pose proof (scanToNonSpace_le _ _ _ _ _ E1 Hpos) as Hp1.
  match goal with
  | |- match ?first with _ => _ end = _ -> _ => destruct first as [[u p3|p3 e3]|] eqn:Efirst
  end; [| |discriminate].
  - assert (Hp3 : (p3 <= length data)%nat).
    { destruct (parseRune data p1 40) as [u1 p2|p2 e2] eqn:E2.
      - apply parseRune_le in E2.
        destruct (self data p2) as [[u2 p4|p4 e4]|] eqn:E3; try discriminate.
        destruct (parseRune data p4 41) as [u4 p5|p5 e5] eqn:E4; [|discriminate].
        apply parseRune_le in E4. now injection Efirst as _ <-.
      - injection Efirst as Hterm. now apply parseTerm_le in Hterm. }
    destruct (scanToNonSpace data p3 false) as [p4 b4] eqn:E4.
    pose proof (scanToNonSpace_le _ _ _ _ _ E4 Hp3) as Hp4.
    destruct (parseExponent data p4) as [e p5|p5 e5] eqn:E5.
    + apply parseExponent_Ok_le in E5; [|assumption].
      destruct (scanToNonSpace data p5 false) as [p6 b6] eqn:E6.
      pose proof (scanToNonSpace_le _ _ _ _ _ E6 E5). now intros [= <-].
    + apply parseExponent_Err_le in E5; [|assumption]. now intros [= <-].
  - intros [= <-]. cbn.
    destruct (parseRune data p1 40) as [u1 p2|p2 e2] eqn:E2.
    + apply parseRune_le in E2.
      destruct (self data p2) as [[u2 p4|p4 e4]|] eqn:E3; try discriminate.
      * apply (Hwithin _ _ E2) in E3. cbn in E3.
        destruct (parseRune data p4 41) as [u4 p5|p5 e5] eqn:E4; [discriminate|].
        apply parseRune_Err in E4. injection Efirst as <- _. now subst.
      * apply (Hwithin _ _ E2) in E3. cbn in E3. now injection Efirst as <- _.
    + apply parseRune_Err in E2. subst p2. injection Efirst as Hterm.
      apply parseTerm_Err in Hterm. now subst.
Qed.

Lemma parseCombinator_le self data unit hadSpace pos r :
  withinInput self data ->
  (pos <= length data)%nat ->
  parseCombinator self data unit hadSpace pos = Some r -> (res_pos r <= length data)%nat.
Proof.
  intros Hwithin Hpos. unfold parseCombinator.
  destruct (parseRune data pos 47) as [u1 p1|p1 e1] eqn:E1.
  { apply parseRune_le in E1.
    destruct (self data p1) as [[u2 p2|p2 e2]|] eqn:E2; try discriminate;
      apply (Hwithin _ _ E1) in E2; now intros [= <-]. }
  apply parseRune_Err in E1. subst p1.
  destruct (parseRune data pos 183) as [u3 p3|p3 e3] eqn:E3.
  { apply parseRune_le in E3.
    destruct (self data p3) as [[u2 p2|p2 e2]|] eqn:E2; try discriminate;
      apply (Hwithin _ _ E3) in E2; now intros [= <-]. }
  apply parseRune_Err in E3. subst p3.
  destruct hadSpace; [|now intros [= <-]].
  destruct (self data pos) as [[u2 p2|p2 e2]|] eqn:E2; try discriminate;
    apply (Hwithin _ _ Hpos) in E2; now intros [= <-].
Qed.

Lemma parseUnitBody_le self data pos r :
  withinInput self data ->
  (pos <= length data)%nat ->
  parseUnitBody self data pos = Some r -> (res_pos r <= length data)%nat.
Proof.
  intros Hwithin Hpos. unfold parseUnitBody.
  destruct (parseOperand self data pos) as [[[u hs] p1|p1 e1]|] eqn:E1; try discriminate.
  - apply (parseOperand_le _ _ _ _ Hwithin Hpos) in E1. cbn in E1.
    now apply parseCombinator_le.
  - apply (parseOperand_le _ _ _ _ Hwithin Hpos) in E1. now intros [= <-].
Qed.

Lemma parseUnitFuel_withinInput fuel data : withinInput (parseUnitFuel fuel) data.
Proof.
  induction fuel as [|fuel IH]; intros p r Hp; cbn; [discriminate|].
  now apply parseUnitBody_le.
Qed.

(** X9. [parseUnit] terminates on every input: the depth of its recursion
    is at most [len(data) - pos + 1], and the result is the same whatever
    larger bound is given. *)
Theorem parseUnit_terminates (data : list ascii) (pos fuel : nat) :
  (length data - pos < fuel)%nat ->
  parseUnitFuel fuel data pos = Some (parseUnit data pos).
Proof. apply parseUnit_fuel. Qed.

(** X10. Every position that [parseUnit] returns, with a unit or with an
    error, lies between the start position and the end of the input, so
    the slices [data[:pos]] and [data[pos:]] of [makeParseError] exist; a
    unit is returned only after at least one byte. *)
Theorem parseUnit_position_in_bounds (data : list ascii) (pos : nat) :
  (pos <= length data)%nat ->
  (pos <= res_pos (parseUnit data pos) <= length data)%nat
  /\ forall u p, parseUnit data pos = Ok u p -> (pos < p)%nat.
Proof.
  intros Hpos.
  pose proof (parseUnit_fuel data pos (S (length data - pos)) ltac:(lia)) as Hrun.
  split; [split|].
  - exact (parseUnitFuel_monotone _ _ _ _ Hrun).
  - exact (parseUnitFuel_withinInput _ _ _ _ Hpos Hrun).
  - intros u p Hok. cbn [parseUnitFuel] in Hrun.
    apply (parseUnitBody_pos _ _ _ _ (parseUnitFuel_monotone _ data)) in Hrun as [_ Hlt].
    apply (Hlt u p) in Hok. lia.
Qed.
End ParserBounds.
(** ** The parser (parse.go): terms, exponents and the units it returns *)

Lemma defaultScales_Permutation : defaultScales ≡ₚ scalesLiteral.
Proof.
  replace defaultScales
    with (Sort (fun a b => longLess (keyedScale.Key a) (keyedScale.Key b)) scalesLiteral)
    by (vm_compute; reflexivity).
  apply Sort_Permutation.
Qed.

Lemma defaultUnits_Permutation : defaultUnits ≡ₚ unitsLiteral.
Proof.
  replace defaultUnits
    with (Sort (fun a b => longLess (keyedUnit.Key a) (keyedUnit.Key b)) unitsLiteral)
    by (vm_compute; reflexivity).
  apply Sort_Permutation.
Qed.

Lemma prefix_app (k1 k2 : string) (l : list ascii) :
  String.prefix k1 (string_of_list_ascii l) = true ->
  String.prefix k2 (string_of_list_ascii (drop (String.length k1) l)) = true ->
  String.prefix (k1 ++ k2) (string_of_list_ascii l) = true.
Proof.
  revert l. induction k1 as [|c k1 IH]; intros l.
  - cbn. intros _ Hp. now rewrite drop_0 in Hp.
  - change (String c k1 +:+ k2) with (String c (k1 +:+ k2)).
    destruct l as [|d l]; cbn; [discriminate|].
    destruct (ascii_dec c d); [|discriminate]. apply IH.
Qed.

Lemma string_app_length (a b : string) :
  String.length (a ++ b) = (String.length a + String.length b)%nat.
Proof.
  induction a as [|c a IH]; [reflexivity|].
  change (String c a +:+ b) with (String c (a +:+ b)). cbn. now rewrite IH.
Qed.

Lemma prefix_false_of_short (k s : string) :
  (String.length s < String.length k)%nat -> String.prefix k s = false.
Proof.
  intros Hlen. destruct (String.prefix k s) eqn:Hp; [|reflexivity].
  apply String_prefix_length in Hp. lia.
Qed.

Lemma prefix_app_inv (k1 k2 : string) (l : list ascii) :
  String.prefix (k1 ++ k2) (string_of_list_ascii l) = true ->
  String.prefix k1 (string_of_list_ascii l) = true
  /\ String.prefix k2 (string_of_list_ascii (drop (String.length k1) l)) = true.
Proof.
  revert l. induction k1 as [|c k1 IH]; intros l.
  - cbn. rewrite drop_0. intros Hp. split; [|assumption]. now destruct (string_of_list_ascii l).
  - change (String c k1 +:+ k2) with (String c (k1 +:+ k2)).
    destruct l as [|d l]; cbn; [discriminate|].
    destruct (ascii_dec c d); [|discriminate]. apply IH.
Qed.

Lemma prefix_comparable (a b s : string) :
  String.prefix a s = true -> String.prefix b s = true ->
  (String.length a <= String.length b)%nat -> String.prefix a b = true.
Proof.
  revert b s. induction a as [|c a IH]; intros b s; [now destruct b|].
  destruct s as [|d s]; cbn; [discriminate|].
  destruct (ascii_dec c d) as [->|]; [|discriminate]. intros Ha.
  destruct b as [|c' b]; cbn; [lia|].
  destruct (ascii_dec c' d) as [->|]; [|discriminate]. intros Hb Hlen.
  destruct (ascii_dec d d); [|congruence]. apply (IH b s); [assumption..|lia].
Qed.

Lemma prefix_same_length (a b : string) :
  String.prefix a b = true -> String.length a = String.length b -> a = b.
Proof.
  revert b. induction a as [|c a IH]; intros [|d b]; cbn; try discriminate; [reflexivity|].
  destruct (ascii_dec c d) as [->|]; [|discriminate].
  intros Hp [= Hlen]. f_equal. now apply IH.
Qed.

(** Where the key of a prefix starts the key of another one ([d] and
    [da]), no symbol after the shorter prefix makes a text that also starts
    with the longer one. *)
Lemma readings_do_not_overlap :
  forallb (fun ks =>
    forallb (fun ks' =>
      forallb (fun ku =>
        let k := keyedScale.Key ks in
        let k' := keyedScale.Key ks' in
        let t := (k ++ keyedUnit.Key ku)%string in
        implb (String.prefix k k' && negb (String.eqb k k'))
              (negb (String.prefix k' t || String.prefix t k')))
        unitsLiteral) scalesLiteral) scalesLiteral = true.
Proof. vm_compute. reflexivity. Qed.

Section ParserTerms.
Context `{UnicodeTables}.

Lemma parsePrefix_Ok data pos scale p :
  parsePrefix data pos = Ok scale p ->
  exists ks, ks ∈ scalesLiteral /\ scale = keyedScale.Scale ks
    /\ p = (pos + String.length (keyedScale.Key ks))%nat
    /\ HasPrefix (string_of_list_ascii (drop pos data)) (keyedScale.Key ks) = true.
Proof.
  unfold parsePrefix. destruct (length data <=? pos)%nat; [discriminate|].
  destruct (find _ _) as [ks|] eqn:Hfind; [|discriminate].
  apply find_some in Hfind as [Hin Hp]. intros [= <- <-]. exists ks.
  repeat split; try assumption.
  rewrite <- defaultScales_Permutation. now apply list_elem_of_In.
Qed.

Lemma parseSymbol_Ok data pos u p :
  parseSymbol data pos = Ok u p ->
  exists ku, ku ∈ unitsLiteral /\ u = keyedUnit.Unit ku
    /\ p = (pos + String.length (keyedUnit.Key ku))%nat
    /\ HasPrefix (string_of_list_ascii (drop pos data)) (keyedUnit.Key ku) = true.
Proof.
  unfold parseSymbol. destruct (length data <=? pos)%nat; [discriminate|].
  destruct (find _ _) as [ku|] eqn:Hfind; [|discriminate].
  apply find_some in Hfind as [Hin Hp]. intros [= <- <-]. exists ku.
  repeat split; try assumption.
  rewrite <- defaultUnits_Permutation. now apply list_elem_of_In.
Qed.

Lemma parseSymbol_Err data pos p e :
  parseSymbol data pos = Err p e ->
  p = pos
  /\ e = (if (length data <=? pos)%nat then prefixNotFound else symbolNotFound)
  /\ forall ku, ku ∈ unitsLiteral ->
       HasPrefix (string_of_list_ascii (drop pos data)) (keyedUnit.Key ku) = false.
Proof.
  unfold parseSymbol. destruct (Nat.leb_spec (length data) pos) as [Hlen|Hlen].
  - intros [= <- <-]. repeat split. intros ku Hku.
    rewrite drop_ge by assumption. cbn.
    rewrite <- defaultUnits_Permutation in Hku.
    pose proof unit_keys_nonempty as Hne. rewrite Forall_forall in Hne.
    specialize (Hne _ Hku). unfold HasPrefix. now destruct (keyedUnit.Key ku).
  - destruct (find _ _) as [ku|] eqn:Hfind; [discriminate|].
    intros [= <- <-]. repeat split. intros ku Hku.
    rewrite <- defaultUnits_Permutation in Hku. apply list_elem_of_In in Hku.
    apply (find_none _ _ Hfind) in Hku. exact Hku.
Qed.

(** X11. A term that [parseTerm] accepts is an optional prefix of the
    table of scales followed by a symbol of the table of units, read from
    the text at the start position; the unit it returns has the dimensions
    of the symbol and the scale of the prefix (0 without one), and neither
    the dimensionless factors nor the scale of the symbol's table entry. *)
Theorem parseTerm_reads_prefix_and_symbol (data : list ascii) (pos p : nat) (u : pUnit) :
  parseTerm data pos = Ok u p ->
  exists key scale ku,
    (key = ""%string /\ scale = 0 \/ keyedScale.mk key scale ∈ scalesLiteral)
    /\ ku ∈ unitsLiteral
    /\ HasPrefix (string_of_list_ascii (drop pos data)) (key ++ keyedUnit.Key ku) = true
    /\ p = (pos + String.length (key ++ keyedUnit.Key ku))%nat
    /\ u = {| Dim := Dim (keyedUnit.Unit ku); DimLess := []; Scale := scale |}.
Proof.
  unfold parseTerm.
  assert (Hplain : forall u' p', parseSymbol data pos = Ok u' p' ->
    exists key scale ku,
      (key = ""%string /\ scale = 0 \/ keyedScale.mk key scale ∈ scalesLiteral)
      /\ ku ∈ unitsLiteral
      /\ HasPrefix (string_of_list_ascii (drop pos data)) (key ++ keyedUnit.Key ku) = true
      /\ p' = (pos + String.length (key ++ keyedUnit.Key ku))%nat
      /\ {| Dim := Dim u'; DimLess := []; Scale := 0 |}
         = {| Dim := Dim (keyedUnit.Unit ku); DimLess := []; Scale := scale |}).
  { intros u' p' Hs. apply parseSymbol_Ok in Hs as (ku & Hku & -> & -> & Hp).
    exists ""%string, 0, ku. cbn. repeat split; try assumption. now left. }
  destruct (parsePrefix data pos) as [scale p1|p1 e1] eqn:Hpre.
  - apply parsePrefix_Ok in Hpre as (ks & Hks & -> & -> & Hp1).
    destruct (parseSymbol data (pos + _)) as [u2 p2|p2 e2] eqn:Hs.
    + apply parseSymbol_Ok in Hs as (ku & Hku & -> & -> & Hp2).
      intros [= <- <-]. exists (keyedScale.Key ks), (keyedScale.Scale ks), ku.
      repeat split; try assumption.
      * right. now destruct ks.
      * apply prefix_app; [assumption|]. now rewrite drop_drop.
      * rewrite string_app_length. lia.
    + destruct (parseSymbol data pos) as [u3 p3|p3 e3] eqn:Hs3; [|discriminate].
      intros [= <- <-]. exact (Hplain _ _ eq_refl).
  - pose proof (parsePrefix_pos data pos) as Hpos. rewrite Hpre in Hpos. subst p1.
    destruct (parseSymbol data pos) as [u3 p3|p3 e3] eqn:Hs3; [|discriminate].
    intros [= <- <-]. exact (Hplain _ _ eq_refl).
Qed.

(** X12. Every symbol of the table of units, alone or after any prefix of
    the table of scales, is a term that [parseTerm] reads to its end as
    that symbol with that prefix: no symbol is hidden by a prefix followed
    by another symbol, or by a longer prefix. *)
Theorem table_terms_parse (ks : keyedScale.t) (ku : keyedUnit.t) :
  ks ∈ scalesLiteral -> ku ∈ unitsLiteral ->
  let symbol := list_ascii_of_string (keyedUnit.Key ku) in
  let term := list_ascii_of_string (keyedScale.Key ks ++ keyedUnit.Key ku) in
  parseTerm symbol 0
  = Ok {| Dim := Dim (keyedUnit.Unit ku); DimLess := []; Scale := 0 |} (length symbol)
  /\ parseTerm term 0
     = Ok {| Dim := Dim (keyedUnit.Unit ku); DimLess := [];
             Scale := keyedScale.Scale ks |} (length term).
Proof.
  intros Hks Hku.
  assert (Hall : Forall (fun ku =>
      parseTerm (list_ascii_of_string (keyedUnit.Key ku)) 0
      = Ok {| Dim := Dim (keyedUnit.Unit ku); DimLess := []; Scale := 0 |}
           (length (list_ascii_of_string (keyedUnit.Key ku)))
      /\ Forall (fun ks =>
           parseTerm (list_ascii_of_string (keyedScale.Key ks ++ keyedUnit.Key ku)) 0
           = Ok {| Dim := Dim (keyedUnit.Unit ku); DimLess := [];
                   Scale := keyedScale.Scale ks |}
                (length (list_ascii_of_string (keyedScale.Key ks ++ keyedUnit.Key ku))))
         scalesLiteral) unitsLiteral).
  { unfold unitsLiteral, scalesLiteral.
    repeat (constructor;
            [split; [vm_compute; reflexivity
                    |repeat (constructor; [vm_compute; reflexivity|]); constructor]|]).
    constructor. }
  rewrite Forall_forall in Hall. destruct (Hall _ Hku) as [Hsym Hterms].
  rewrite Forall_forall in Hterms. split; [exact Hsym|exact (Hterms _ Hks)].
Qed.

(** X13. [parseTerm] fails only where the text starts with no symbol and
    with no prefix followed by a symbol; it reports the start position,
    with [prefixNotFound] at the end of the input and [symbolNotFound]
    before it. *)
Theorem parseTerm_fails_without_reading (data : list ascii) (pos p : nat) (e : error) :
  parseTerm data pos = Err p e ->
  p = pos
  /\ e = (if (length data <=? pos)%nat then prefixNotFound else symbolNotFound)
  /\ forall key ku,
       key = ""%string \/ (exists scale, keyedScale.mk key scale ∈ scalesLiteral) ->
       ku ∈ unitsLiteral ->
       HasPrefix (string_of_list_ascii (drop pos data)) (key ++ keyedUnit.Key ku) = false.
Proof.
  intros Hterm.
  assert (Hsym : parseSymbol data pos = Err p e).
  { revert Hterm. unfold parseTerm.
    destruct (parsePrefix data pos) as [scale p1|p1 e1];
      destruct (parseSymbol data p1) as [u2 p2|p2 e2]; try discriminate;
      destruct (parseSymbol data pos) as [u3 p3|p3 e3]; try discriminate;
      now intros [= <- <-]. }
  destruct (parseSymbol_Err _ _ _ _ Hsym) as (-> & -> & Hnone).
  repeat split. intros key ku [->|[scale Hks]] Hku; [now apply Hnone|].
  destruct (HasPrefix _ (key ++ _)) eqn:Hread; [exfalso|reflexivity].
  unfold HasPrefix in Hread. apply prefix_app_inv in Hread as [Hkey Hrest].
  (* the scan of the table of scales stops at a longest matching prefix *)
  set (str := string_of_list_ascii (drop pos data)) in *.
  assert (Hlen : (length data <=? pos)%nat = false).
  { apply string_of_drop_nonempty. fold str. intros Hstr. rewrite Hstr in Hkey.
    pose proof scale_keys_nonempty as Hne. rewrite Forall_forall in Hne.
    rewrite <- defaultScales_Permutation in Hks. specialize (Hne _ Hks). cbn in Hne.
    now destruct key. }
  assert (Hks' : keyedScale.mk key scale ∈ defaultScales)
    by now rewrite defaultScales_Permutation.
  destruct (find_is_Some (fun ks => HasPrefix str (keyedScale.Key ks)) _ _ Hks' Hkey)
    as (ks' & Hfind & Hin' & Hkey').
  pose proof (find_sorted_first _ _ _ _ defaultScales_sorted Hfind _ Hks' Hkey) as Hfirst.
  assert (Hpre : parsePrefix data pos
                 = Ok (keyedScale.Scale ks') (pos + String.length (keyedScale.Key ks'))).
  { unfold parsePrefix. rewrite Hlen. fold str. now rewrite Hfind. }
  assert (Hsym' : exists p2 e2,
             parseSymbol data (pos + String.length (keyedScale.Key ks')) = Err p2 e2).
  { revert Hterm. unfold parseTerm. rewrite Hpre.
    destruct (parseSymbol data (pos + _)) as [u2 p2|p2 e2]; [discriminate|]. eauto. }
  destruct Hsym' as (p2 & e2 & Hsym'). apply parseSymbol_Err in Hsym' as (_ & _ & Hnone').
  assert (Hsame : keyedScale.Key ks' = key).
  { destruct Hfirst as [->|Hless]; [reflexivity|].
    apply longLess_length in Hless. cbn in Hless.
    pose proof (prefix_comparable _ _ _ Hkey Hkey' Hless) as Hpp.
    destruct (String.eqb key (keyedScale.Key ks')) eqn:Heq;
      [now apply String.eqb_eq in Heq|exfalso].
    pose proof readings_do_not_overlap as Htab.
    rewrite forallb_forall in Htab.
    specialize (Htab _ (proj1 (list_elem_of_In _ _) Hks)).
    rewrite forallb_forall in Htab.
    rewrite defaultScales_Permutation in Hin'.
    specialize (Htab _ (proj1 (list_elem_of_In _ _) Hin')).
    rewrite forallb_forall in Htab.
    specialize (Htab _ (proj1 (list_elem_of_In _ _) Hku)).
    cbn [keyedScale.Key] in Htab. rewrite Hpp, Heq in Htab. cbn in Htab.
    apply negb_true_iff, orb_false_iff in Htab as [Ht1 Ht2].
    assert (Hread : String.prefix (key ++ keyedUnit.Key ku) str = true)
      by (apply prefix_app; assumption).
    destruct (Nat.le_ge_cases (String.length (keyedScale.Key ks'))
                (String.length (key ++ keyedUnit.Key ku))) as [Hle|Hle].
    - rewrite (prefix_comparable _ _ _ Hkey' Hread Hle) in Ht1. discriminate.
    - rewrite (prefix_comparable _ _ _ Hread Hkey' Hle) in Ht2. discriminate. }
  rewrite Hsame in Hnone'. specialize (Hnone' _ Hku).
  unfold HasPrefix in Hnone'. rewrite <- drop_drop in Hnone'. fold str in Hnone'.
  unfold str in Hrest. congruence.
Qed.

End ParserTerms.
(** ** The parser (parse.go): exponents, blank texts and normal forms *)

Lemma parseUintLoop_range (s : list ascii) :
  forall n m, 0 <= n <= 255 -> parseUintLoop s n = inr m -> 0 <= m <= 255.
Proof.
  induction s as [|c s IH]; intros n m Hn; cbn [parseUintLoop].
  - intros [= <-]. assumption.
  - assert (Hb : 0 <= byteZ c) by (unfold byteZ; lia).
    repeat case_match; try discriminate. apply IH. lia.
Qed.

Lemma ParseInt8_range (s : list ascii) (i : Z) :
  ParseInt8 s = inr i -> in_range 8 i /\ s <> [].
Proof.
  unfold ParseInt8. destruct s as [|c s]; [discriminate|].
  intros Hi. split; [|discriminate]. revert Hi.
  destruct (if byteZ c =? 43 then _ else _) as [neg t].
  unfold ParseUint8.
  destruct t as [|d t]; [discriminate|].
  destruct (parseUintLoop (d :: t) 0) as [[]|un] eqn:Hloop; try discriminate.
  - destruct neg; cbn; discriminate.
  - apply parseUintLoop_range in Hloop; [|lia].
    unfold in_range. change (2 ^ (8 - 1)) with 128.
    destruct neg; cbn [negb andb]; repeat case_match; try discriminate; intros [= <-]; lia.
Qed.

Lemma ParseInt8_error (s : list ascii) (err : error) :
  ParseInt8 s = inl err -> exists k, err = numError s k.
Proof.
  unfold ParseInt8. destruct s as [|c s]; [intros [= <-]; eauto|].
  destruct (if byteZ c =? 43 then _ else _) as [neg t].
  repeat case_match; try discriminate; intros [= <-]; eauto.
Qed.

Section ParserResults.
Context `{UnicodeTables}.

(** X14. An exponent that [parseExponent] returns was read from a caret
    and at least one further byte and lies in the range of [int8], so the
    conversion to [uComponent] keeps it.  On a failure the position is the
    start when there is no caret and the position after the caret when no
    8-bit integer follows it, with the error of [strconv.ParseInt]. *)
Theorem parseExponent_result (data : list ascii) (pos : nat) :
  (forall e p, parseExponent data pos = Ok e p ->
     in_range 8 e
     /\ exists p1, parseRune data pos 0x5E = Ok () p1 /\ (p1 < p)%nat
          /\ ParseInt8 (take (p - p1) (drop p1 data)) = inr e)
  /\ (forall p err, parseExponent data pos = Err p err ->
        (p = pos /\ err = makeRuneNotFoundError 0x5E)
        \/ (parseRune data pos 0x5E = Ok () p /\ exists num k, err = numError num k)).
Proof.
  unfold parseExponent. split.
  - intros e p. destruct (parseRune data pos 94) as [[] p1|p1 e1] eqn:Hr; [|discriminate].
    destruct (ParseInt8 _) as [err|i] eqn:Hi; [discriminate|].
    intros [= <- <-]. destruct (ParseInt8_range _ _ Hi) as [Hrange Hne].
    rewrite (wrap_id 8 i) by (lia || assumption).
    split; [assumption|]. exists p1. repeat split; [|assumption].
    pose proof (scanDigits_ge (length data) data p1 p1) as Hge.
    fold (scanToNonDigit data p1) in Hge.
    destruct (decide (scanToNonDigit data p1 = p1)) as [Heq|Hneq]; [|lia].
    rewrite Heq, Nat.sub_diag in Hne. now contradiction Hne.
  - intros p err. destruct (parseRune data pos 94) as [[] p1|p1 e1] eqn:Hr.
    + destruct (ParseInt8 _) as [err'|i] eqn:Hi; [|discriminate].
      intros [= <- <-]. right. split; [reflexivity|].
      apply ParseInt8_error in Hi as [k ->]. eauto.
    + intros [= <- <-]. left. revert Hr. unfold parseRune.
      repeat case_match; intros [= <- <-]; auto.
Qed.

Lemma parseTerm_at_end (data : list ascii) :
  parseTerm data (length data) = Err (length data) prefixNotFound.
Proof.
  unfold parseTerm, parsePrefix. rewrite Nat.leb_refl.
  unfold parseSymbol. now rewrite Nat.leb_refl.
Qed.

Lemma parseUnit_blank (data : list ascii) (pos : nat) :
  fst (scanToNonSpace data pos false) = length data ->
  parseUnit data pos = Err (length data) prefixNotFound.
Proof.
  intros Hscan. apply (inj Some). rewrite parseUnit_unfold.
  unfold parseUnitBody, parseOperand.
  destruct (scanToNonSpace data pos false) as [p1 b1]. cbn in Hscan. subst p1.
  unfold parseRune at 1. rewrite Nat.leb_refl. now rewrite parseTerm_at_end.
Qed.

Lemma normalUnit_product (u : pUnit) : normalUnit u -> PUnit.product u = Dim u.
Proof.
  destruct u as [d dl s]. intros (Hdl & Hlen & Hrange & _). cbn [Dim DimLess Scale] in *. subst dl.
  rewrite product_normalized by assumption. now apply map_wrap_in_range.
Qed.

Lemma normalUnit_Multiply (a b : pUnit) : normalUnit (PUnit.Multiply a b).
Proof.
  repeat split.
  - rewrite Multiply_Dim, <- product_Multiply. apply product_length.
  - rewrite Multiply_Dim, <- product_Multiply. apply product_in_range.
  - apply wrap_in_range. lia.
  - apply wrap_in_range. lia.
Qed.

Lemma normalUnit_Reciprocal (a : pUnit) : normalUnit (PUnit.Reciprocal a).
Proof.
  repeat split.
  - rewrite Reciprocal_Dim, <- product_Reciprocal. apply product_length.
  - rewrite Reciprocal_Dim, <- product_Reciprocal. apply product_in_range.
  - apply wrap_in_range. lia.
  - apply wrap_in_range. lia.
Qed.

Lemma normalUnit_Exp (a : pUnit) (e : uComponent) : normalUnit (PUnit.Exp a e).
Proof.
  repeat split.
  - rewrite Exp_Dim, <- product_Exp. apply product_length.
  - rewrite Exp_Dim, <- product_Exp. apply product_in_range.
  - apply wrap_in_range. lia.
  - apply wrap_in_range. lia.
Qed.

(** The entries of the two tables are within the ranges of their types. *)
Lemma unitsLiteral_in_range :
  Forall (fun ku => length (Dim (keyedUnit.Unit ku)) = numDim
                    /\ Forall (in_range 8) (Dim (keyedUnit.Unit ku))) unitsLiteral.
Proof.
  unfold unitsLiteral. repeat (constructor; [split; [reflexivity|]|]).
  all: try (vm_compute; repeat constructor; discriminate).
Qed.

Lemma scalesLiteral_in_range :
  Forall (fun ks => in_range 64 (keyedScale.Scale ks)) scalesLiteral.
Proof. unfold scalesLiteral. repeat constructor; cbn; unfold in_range; lia. Qed.

Lemma normalUnit_parseTerm (data : list ascii) (pos p : nat) (u : pUnit) :
  parseTerm data pos = Ok u p -> normalUnit u.
Proof.
  intros Hterm.
  assert (Hread : exists scale ku,
             (scale = 0 \/ exists key, keyedScale.mk key scale ∈ scalesLiteral)
             /\ ku ∈ unitsLiteral
             /\ u = {| Dim := Dim (keyedUnit.Unit ku); DimLess := []; Scale := scale |}).
  { revert Hterm. unfold parseTerm.
    destruct (parsePrefix data pos) as [scale p1|p1 e1] eqn:Hpre.
    - apply parsePrefix_Ok in Hpre as (ks & Hks & -> & -> & _).
      destruct (parseSymbol data (pos + _)) as [u2 p2|p2 e2] eqn:Hs.
      + apply parseSymbol_Ok in Hs as (ku & Hku & -> & _). intros [= <- _].
        exists (keyedScale.Scale ks), ku. repeat split; [|assumption].
        right. exists (keyedScale.Key ks). now destruct ks.
      + destruct (parseSymbol data pos) as [u3 p3|p3 e3] eqn:Hs3; [|discriminate].
        apply parseSymbol_Ok in Hs3 as (ku & Hku & -> & _). intros [= <- _].
        exists 0, ku. repeat split; [now left|assumption].
    - destruct (parseSymbol data p1) as [u3 p3|p3 e3] eqn:Hs3.
      + apply parseSymbol_Ok in Hs3 as (ku & Hku & -> & _). intros [= <- _].
        exists 0, ku. repeat split; [now left|assumption].
      + destruct (parseSymbol data pos) as [u4 p4|p4 e4] eqn:Hs4; [|discriminate].
        apply parseSymbol_Ok in Hs4 as (ku & Hku & -> & _). intros [= <- _].
        exists 0, ku. repeat split; [now left|assumption]. }
  destruct Hread as (scale & ku & Hscale & Hku & ->).
  pose proof unitsLiteral_in_range as Hu. rewrite Forall_forall in Hu.
  destruct (Hu _ Hku) as [Hlen Hrange].
  repeat split; cbn [Dim DimLess Scale]; try assumption.
  - destruct Hscale as [->|[key Hks]]; [vm_compute; intuition discriminate|].
    pose proof scalesLiteral_in_range as Hs. rewrite Forall_forall in Hs.
    apply (Hs _ Hks).
  - destruct Hscale as [->|[key Hks]]; [reflexivity|].
    pose proof scalesLiteral_in_range as Hs. rewrite Forall_forall in Hs.
    apply (Hs _ Hks).
Qed.

Lemma normalUnit_parseUnitBody self data pos u p :
  (forall q v r, self data q = Some (Ok v r) -> normalUnit v) ->
  parseUnitBody self data pos = Some (Ok u p) -> normalUnit u.
Proof.
  intros Hself. unfold parseUnitBody.
  destruct (parseOperand self data pos) as [[[u1 hs] p1|p1 e1]|] eqn:Hop; try discriminate.
  assert (Hu1 : normalUnit u1).
  { revert Hop. unfold parseOperand.
    destruct (scanToNonSpace data pos false) as [q1 b1].
    match goal with
    | |- match ?first with _ => _ end = _ -> _ =>
      destruct first as [[v q3|q3 e3]|] eqn:Efirst
    end; try discriminate.
    assert (Hv : normalUnit v).
    { destruct (parseRune data q1 40) as [[] q2|q2 e2].
      - destruct (self data q2) as [[v2 q4|q4 e4]|] eqn:Hrec; try discriminate.
        destruct (parseRune data q4 41); [|discriminate].
        injection Efirst as <- _. eapply Hself; eassumption.
      - injection Efirst as Hterm. eapply normalUnit_parseTerm; eassumption. }
    destruct (scanToNonSpace data q3 false) as [q4 b4].
    destruct (parseExponent data q4) as [e q5|q5 e5].
    - destruct (scanToNonSpace data q5 false) as [q6 b6].
      intros [= <- _ _]. apply normalUnit_Exp.
    - now intros [= <- _ _]. }
  unfold parseCombinator.
  destruct (parseRune data p1 47) as [[] p2|p2 e2].
  { destruct (self data p2) as [[v q|q e]|]; try discriminate.
    intros [= <- _]. apply normalUnit_Multiply. }
  destruct (parseRune data p2 183) as [[] p3|p3 e3].
  { destruct (self data p3) as [[v q|q e]|]; try discriminate.
    intros [= <- _]. apply normalUnit_Multiply. }
  destruct hs; [|now intros [= <- _]].
  destruct (self data p3) as [[v q|q e]|]; try discriminate.
  - intros [= <- _]. apply normalUnit_Multiply.
  - now intros [= <- _].
Qed.

Lemma normalUnit_parseUnitFuel fuel :
  forall data pos u p, parseUnitFuel fuel data pos = Some (Ok u p) -> normalUnit u.
Proof.
  induction fuel as [|fuel IH]; intros data pos u p; cbn [parseUnitFuel]; [discriminate|].
  apply normalUnit_parseUnitBody. intros q v r. apply IH.
Qed.

Lemma normalUnit_parseUnit (data : list ascii) (pos p : nat) (u : pUnit) :
  parseUnit data pos = Ok u p -> normalUnit u.
Proof.
  intros Hparse.
  apply (normalUnit_parseUnitFuel (S (length data - pos)) data pos u p).
  rewrite parseUnit_fuel by lia. now f_equal.
Qed.

(** X15. Every unit that [parseUnit] returns is in normal form: it has no
    dimensionless factors (those of the symbols [rad], [sr] and [lm] are
    not kept), its dimension vector has [numDim] components within [int8]
    and equals its own [product], and its scale is within [int]. *)
Theorem parseUnit_returns_normal_form (data : list ascii) (pos p : nat) (u : pUnit) :
  parseUnit data pos = Ok u p ->
  normalUnit u /\ PUnit.product u = Dim u.
Proof.
  intros Hparse. apply normalUnit_parseUnit in Hparse.
  split; [assumption|now apply normalUnit_product].
Qed.

End ParserResults.
(** ** The measurement operations (units.go) and the bindings (js/js.go) *)

Section MeasurementResults.
Context `{UnicodeTables}.

Lemma normalUnit_theZero : normalUnit theZero.
Proof. repeat split; cbn; try lia. repeat constructor; unfold in_range; lia. Qed.

Lemma parseMeasure_normal (q : float64) (u : string) (m : measure) :
  parseMeasure q u = inr m -> normalUnit (unit_ m).
Proof.
  unfold parseMeasure. destruct (length _ =? 0)%nat.
  - intros [= <-]. apply normalUnit_theZero.
  - destruct (parseUnit _ 0) as [unit pos|pos err] eqn:Hparse; [|discriminate].
    destruct (scanToNonSpace _ pos false) as [pos' b].
    destruct (negb _); [discriminate|]. intros [= <-]. cbn.
    eapply normalUnit_parseUnit; eassumption.
Qed.

Lemma parseMeasure_empty (q : float64) :
  parseMeasure q "" = inr {| Value := f64_zero; Unit := ""; unit_ := theZero |}.
Proof. reflexivity. Qed.

Lemma parseMeasure_split (q : float64) (u : string) (e : error) :
  parseMeasure q u = inl e ->
  exists c r e', e = parseFailed c r e' /\ c ++ r = list_ascii_of_string u.
Proof.
  unfold parseMeasure, makeParseError.
  repeat case_match; intros [= <-]; do 3 eexists; (split; [reflexivity|apply take_drop]).
Qed.

(** X16. [Parse] never panics.  It returns either a nil measurement with a
    parse error that splits the unit text at the position of the failure,
    leaving the heap as it was, or no error and a pointer to a new cell;
    the new measure has a unit in normal form and, for a non-empty text,
    the given quantity and text. *)
Theorem Parse_outcome (q : float64) (u : string) (h : heap) :
  (exists c r e, Parse q u h = Some ((nilMeasurement, Some (parseFailed c r e)), h)
     /\ c ++ r = list_ascii_of_string u)
  \/ (exists m, Parse q u h = Some ((ptrMeasure (length h), None), h ++ [m])
        /\ normalUnit (unit_ m)
        /\ (u <> ""%string -> Value m = q /\ Unit m = u)).
Proof.
  rewrite Parse_spec. destruct (parseMeasure q u) as [err|m] eqn:Hp.
  - left. apply parseMeasure_split in Hp as (c & r & e & -> & Hsplit). eauto.
  - right. exists m. split; [reflexivity|]. split.
    + eapply parseMeasure_normal; eassumption.
    + now apply parseMeasure_fields.
Qed.

(** X17. A unit text that is not empty but holds white space only is
    rejected, with [prefixNotFound] at its end, whereas the empty text is
    the dimensionless unit. *)
Theorem Parse_rejects_blank_text (q : float64) (u : string) (h : heap) :
  u <> ""%string ->
  fst (scanToNonSpace (list_ascii_of_string u) 0 false) = String.length u ->
  Parse q u h
  = Some ((nilMeasurement, Some (parseFailed (list_ascii_of_string u) [] prefixNotFound)), h).
Proof.
  intros Hne Hblank. rewrite Parse_spec. unfold parseMeasure.
  assert (Hlen : length (list_ascii_of_string u) = String.length u).
  { rewrite <- string_length_of_list. now rewrite string_of_list_ascii_of_string. }
  set (data := list_ascii_of_string u) in *.
  assert (Hpos : (length data =? 0)%nat = false).
  { apply Nat.eqb_neq. rewrite Hlen. destruct u; [congruence|cbn; lia]. }
  rewrite Hpos, parseUnit_blank by congruence.
  unfold makeParseError. now rewrite firstn_all, drop_all.
Qed.

(** Runs of [New]: what is returned without any assumption on the
    arguments. *)
Lemma newLoop_error (ms : list Measurement) :
  forall (h h' : heap) (value : float64) (unit : pUnit) (err : error),
    newLoop ms value unit h = Some (inl err, h') ->
    exists c r e, err = parseFailed c r e.
Proof.
  induction ms as [|mm ms IH]; intros h h' value unit err; cbn [newLoop].
  - discriminate.
  - unfold bind. rewrite parse_spec. destruct mm as [|l|q u]; [discriminate| |].
    + unfold load. destruct (h !! l) as [x|]; [|discriminate]. apply IH.
    + destruct (parseMeasure q u) as [e|x] eqn:Hp.
      * intros [= <- _]. eapply parseMeasure_error; eassumption.
      * rewrite (load_Some _ _ _ (lookup_alloc h x)). apply IH.
Qed.

Lemma New_ptr_result (unitString : string) (l : loc) (ms : list Measurement)
    (h h' : heap) (r : Measurement) (e : option error) :
  New unitString (ptrMeasure l) ms h = Some ((r, e), h') ->
  match e with
  | Some err =>
    (exists c t cause, err = parseFailed c t cause)
    \/ err = wrongDimension \/ err = underflow \/ err = overflow
  | None =>
    exists l' x, r = ptrMeasure l' /\ (length h <= l')%nat /\ h' !! l' = Some x
                 /\ Unit x = unitString
                 /\ f64_eqb (Value x) f64_zero = false /\ IsInf (Value x) = false
  end.
Proof.
  unfold New, bind. rewrite parse_spec.
  unfold load at 1. destruct (h !! l) as [x0|]; [|discriminate].
  destruct (newLoop ms (Value x0) (unit_ x0) h) as [[[err|[value unit]] h1]|] eqn:Hloop;
    [| |discriminate].
  { intros [= <- <- <-]. left. eapply newLoop_error; eassumption. }
  apply newLoop_prefix in Hloop. apply prefix_length in Hloop.
  rewrite Parse_spec. destruct (parseMeasure f64_zero unitString) as [err|target] eqn:Hp.
  { intros [= <- <- <-]. left. eapply parseMeasure_error; eassumption. }
  cbn [assertMeasure]. unfold ret at 1.
  rewrite (load_Some _ _ _ (lookup_alloc h1 target)).
  destruct (negb _); [intros [= <- <- <-]; auto|].
  destruct (f64_eqb _ _) eqn:Hzero; [intros [= <- <- <-]; auto|].
  destruct (IsInf _) eqn:Hinf; [intros [= <- <- <-]; auto|].
  intros [= <- <- <-]. do 2 eexists. split; [reflexivity|].
  split; [rewrite length_app; lia|]. split; [apply lookup_alloc|].
  repeat split; assumption.
Qed.

Lemma New_result (unitString : string) (m0 : Measurement) (ms : list Measurement)
    (h h' : heap) (r : Measurement) (e : option error) :
  New unitString m0 ms h = Some ((r, e), h') ->
  match e with
  | Some err =>
    (exists c t cause, err = parseFailed c t cause)
    \/ err = wrongDimension \/ err = underflow \/ err = overflow
  | None =>
    exists l' x, r = ptrMeasure l' /\ (length h <= l')%nat /\ h' !! l' = Some x
                 /\ Unit x = unitString
                 /\ f64_eqb (Value x) f64_zero = false /\ IsInf (Value x) = false
  end.
Proof.
  destruct m0 as [|l|q u]; [discriminate|apply New_ptr_result|].
  destruct (parseMeasure q u) as [err|x] eqn:Hp.
  - unfold New, bind. rewrite parse_spec, Hp. intros [= <- <- <-].
    left. eapply parseMeasure_error; eassumption.
  - rewrite (New_other _ _ _ _ _ _ Hp). intros Hrun.
    apply New_ptr_result in Hrun. destruct e as [err|]; [assumption|].
    destruct Hrun as (l' & y & -> & Hl' & Hrest). exists l', y.
    split; [reflexivity|]. split; [|assumption]. rewrite length_app in Hl'. lia.
Qed.

(** X18. [New] only allocates: whenever it returns, every cell of the heap
    holds what it held before, and a result without an error is a pointer
    to a cell that did not exist before, so it is none of the arguments;
    the new measure carries the target unit text and a quantity that is
    neither zero nor infinite. *)
Theorem New_allocates_its_result (unitString : string) (m0 : Measurement)
    (ms : list Measurement) (h h' : heap) (r : Measurement) :
  New unitString m0 ms h = Some ((r, None), h') ->
  (forall l x, h !! l = Some x -> h' !! l = Some x)
  /\ exists l' x, r = ptrMeasure l' /\ (length h <= l')%nat /\ h' !! l' = Some x
       /\ Unit x = unitString
       /\ f64_eqb (Value x) f64_zero = false /\ IsInf (Value x) = false.
Proof.
  intros Hrun. split.
  - intros l x Hl. apply New_run in Hrun as [Hpre _].
    eapply prefix_lookup_Some; eassumption.
  - exact (New_result _ _ _ _ _ _ _ Hrun).
Qed.

(** X19. The errors of [New] are the parse error of an argument or of the
    target text, [wrongDimension], [underflow] and [overflow]; the errors
    of the parser reach the caller only inside a parse error. *)
Theorem New_error_kinds (unitString : string) (m0 : Measurement)
    (ms : list Measurement) (h h' : heap) (r : Measurement) (err : error) :
  New unitString m0 ms h = Some ((r, Some err), h') ->
  (exists c t cause, err = parseFailed c t cause)
  \/ err = wrongDimension \/ err = underflow \/ err = overflow.
Proof. intros Hrun. exact (New_result _ _ _ _ _ _ _ Hrun). Qed.

Lemma accumulate_any_value (h : heap) (ms : list Measurement) :
  forall v v' u value unit,
    accumulate h ms v u = Some (inr (value, unit)) ->
    exists value', accumulate h ms v' u = Some (inr (value', unit)).
Proof.
  induction ms as [|mm ms IH]; intros v v' u value unit; cbn [accumulate].
  - intros [= _ <-]. eauto.
  - destruct (resolve h mm) as [[err|m]|]; try discriminate. apply IH.
Qed.

Lemma accumulate_Permutation (h : heap) (ms ms' : list Measurement) :
  ms ≡ₚ ms' ->
  forall v u value unit,
    accumulate h ms v u = Some (inr (value, unit)) ->
    exists value', accumulate h ms' v u = Some (inr (value', unit)).
Proof.
  induction 1 as [|x l l' Hperm IH|x y l|l l' l'' Hp1 IH1 Hp2 IH2];
    intros v u value unit; cbn [accumulate].
  - eauto.
  - destruct (resolve h x) as [[err|m]|]; try discriminate. apply IH.
  - destruct (resolve h y) as [[err|my]|]; try discriminate.
    destruct (resolve h x) as [[err|mx]|]; try discriminate.
    rewrite Multiply_assoc, (Multiply_comm (unit_ my)), <- Multiply_assoc.
    apply accumulate_any_value.
  - intros Hacc. apply IH1 in Hacc as [value1 Hacc]. now apply IH2 in Hacc.
Qed.

(** X20. The unit that the loop of [New] accumulates does not depend on
    the order of the measurements: if the loop succeeds on [ms], it
    succeeds on every permutation of [ms] with the same unit (the product
    of the quantities is a product of floats in the order given). *)
Theorem New_unit_order_independent (h h1 : heap) (ms ms' : list Measurement)
    (v value : float64) (u unit : pUnit) :
  Forall (validM h) ms -> ms ≡ₚ ms' ->
  newLoop ms v u h = Some (inr (value, unit), h1) ->
  exists value' h1', newLoop ms' v u h = Some (inr (value', unit), h1').
Proof.
  intros Hvalid Hperm Hrun.
  destruct (newLoop_spec ms h v u Hvalid) as (r & h2 & Hacc & Hloop & _).
  rewrite Hrun in Hloop. injection Hloop as <- _.
  apply (accumulate_Permutation _ _ _ Hperm) in Hacc as [value' Hacc'].
  assert (Hvalid' : Forall (validM h) ms') by now rewrite <- Hperm.
  destruct (newLoop_spec ms' h v u Hvalid') as (r' & h2' & Hacc2 & Hloop' & _).
  rewrite Hacc' in Hacc2. injection Hacc2 as <-. eauto.
Qed.

(** X21. [Reciprocal] writes to no cell but the one its argument points
    to, and to none at all when it returns an error; its result without an
    error is its argument itself when that is a [*measure], and a new cell
    otherwise. *)
Theorem Reciprocal_writes_only_its_argument (mm : Measurement) (h h' : heap)
    (r : Measurement) (e : option error) :
  Reciprocal mm h = Some ((r, e), h') ->
  (forall l x, h !! l = Some x -> mm <> ptrMeasure l -> h' !! l = Some x)
  /\ (is_Some e -> forall l x, h !! l = Some x -> h' !! l = Some x)
  /\ (e = None -> match mm with
                  | ptrMeasure l => r = mm /\ length h' = length h
                  | _ => r = ptrMeasure (length h) /\ length h' = S (length h)
                  end).
Proof.
  destruct mm as [|l|q u]; [discriminate| |].
  - destruct (h !! l) as [x|] eqn:Hl.
    + rewrite (Reciprocal_ptr _ _ _ Hl).
      destruct (f64_eqb (Value x) f64_zero); intros [= <- <- <-].
      * repeat split; try done.
      * repeat split.
        -- intros l' y Hl' Hne. rewrite list_lookup_insert_ne; [assumption|congruence].
        -- intros [? [=]].
        -- now rewrite length_insert.
    + unfold Reciprocal, bind. rewrite parse_spec. unfold load. now rewrite Hl.
  - rewrite Reciprocal_other. destruct (parseMeasure q u) as [err|x].
    + intros [= <- <- <-]. repeat split; try done.
    + destruct (f64_eqb (Value x) f64_zero); intros [= <- <- <-].
      * repeat split; try done; intros; now apply lookup_app_l_Some.
      * repeat split; try done.
        -- intros; now apply lookup_app_l_Some.
        -- rewrite length_app. cbn. lia.
Qed.

End MeasurementResults.

Section BindingResults.
Context `{UnicodeTables}.

Lemma casts_map (ms : list ulib.Measurement) :
  forall acc, foldl (fun casts v => casts ++ [ulib.cast v]) acc ms = acc ++ map ulib.cast ms.
Proof.
  induction ms as [|m ms IH]; intros acc; cbn; [now rewrite app_nil_r|].
  rewrite IH. now rewrite <- app_assoc.
Qed.

Lemma read_back (l : loc) (x : measure) (err : option error) (h : heap) :
  h !! l = Some x ->
  (do q <- Quantity (ptrMeasure l);
   do u <- MeasurementUnit (ptrMeasure l);
   ret ({| ulib.Value := q; ulib.Unit := u |}, ulib.wrapError err)) h
  = Some (({| ulib.Value := Value x; ulib.Unit := Unit x |}, ulib.wrapError err), h).
Proof.
  intros Hl. unfold Quantity, MeasurementUnit, bind, load, ret. rewrite Hl. cbn.
  now rewrite Hl.
Qed.

(** X22. [ulib.Parse] never returns an error: where [Parse] of the package
    reports one, its measurement is nil and the call of [Quantity] on it
    panics; otherwise the result carries the quantity and the text given
    (the quantity 0 for the empty text). *)
Theorem ulib_Parse_panics_on_parse_error (q : float64) (u : string) (h : heap) :
  (ulib.Parse q u h = None <-> exists m err h', Parse q u h = Some ((m, Some err), h'))
  /\ (forall a e h', ulib.Parse q u h = Some ((a, e), h') ->
        e = None
        /\ a = (if (String.length u =? 0)%nat then ulib.mk f64_zero ""
                else ulib.mk q u)).
Proof.
  assert (Hspec : ulib.Parse q u h
                  = match parseMeasure q u with
                    | inl _ => None
                    | inr m => Some (({| ulib.Value := Value m; ulib.Unit := Unit m |}, None),
                                     h ++ [m])
                    end).
  { unfold ulib.Parse. unfold bind at 1. rewrite Parse_spec.
    destruct (parseMeasure q u) as [err|m]; cbv beta iota; [reflexivity|].
    apply read_back, lookup_alloc. }
  rewrite Hspec, Parse_spec. clear Hspec.
  destruct (parseMeasure q u) as [err|m] eqn:Hp.
  - split; [|discriminate]. split; eauto.
  - split.
    + split; [discriminate|]. intros (? & ? & ? & [=]).
    + intros a e h' [= <- <- <-]. split; [reflexivity|].
      destruct u as [|c u].
      * rewrite parseMeasure_empty in Hp. now injection Hp as <-.
      * apply parseMeasure_fields in Hp as [-> ->]; [reflexivity|discriminate].
Qed.

(** X23. In a heap where the cell of [zeroValue] holds the zero measure,
    [ulib.New] never panics.  Without measurements it reports
    [notEnoughArguments] and leaves the heap as it was; whenever it
    reports an error its measurement is the zero value of the struct; and
    without an error the measurement carries the target unit text and a
    quantity that is neither zero nor infinite. *)
Theorem ulib_New_total (unitString : string) (ms : list ulib.Measurement) (h : heap) :
  h !! zeroValue = Some zeroMeasure ->
  exists a e h',
    ulib.New unitString ms h = Some ((a, e), h')
    /\ (ms = [] -> e = Some ulib.notEnoughArguments /\ h' = h)
    /\ (is_Some e -> a = ulib.mk f64_zero "")
    /\ (e = None -> ulib.Unit a = unitString
                    /\ f64_eqb (ulib.Value a) f64_zero = false
                    /\ IsInf (ulib.Value a) = false).
Proof.
  intros Hz. unfold ulib.New. destruct ms as [|m ms].
  { do 3 eexists. split; [reflexivity|]. repeat split; try done. }
  cbn [length Nat.eqb]. rewrite casts_map. cbn [map app].
  assert (Hvalid : Forall (validM h) (ulib.cast m :: map ulib.cast ms)).
  { rewrite <- (fmap_cons ulib.cast). apply Forall_fmap, Forall_true.
    intros a. unfold validM. cbn. eauto. }
  destruct (New_spec unitString _ _ h Hvalid) as (o & h1 & _ & Hpre & Hrun).
  unfold bind at 1. rewrite Hrun. destruct o as [err|x]; cbv beta iota.
  - pose proof (prefix_lookup_Some _ _ _ _ Hz Hpre) as Hz1.
    rewrite (read_back _ _ _ _ Hz1). do 3 eexists. split; [reflexivity|].
    repeat split; try done.
  - destruct (New_result _ _ _ _ _ _ _ Hrun) as (l' & y & [= <-] & _ & Hl' & Hunit & Hv).
    rewrite lookup_alloc in Hl'. injection Hl' as <-.
    rewrite (read_back _ _ _ _ (lookup_alloc h1 x)).
    do 3 eexists. split; [reflexivity|]. repeat split; try done; try apply Hv.
    intros [? [=]].
Qed.

End BindingResults.
(** ** Runes: what [parseRune] accepts *)

Lemma byteZ_range (c : ascii) : 0 <= byteZ c < 256.
Proof.
  unfold byteZ. pose proof (N_ascii_bounded c) as Hb. lia.
Qed.

Lemma land_shiftl_low (a b n : Z) :
  0 <= n -> 0 <= b < 2 ^ n -> Z.land (Z.shiftl a n) b = 0.
Proof.
  intros Hn Hb. apply Z.bits_inj'. intros k Hk.
  rewrite Z.land_spec, Z.bits_0.
  destruct (Z.lt_ge_cases k n) as [Hlt|Hge].
  - now rewrite Z.shiftl_spec_low.
  - apply andb_false_iff. right.
    destruct (Z.eq_dec b 0) as [->|Hne]; [apply Z.bits_0|].
    apply Z.bits_above_log2; [lia|].
    apply Z.log2_lt_pow2; [lia|].
    apply Z.lt_le_trans with (2 ^ n); [lia|]. apply Z.pow_le_mono_r; lia.
Qed.

Lemma lor_shiftl_low (a b n : Z) :
  0 <= n -> 0 <= b < 2 ^ n -> Z.lor (Z.shiftl a n) b = a * 2 ^ n + b.
Proof.
  intros Hn Hb. pose proof (Z.add_lor_land (Z.shiftl a n) b) as Hadd.
  rewrite land_shiftl_low in Hadd by assumption.
  rewrite Z.shiftl_mul_pow2 in * by assumption. lia.
Qed.

Lemma land_mask (a n : Z) (m : Z) :
  0 <= n -> m = Z.ones n -> Z.land a m = a mod 2 ^ n.
Proof. intros Hn ->. now apply Z.land_ones. Qed.

(** The rune of a two-byte sequence. *)
Lemma rune2 (p0 b1 : Z) :
  Z.lor (Z.shiftl (Z.land p0 0x1F) 6) (Z.land b1 0x3F) = (p0 mod 32) * 64 + b1 mod 64.
Proof.
  rewrite (land_mask p0 5), (land_mask b1 6) by (lia || reflexivity).
  rewrite lor_shiftl_low; [reflexivity|lia|].
  change (2 ^ 6) with 64. apply Z.mod_pos_bound. lia.
Qed.

Lemma rune3 (p0 b1 b2 : Z) :
  Z.lor (Z.shiftl (Z.land p0 0x0F) 12)
    (Z.lor (Z.shiftl (Z.land b1 0x3F) 6) (Z.land b2 0x3F))
  = (p0 mod 16) * 4096 + (b1 mod 64) * 64 + b2 mod 64.
Proof.
  rewrite (land_mask p0 4), (land_mask b1 6), (land_mask b2 6) by (lia || reflexivity).
  change (2 ^ 4) with 16. change (2 ^ 6) with 64.
  pose proof (Z.mod_pos_bound b1 64 ltac:(lia)).
  pose proof (Z.mod_pos_bound b2 64 ltac:(lia)).
  rewrite (lor_shiftl_low (b1 mod 64)) by (change (2 ^ 6) with 64; lia).
  rewrite lor_shiftl_low by (change (2 ^ 12) with 4096; change (2 ^ 6) with 64; lia).
  change (2 ^ 12) with 4096. change (2 ^ 6) with 64. lia.
Qed.

Lemma rune4 (p0 b1 b2 b3 : Z) :
  Z.lor (Z.shiftl (Z.land p0 0x07) 18)
    (Z.lor (Z.shiftl (Z.land b1 0x3F) 12)
       (Z.lor (Z.shiftl (Z.land b2 0x3F) 6) (Z.land b3 0x3F)))
  = (p0 mod 8) * 262144 + (b1 mod 64) * 4096 + (b2 mod 64) * 64 + b3 mod 64.
Proof.
  rewrite (land_mask p0 3), (land_mask b1 6), (land_mask b2 6), (land_mask b3 6)
    by (lia || reflexivity).
  change (2 ^ 3) with 8. change (2 ^ 6) with 64.
  pose proof (Z.mod_pos_bound b1 64 ltac:(lia)).
  pose proof (Z.mod_pos_bound b2 64 ltac:(lia)).
  pose proof (Z.mod_pos_bound b3 64 ltac:(lia)).
  rewrite (lor_shiftl_low (b2 mod 64)) by (change (2 ^ 6) with 64; lia).
  rewrite (lor_shiftl_low (b1 mod 64))
    by (change (2 ^ 12) with 4096; change (2 ^ 6) with 64; lia).
  rewrite lor_shiftl_low
    by (change (2 ^ 18) with 262144; change (2 ^ 12) with 4096; change (2 ^ 6) with 64; lia).
  change (2 ^ 18) with 262144. change (2 ^ 12) with 4096. change (2 ^ 6) with 64. lia.
Qed.

Ltac bool_facts :=
  repeat match goal with
  | H : negb _ = true |- _ => apply negb_true_iff in H
  | H : negb _ = false |- _ => apply negb_false_iff in H
  | H : (_ || _) = false |- _ => apply orb_false_iff in H as [? ?]
  | H : (_ && _) = true |- _ => apply andb_true_iff in H as [? ?]
  | H : (_ <? _) = true |- _ => apply Z.ltb_lt in H
  | H : (_ <? _) = false |- _ => apply Z.ltb_ge in H
  | H : (_ <=? _) = true |- _ => apply Z.leb_le in H
  | H : (_ <=? _) = false |- _ => apply Z.leb_gt in H
  | H : (_ =? _) = true |- _ => apply Z.eqb_eq in H
  | H : (_ =? _) = false |- _ => apply Z.eqb_neq in H
  end.

Lemma acceptRange_bounds (p0 lo hi : Z) :
  acceptRange p0 = (lo, hi) ->
  0x80 <= lo /\ hi <= 0xBF /\ (p0 = 0xE0 -> 0xA0 <= lo) /\ (p0 = 0xF0 -> 0x90 <= lo).
Proof.
  unfold acceptRange. repeat case_match; bool_facts; intros [= <- <-]; lia.
Qed.

(** The results of [utf8.DecodeRune]: the error rune, a byte below 0x80,
    a two-byte sequence, or a rune from 0x800 on. *)
Lemma DecodeRune_cases (p : list ascii) (r : Z) (w : nat) :
  DecodeRune p = (r, w) ->
  (r = RuneError /\ (w <= 1)%nat)
  \/ (w = 1%nat /\ r < 0x80 /\ exists c rest, p = c :: rest /\ byteZ c = r)
  \/ (w = 2%nat /\ exists c0 c1 rest,
        p = c0 :: c1 :: rest /\ 0xC2 <= byteZ c0 < 0xE0 /\ 0x80 <= byteZ c1 <= 0xBF
        /\ r = (byteZ c0 - 0xC0) * 64 + (byteZ c1 - 0x80))
  \/ ((3 <= w)%nat /\ 0x800 <= r).
Proof.
  unfold DecodeRune. destruct p as [|c0 p1]; [intros [= <- <-]; left; split; [reflexivity|lia]|].
  pose proof (byteZ_range c0) as Hc0.
  destruct (byteZ c0 <? 128) eqn:K0.
  { intros [= <- <-]. bool_facts. right. left. repeat split; eauto. }
  destruct ((byteZ c0 <? 194) || (244 <? byteZ c0)) eqn:K1.
  { intros [= <- <-]. left. split; [reflexivity|lia]. }
  destruct (acceptRange (byteZ c0)) as [lo hi] eqn:Hacc.
  apply acceptRange_bounds in Hacc as (Hlo & Hhi & HE0 & HF0).
  destruct (_ <? _)%nat; [intros [= <- <-]; left; split; [reflexivity|lia]|].
  destruct p1 as [|c1 p2]; [intros [= <- <-]; left; split; [reflexivity|lia]|].
  pose proof (byteZ_range c1) as Hc1.
  destruct ((byteZ c1 <? lo) || (hi <? byteZ c1)) eqn:K2;
    [intros [= <- <-]; left; split; [reflexivity|lia]|].
  bool_facts.
  destruct (byteZ c0 <? 224) eqn:K3; bool_facts.
  { cbn [Nat.leb]. rewrite rune2. intros [= <- <-]. right. right. left.
    split; [reflexivity|]. exists c0, c1, p2. repeat split; try lia.
    Z.div_mod_to_equations. lia. }
  destruct p2 as [|c2 p3];
    [destruct (byteZ c0 <? 240); cbn [Nat.leb]; intros [= <- <-]; left;
     (split; [reflexivity|lia])|].
  pose proof (byteZ_range c2) as Hc2.
  destruct (negb (is_cont (byteZ c2))) eqn:K4;
    [destruct (byteZ c0 <? 240); cbn [Nat.leb]; intros [= <- <-]; left;
     (split; [reflexivity|lia])|].
  destruct (byteZ c0 <? 240) eqn:K5; bool_facts; cbn [Nat.leb].
  { rewrite rune3. intros [= <- <-]. right. right. right. split; [lia|].
    Z.div_mod_to_equations. lia. }
  destruct p3 as [|c3 p4]; [intros [= <- <-]; left; split; [reflexivity|lia]|].
  destruct (negb (is_cont (byteZ c3))) eqn:K6;
    [intros [= <- <-]; left; split; [reflexivity|lia]|].
  rewrite rune4. intros [= <- <-]. right. right. right. split; [lia|].
  pose proof (byteZ_range c3) as Hc3. Z.div_mod_to_equations. lia.
Qed.

Lemma DecodeRune_ascii (c : ascii) (rest : list ascii) :
  byteZ c < 0x80 -> DecodeRune (c :: rest) = (byteZ c, 1%nat).
Proof. intros Hc. unfold DecodeRune. apply Z.ltb_lt in Hc. now rewrite Hc. Qed.

Lemma DecodeRune_two (c0 c1 : ascii) (rest : list ascii) :
  0xC2 <= byteZ c0 < 0xE0 -> 0x80 <= byteZ c1 <= 0xBF ->
  DecodeRune (c0 :: c1 :: rest) = ((byteZ c0 - 0xC0) * 64 + (byteZ c1 - 0x80), 2%nat).
Proof.
  intros H0 H1. unfold DecodeRune.
  destruct (Z.ltb_spec (byteZ c0) 128); [lia|].
  destruct (Z.ltb_spec (byteZ c0) 194); [lia|].
  destruct (Z.ltb_spec 244 (byteZ c0)); [lia|]. cbn [orb].
  destruct (Z.ltb_spec (byteZ c0) 224); [|lia].
  unfold acceptRange.
  destruct (Z.eqb_spec (byteZ c0) 224); [lia|].
  destruct (Z.eqb_spec (byteZ c0) 237); [lia|].
  destruct (Z.eqb_spec (byteZ c0) 240); [lia|].
  destruct (Z.eqb_spec (byteZ c0) 244); [lia|].
  cbn [length Nat.ltb Nat.leb].
  destruct (Z.ltb_spec (byteZ c1) 128); [lia|].
  destruct (Z.ltb_spec 191 (byteZ c1)); [lia|]. cbn [orb].
  rewrite rune2. f_equal. Z.div_mod_to_equations. lia.
Qed.

Lemma drop_head (data : list ascii) (pos : nat) (c : ascii) :
  data !! pos = Some c <-> exists rest, drop pos data = c :: rest.
Proof.
  split.
  - intros Hc. exists (drop (S pos) data). now apply drop_S.
  - intros [rest Hd]. rewrite <- (Nat.add_0_r pos), <- lookup_drop, Hd. reflexivity.
Qed.

Section RuneResults.
Context `{UnicodeTables}.

(** X24. [parseRune] accepts a rune below 0x80 exactly where the byte at
    the position is that rune, and then advances by one byte; it accepts
    the centre dot exactly where the two bytes at the position are its
    UTF-8 encoding C2 B7, and then advances by two bytes.  A byte B7
    alone, the Latin-1 centre dot, is not accepted. *)
Theorem parseRune_accepts (data : list ascii) (pos : nat) :
  (forall r p, 0 <= r < 0x80 ->
     (parseRune data pos r = Ok () p
      <-> p = S pos /\ exists c, data !! pos = Some c /\ byteZ c = r))
  /\ (forall p,
        parseRune data pos 0xB7 = Ok () p
        <-> p = S (S pos)
            /\ exists c0 c1, data !! pos = Some c0 /\ data !! S pos = Some c1
                 /\ byteZ c0 = 0xC2 /\ byteZ c1 = 0xB7).
Proof.
  assert (Hrun : forall r p, parseRune data pos r = Ok () p <->
            (pos < length data)%nat
            /\ exists w, DecodeRune (drop pos data) = (r, w) /\ p = (pos + w)%nat).
  { intros r p. unfold parseRune.
    destruct (Nat.leb_spec (length data) pos) as [Hlen|Hlen].
    - split; [discriminate|]. intros [? _]. lia.
    - destruct (DecodeRune (drop pos data)) as [dr width].
      destruct (Z.eqb_spec dr r) as [->|Hne]; cbn [negb].
      + split; [intros [= <-]; eauto|]. now intros [_ (w & [= <-] & ->)].
      + split; [discriminate|]. intros [_ (w & [= ? _] & _)]. contradiction. }
  split.
  - intros r p Hr. rewrite Hrun. split.
    + intros [Hlen (w & Hdec & ->)].
      apply DecodeRune_cases in Hdec
        as [[-> _]|[(-> & _ & c & rest & Hdrop & Hc)
                   |[(_ & c0 & c1 & rest & _ & ? & ? & ->)|[_ ?]]]];
        try (unfold RuneError in Hr; lia).
      split; [lia|]. exists c. split; [|assumption]. apply drop_head. eauto.
    + intros [-> (c & Hc & <-)]. split; [now apply lookup_lt_Some in Hc|].
      apply drop_head in Hc as [rest Hdrop]. exists 1%nat.
      rewrite Hdrop, DecodeRune_ascii by lia. split; [reflexivity|lia].
  - intros p. rewrite Hrun. split.
    + intros [Hlen (w & Hdec & ->)].
      apply DecodeRune_cases in Hdec
        as [[[=] _]|[(_ & ? & _)
                    |[(-> & c0 & c1 & rest & Hdrop & H0 & H1 & Hr)|[_ ?]]]];
        try lia.
      split; [lia|]. exists c0, c1.
      assert (Hc0 : data !! pos = Some c0) by (apply drop_head; eauto).
      assert (Hc1 : data !! S pos = Some c1).
      { replace (S pos) with (pos + 1)%nat by lia. rewrite <- lookup_drop, Hdrop.
        reflexivity. }
      repeat split; try assumption; lia.
    + intros [-> (c0 & c1 & Hc0 & Hc1 & H0 & H1)].
      split; [now apply lookup_lt_Some in Hc0|].
      pose proof (drop_S _ _ _ Hc0) as Hd0. pose proof (drop_S _ _ _ Hc1) as Hd1.
      rewrite Hd1 in Hd0. exists 2%nat.
      rewrite Hd0, DecodeRune_two by lia. rewrite H0, H1. split; [reflexivity|lia].
Qed.

End RuneResults.
(** ** White space, and the tables of [init] *)

Section Scanning.
Context `{UnicodeTables}.

(** The rune that [bytes.IndexFunc] tests at the byte index [i]. *)
Lemma indexFunc_found (f : Z -> bool) (s : list ascii) :
  forall fuel start i,
    indexFunc fuel f s start = Some i ->
    exists c rest, drop i s = c :: rest
      /\ f (if 0x80 <=? byteZ c then fst (DecodeRune (c :: rest)) else byteZ c) = true.
Proof.
  induction fuel as [|fuel IH]; intros start i; cbn [indexFunc]; [discriminate|].
  destruct (Nat.ltb_spec start (length s)) as [Hlt|Hge]; [|discriminate].
  destruct (drop start s) as [|c rest] eqn:Hdrop.
  { apply (f_equal length) in Hdrop. rewrite length_drop in Hdrop. cbn in Hdrop. lia. }
  destruct (0x80 <=? byteZ c) eqn:Hc.
  - destruct (DecodeRune (c :: rest)) as [r wid] eqn:Hdec.
    destruct (f r) eqn:Hf; [|apply IH].
    intros [= <-]. exists c, rest. rewrite Hdrop, Hc, Hdec. auto.
  - destruct (f (byteZ c)) eqn:Hf; [|apply IH].
    intros [= <-]. exists c, rest. rewrite Hdrop, Hc. auto.
Qed.

Lemma IndexFunc_at_head (f : Z -> bool) (c : ascii) (rest : list ascii) :
  f (if 0x80 <=? byteZ c then fst (DecodeRune (c :: rest)) else byteZ c) = true ->
  IndexFunc (c :: rest) f = Some 0%nat.
Proof.
  intros Hf. unfold IndexFunc. cbn [length indexFunc Nat.ltb Nat.leb drop].
  destruct (0x80 <=? byteZ c).
  - destruct (DecodeRune (c :: rest)) as [r wid]. cbn in Hf. now rewrite Hf.
  - now rewrite Hf.
Qed.

(** X25. [scanToNonSpace] never moves backwards, sets [hadSpace] exactly
    when it moves, and stops where a further scan stays: at the end of the
    input or at a rune that is no white space. *)
Theorem scanToNonSpace_stops (data : list ascii) (pos : nat) (hadSpace : bool) :
  let r := scanToNonSpace data pos hadSpace in
  (pos <= fst r)%nat
  /\ snd r = hadSpace || (pos <? fst r)%nat
  /\ forall b, scanToNonSpace data (fst r) b = (fst r, b).
Proof.
  unfold scanToNonSpace.
  destruct (Nat.leb_spec (length data) pos) as [Hlen|Hlen]; cbn [fst snd].
  - split; [lia|]. split.
    + rewrite Nat.ltb_irrefl. now destruct hadSpace.
    + intros b. apply Nat.leb_le in Hlen. now rewrite Hlen.
  - destruct (IndexFunc (drop pos data) _) as [idx|] eqn:Hidx; cbn [fst snd].
    + split; [lia|]. split.
      * f_equal. destruct idx as [|idx]; cbn [Nat.eqb negb].
        -- now rewrite Nat.add_0_r, Nat.ltb_irrefl.
        -- symmetry. apply Nat.ltb_lt. lia.
      * intros b. unfold IndexFunc in Hidx.
        pose proof (indexFunc_bounds _ _ _ _ _ Hidx) as Hb. rewrite length_drop in Hb.
        destruct (indexFunc_found _ _ _ _ _ Hidx) as (c & rest & Hdrop & Hf).
        rewrite drop_drop in Hdrop.
        destruct (Nat.leb_spec (length data) (pos + idx)) as [?|_]; [lia|].
        rewrite Hdrop, (IndexFunc_at_head _ _ _ Hf). cbn [Nat.eqb negb].
        rewrite Nat.add_0_r. now destruct b.
    + split; [lia|]. split.
      * f_equal. symmetry. now apply Nat.ltb_lt.
      * intros b. now rewrite Nat.leb_refl.
Qed.

End Scanning.

(** X26. [init] does not panic: neither table has a duplicate key, and
    [makeScales] and [makeUnits] return the entries of their literals,
    each exactly once, with longer keys before shorter ones. *)
Theorem init_builds_the_tables :
  makeScales = inr defaultScales /\ makeUnits = inr defaultUnits
  /\ defaultScales ≡ₚ scalesLiteral /\ defaultUnits ≡ₚ unitsLiteral
  /\ NoDup (map keyedScale.Key defaultScales) /\ NoDup (map keyedUnit.Key defaultUnits)
  /\ StronglySorted scaleLess defaultScales /\ StronglySorted unitLess defaultUnits.
Proof.
  split; [exact makeScales_ok|]. split; [exact makeUnits_ok|].
  split; [exact defaultScales_Permutation|]. split; [exact defaultUnits_Permutation|].
  split; [|split; [|split; [exact defaultScales_sorted|exact defaultUnits_sorted]]].
  - apply (bool_decide_unpack _). vm_compute. reflexivity.
  - apply (bool_decide_unpack _). vm_compute. reflexivity.
Qed.
(** ** Printing a point ([uPoint.String]) *)

Lemma Join_empty (elems : list string) (sep : string) :
  Forall (fun e => e <> ""%string) elems ->
  Join elems sep = ""%string -> elems = [].
Proof.
  destruct elems as [|e rest]; [reflexivity|]. intros Hne. apply Forall_cons in Hne as [He _].
  cbn [Join]. destruct rest as [|e' rest].
  - intros ->. now contradiction He.
  - intros Hjoin. destruct e; [now contradiction He|discriminate].
Qed.

Lemma term_nonempty (label num : string) : (label ++ "^" ++ num)%string <> ""%string.
Proof. destruct label; discriminate. Qed.

Lemma terms_loop (a : uPoint) :
  forall (k : nat) (acc : list string),
    let terms :=
      loopFrom (fun idx v terms =>
        if v =? 0 then terms
        else
          let label := if (idx <? length UPoint.labels)%nat
                       then nth idx UPoint.labels "X"%string else "X"%string in
          terms ++ [(label ++ "^" ++ FormatInt v)%string]) k a acc in
    (Forall (fun e => e <> ""%string) acc -> Forall (fun e => e <> ""%string) terms)
    /\ (terms = [] <-> acc = [] /\ Forall (fun v => v = 0) a).
Proof.
  induction a as [|v a IH]; intros k acc; cbn [loopFrom].
  - split; [auto|]. split; [auto|now intros [-> _]].
  - destruct (Z.eqb_spec v 0) as [->|Hv].
    + destruct (IH (S k) acc) as [Hne Hiff]. split; [exact Hne|].
      cbn zeta in Hiff. rewrite Hiff. split.
      * intros [-> Hall]. auto.
      * intros [-> Hall]. apply Forall_cons in Hall as [_ Hall]. auto.
    + specialize (IH (S k)). cbn zeta in IH.
      match goal with
      | |- context [loopFrom _ _ _ (acc ++ [?t])] => destruct (IH (acc ++ [t])) as [Hne Hiff]
      end.
      split.
      * intros Hacc. apply Hne. apply Forall_app. split; [assumption|].
        constructor; [apply term_nonempty|constructor].
      * rewrite Hiff. split.
        -- intros [Happ _]. now destruct acc.
        -- intros [_ Hall]. apply Forall_cons in Hall as [? _]. contradiction.
Qed.

(** X27. [String] prints the empty text exactly for a point whose
    components are all zero: every other point prints at least one
    term. *)
Theorem String_empty_iff_zero (a : uPoint) :
  UPoint.String a = ""%string <-> Forall (fun v => v = 0) a.
Proof.
  unfold UPoint.String. rewrite rangeLoop_loopFrom.
  destruct (terms_loop a 0 []) as [Hne Hiff]. cbn zeta in Hne, Hiff.
  split.
  - intros Hjoin. apply Join_empty in Hjoin; [|apply Hne; constructor].
    now apply Hiff in Hjoin as [_ Hall].
  - intros Hall. rewrite (proj2 Hiff (conj eq_refl Hall)). reflexivity.
Qed.
(** ** Instances of the properties above *)

Lemma Reciprocal_involutive_witness :
  PUnit.Reciprocal
    (PUnit.Reciprocal {| Dim := [0; 0; 1; 0; 0; -2; 0; 0]; DimLess := []; Scale := 3 |})
  = {| Dim := [0; 0; 1; 0; 0; -2; 0; 0]; DimLess := []; Scale := 3 |}.
Proof.
  apply (proj2 (Reciprocal_involutive
                  {| Dim := [0; 0; 1; 0; 0; -2; 0; 0]; DimLess := []; Scale := 3 |})).
  - reflexivity.
  - reflexivity.
  - repeat constructor; unfold in_range; cbn; lia.
  - unfold in_range; cbn; lia.
Defined.

Lemma Exp_composes_witness :
  in_range 8 (2 * 3)
  /\ PUnit.Exp (PUnit.Exp {| Dim := [0; 0; 1; 0; 0; -2; 0; 0]; DimLess := []; Scale := 3 |} 2) 3
     = PUnit.Exp {| Dim := [0; 0; 1; 0; 0; -2; 0; 0]; DimLess := []; Scale := 3 |} (2 * 3).
Proof.
  assert (Hrange : in_range 8 (2 * 3)) by (unfold in_range; cbn; lia).
  split; [exact Hrange|].
  exact (proj2 (Exp_composes
                  {| Dim := [0; 0; 1; 0; 0; -2; 0; 0]; DimLess := []; Scale := 3 |}
                  theZero 1 2 3) Hrange).
Defined.

Lemma Sort_longLess_sorted_witness :
  NoDup (map id ["m"; "da"; "d"]%string)
  /\ StronglySorted (fun a b => longLess (id a) (id b) = true)
       (Sort (fun a b => longLess (id a) (id b)) ["m"; "da"; "d"]%string).
Proof.
  assert (Hnodup : NoDup (map id ["m"; "da"; "d"]%string))
    by (apply (bool_decide_unpack _); vm_compute; reflexivity).
  split; [exact Hnodup|].
  exact (proj2 (Sort_longLess_sorted id ["m"; "da"; "d"]%string) Hnodup).
Defined.

Lemma duplicateKey_spec_witness :
  duplicateKey ∅ ["a"; "b"; "a"]%string = Some "a"%string
  /\ exists l1 l2 l3, ["a"; "b"; "a"]%string = l1 ++ "a"%string :: l2 ++ "a"%string :: l3.
Proof.
  assert (Hdup : duplicateKey ∅ ["a"; "b"; "a"]%string = Some "a"%string)
    by (vm_compute; reflexivity).
  split; [exact Hdup|].
  exact (proj2 (duplicateKey_spec ["a"; "b"; "a"]%string) "a"%string Hdup).
Defined.

Lemma sorted_scan_finds_longest_witness :
  HasPrefix "dam" (keyedScale.Key (keyedScale.mk "da" 1)) = true
  /\ forall e', e' ∈ scalesLiteral -> HasPrefix "dam" (keyedScale.Key e') = true ->
       (String.length (keyedScale.Key e') <= 2)%nat.
Proof.
  apply (sorted_scan_finds_longest keyedScale.Key scalesLiteral "dam" (keyedScale.mk "da" 1)).
  - apply (bool_decide_unpack _). vm_compute. reflexivity.
  - vm_compute. reflexivity.
Defined.

Lemma parseUnit_terminates_witness :
  parseUnitFuel 10 (list_ascii_of_string "m/s") 0
  = Some (parseUnit (list_ascii_of_string "m/s") 0).
Proof. apply parseUnit_terminates. cbn. lia. Defined.

Lemma parseUnit_position_in_bounds_witness :
  (0 <= res_pos (parseUnit (list_ascii_of_string "m/s") 0)
   <= length (list_ascii_of_string "m/s"))%nat
  /\ forall u p, parseUnit (list_ascii_of_string "m/s") 0 = Ok u p -> (0 < p)%nat.
Proof. apply parseUnit_position_in_bounds. cbn. lia. Defined.

Lemma parseTerm_reads_prefix_and_symbol_witness :
  exists key scale ku,
    (key = ""%string /\ scale = 0 \/ keyedScale.mk key scale ∈ scalesLiteral)
    /\ ku ∈ unitsLiteral
    /\ HasPrefix (string_of_list_ascii (drop 0 (list_ascii_of_string "km")))
         (key ++ keyedUnit.Key ku) = true
    /\ 2%nat = (0 + String.length (key ++ keyedUnit.Key ku))%nat
    /\ {| Dim := [0; 0; 1; 0; 0; 0; 0; 0]; DimLess := []; Scale := 3 |}
       = {| Dim := Dim (keyedUnit.Unit ku); DimLess := []; Scale := scale |}.
Proof.
  apply (parseTerm_reads_prefix_and_symbol (list_ascii_of_string "km") 0 2).
  vm_compute. reflexivity.
Defined.

Lemma table_terms_parse_witness :
  parseTerm (list_ascii_of_string "m") 0
  = Ok {| Dim := [0; 0; 1; 0; 0; 0; 0; 0]; DimLess := []; Scale := 0 |} 1
  /\ parseTerm (list_ascii_of_string "km") 0
     = Ok {| Dim := [0; 0; 1; 0; 0; 0; 0; 0]; DimLess := []; Scale := 3 |} 2.
Proof.
  apply (table_terms_parse (keyedScale.mk "k" 3)
           (keyedUnit.mk "m" (mkPUnit (mkpoint [(lengthDim, 1)]) [] 0))).
  - unfold scalesLiteral. do 2 apply list_elem_of_further. apply list_elem_of_here.
  - unfold unitsLiteral. apply list_elem_of_here.
Defined.

Lemma parseTerm_fails_without_reading_witness :
  0%nat = 0%nat
  /\ symbolNotFound
     = (if (length (list_ascii_of_string "xyz") <=? 0)%nat
        then prefixNotFound else symbolNotFound)
  /\ forall key ku,
       key = ""%string \/ (exists scale, keyedScale.mk key scale ∈ scalesLiteral) ->
       ku ∈ unitsLiteral ->
       HasPrefix (string_of_list_ascii (drop 0 (list_ascii_of_string "xyz")))
         (key ++ keyedUnit.Key ku) = false.
Proof.
  apply (parseTerm_fails_without_reading (list_ascii_of_string "xyz") 0 0 symbolNotFound).
  vm_compute. reflexivity.
Defined.

Lemma parseExponent_result_witness :
  parseExponent (list_ascii_of_string "^-2") 0 = Ok (-2) 3
  /\ in_range 8 (-2).
Proof.
  assert (Hrun : parseExponent (list_ascii_of_string "^-2") 0 = Ok (-2) 3)
    by (vm_compute; reflexivity).
  split; [exact Hrun|].
  exact (proj1 (proj1 (parseExponent_result (list_ascii_of_string "^-2") 0) (-2) 3%nat Hrun)).
Defined.

Lemma parseUnit_returns_normal_form_witness :
  normalUnit {| Dim := [0; 0; 1; 0; 0; -1; 0; 0]; DimLess := []; Scale := 0 |}
  /\ PUnit.product {| Dim := [0; 0; 1; 0; 0; -1; 0; 0]; DimLess := []; Scale := 0 |}
     = [0; 0; 1; 0; 0; -1; 0; 0].
Proof.
  apply (parseUnit_returns_normal_form (list_ascii_of_string "m/s") 0 3).
  vm_compute. reflexivity.
Defined.

Lemma Parse_rejects_blank_text_witness :
  Parse f64_one " " initHeap
  = Some ((nilMeasurement, Some (parseFailed (list_ascii_of_string " ") [] prefixNotFound)),
          initHeap).
Proof.
  apply Parse_rejects_blank_text.
  - discriminate.
  - vm_compute. reflexivity.
Defined.

Lemma New_allocates_its_result_witness :
  exists r h',
    New "mm" (otherMeasurement (f64_of 3 0) "m") [] initHeap = Some ((r, None), h')
    /\ (forall l x, initHeap !! l = Some x -> h' !! l = Some x)
    /\ exists l' x, r = ptrMeasure l' /\ (length initHeap <= l')%nat /\ h' !! l' = Some x
         /\ Unit x = "mm"%string
         /\ f64_eqb (Value x) f64_zero = false /\ IsInf (Value x) = false.
Proof.
  do 2 eexists.
  assert (Hrun : New "mm" (otherMeasurement (f64_of 3 0) "m") [] initHeap
                 = Some ((_, None), _)) by (vm_compute; reflexivity).
  split; [exact Hrun|]. exact (New_allocates_its_result _ _ _ _ _ _ Hrun).
Defined.

Lemma New_error_kinds_witness :
  (exists c t cause, wrongDimension = parseFailed c t cause)
  \/ wrongDimension = wrongDimension \/ wrongDimension = underflow
  \/ wrongDimension = overflow.
Proof.
  eapply (New_error_kinds "s" (otherMeasurement (f64_of 3 0) "m") [] initHeap).
  vm_compute. reflexivity.
Defined.

Lemma New_unit_order_independent_witness :
  exists value' h1',
    newLoop [otherMeasurement (f64_of 3 0) "s"; otherMeasurement (f64_of 2 0) "m"]
      f64_one theZero initHeap
    = Some (inr (value', {| Dim := [0; 0; 1; 0; 0; 1; 0; 0]; DimLess := []; Scale := 0 |}),
            h1').
Proof.
  eapply (New_unit_order_independent initHeap _
            [otherMeasurement (f64_of 2 0) "m"; otherMeasurement (f64_of 3 0) "s"]).
  - repeat constructor; unfold validM; cbn; eauto.
  - apply perm_swap.
  - vm_compute. reflexivity.
Defined.

Lemma Reciprocal_writes_only_its_argument_witness :
  exists r h',
    Reciprocal (otherMeasurement (f64_of 2 0) "g") initHeap = Some ((r, None), h')
    /\ (forall l x, initHeap !! l = Some x -> h' !! l = Some x)
    /\ r = ptrMeasure (length initHeap) /\ length h' = S (length initHeap).
Proof.
  do 2 eexists.
  assert (Hrun : Reciprocal (otherMeasurement (f64_of 2 0) "g") initHeap
                 = Some ((_, None), _)) by (vm_compute; reflexivity).
  split; [exact Hrun|].
  destruct (Reciprocal_writes_only_its_argument _ _ _ _ _ Hrun) as (Hframe & _ & Hres).
  split; [|exact (Hres eq_refl)].
  intros l x Hl. apply (Hframe l x Hl). discriminate.
Defined.

Lemma ulib_New_total_witness :
  initHeap !! zeroValue = Some zeroMeasure
  /\ exists a e h', ulib.New "mm" [ulib.mk (f64_of 3 0) "m"] initHeap = Some ((a, e), h').
Proof.
  assert (Hz : initHeap !! zeroValue = Some zeroMeasure) by reflexivity.
  split; [exact Hz|].
  destruct (ulib_New_total "mm" [ulib.mk (f64_of 3 0) "m"] initHeap Hz)
    as (a & e & h' & Hrun & _).
  exists a, e, h'. exact Hrun.
Defined.

Lemma parseRune_accepts_witness :
  0 <= 40 < 128 /\ parseRune (list_ascii_of_string "(m)") 0 40 = Ok () 1.
Proof.
  assert (Hr : 0 <= 40 < 128) by lia.
  split; [exact Hr|].
  apply (proj2 (proj1 (parseRune_accepts (list_ascii_of_string "(m)") 0) 40 1%nat Hr)).
  split; [reflexivity|]. exists "("%char. split; reflexivity.
Defined.
